(** * collect_ips: discovery and reachability pipeline

    A shallow embedding of [collect_ips.py]: the address parser
    ([is_valid_ip], [parse_ip_port]), the extractor ([IP_PATTERN],
    [extract_ips_from_text]), the retrying fetcher ([fetch_url]), the two
    coordinators ([fetch_and_extract_ips], [filter_alive_ips]) and the
    sorted output loop of [get_ip_location_and_write].

    Modelling conventions.
    - A Python [str] is a list of Unicode code points ([list N]); a [bytes]
      object is a list of [Byte.byte].
    - Python [int] is [Z]; [None] is [option]'s [None].
    - A Python [set] is a [gset]; the order in which a set is iterated and
      the order in which [as_completed] hands back futures are not fixed
      by the language, so both are parameters of the development.
    - The network and the TCP stack are oracles; the requests and probes a
      function performs are recorded in an explicit [world]. *)

From Stdlib Require Import ZArith NArith Strings.String Strings.Ascii Strings.Byte.
From stdpp Require Import base decidable option list sorting gmap.
From Equations Require Import Equations.

Local Open Scope Z_scope.

(** ** Strings *)

Definition str := list N.

(** A literal of the source, as code points. *)
Definition py (s : string) : str := map N_of_ascii (list_ascii_of_string s).

(** Python exceptions: a call either returns or raises. *)
Inductive outcome (A : Type) : Type :=
| Ret (a : A)
| Exc.
Arguments Ret {A} a.
Arguments Exc {A}.

Definition chr_dot : N := 46.
Definition chr_colon : N := 58.

(** [sep in s] for a one-character [sep]. *)
Definition contains (sep : N) (s : str) : bool := existsb (N.eqb sep) s.

(** [s.split(sep)] for a one-character [sep]: never empty, ["".split(sep)]
    is [[""]]. *)
Fixpoint split (sep : N) (s : str) : list str :=
  match s with
  | [] => [[]]
  | c :: s' =>
      if N.eqb c sep then [] :: split sep s'
      else match split sep s' with
           | x :: xs => (c :: x) :: xs
           | [] => [[c]]
           end
  end.

(** [s.split(sep, 1)] when [sep] occurs in [s]: the text before and the
    text after the first [sep]. *)
Fixpoint split_1 (sep : N) (s : str) : str * str :=
  match s with
  | [] => ([], [])
  | c :: s' =>
      if N.eqb c sep then ([], s')
      else let '(a, b) := split_1 sep s' in (c :: a, b)
  end.

(** ** Decoding the response body *)

(** The [errors] argument of [bytes.decode]. *)
Inductive error_handler : Type := strict | ignore | replace.

Definition bad_bytes (h : error_handler) (resume : outcome str) : outcome str :=
  match h, resume with
  | strict, _ => Exc
  | _, Exc => Exc
  | ignore, Ret t => Ret t
  | replace, Ret t => Ret (65533%N :: t)
  end.

Definition emit (c : N) (rest : outcome str) : outcome str :=
  match rest with Ret t => Ret (c :: t) | Exc => Exc end.

Definition in_range (lo hi b : N) : bool := ((lo <=? b) && (b <=? hi))%N.

(** A continuation byte [10xxxxxx]. *)
Definition is_cont (b : N) : bool := in_range 128 191 b.

(** The range of the second byte, which depends on the lead byte (no
    overlong forms, no surrogates, nothing above U+10FFFF). *)
Definition second_ok (b0 b1 : N) : bool :=
  if (b0 =? 224)%N then in_range 160 191 b1
  else if (b0 =? 237)%N then in_range 128 159 b1
  else if (b0 =? 240)%N then in_range 144 191 b1
  else if (b0 =? 244)%N then in_range 128 143 b1
  else is_cont b1.

Definition bits (b mask : N) : N := N.land b mask.

(** [bytes.decode('utf-8', errors=h)]: a malformed or truncated sequence
    is one error, and decoding resumes at the first byte that does not
    continue it. *)
Fixpoint utf8_decode (h : error_handler) (raw : list Byte.byte) : outcome str :=
  match raw with
  | [] => Ret []
  | x0 :: r0 =>
      let b0 := Byte.to_N x0 in
      if (b0 <? 128)%N then emit b0 (utf8_decode h r0)
      else if in_range 194 223 b0 then
        match r0 with
        | x1 :: r1 =>
            let b1 := Byte.to_N x1 in
            if is_cont b1
            then emit (N.lor (N.shiftl (bits b0 31) 6) (bits b1 63)) (utf8_decode h r1)
            else bad_bytes h (utf8_decode h r0)
        | [] => bad_bytes h (Ret [])
        end
      else if in_range 224 239 b0 then
        match r0 with
        | x1 :: r1 =>
            let b1 := Byte.to_N x1 in
            if second_ok b0 b1 then
              match r1 with
              | x2 :: r2 =>
                  let b2 := Byte.to_N x2 in
                  if is_cont b2
                  then emit (N.lor (N.shiftl (bits b0 15) 12)
                               (N.lor (N.shiftl (bits b1 63) 6) (bits b2 63)))
                            (utf8_decode h r2)
                  else bad_bytes h (utf8_decode h r1)
              | [] => bad_bytes h (Ret [])
              end
            else bad_bytes h (utf8_decode h r0)
        | [] => bad_bytes h (Ret [])
        end
      else if in_range 240 244 b0 then
        match r0 with
        | x1 :: r1 =>
            let b1 := Byte.to_N x1 in
            if second_ok b0 b1 then
              match r1 with
              | x2 :: r2 =>
                  let b2 := Byte.to_N x2 in
                  if is_cont b2 then
                    match r2 with
                    | x3 :: r3 =>
                        let b3 := Byte.to_N x3 in
                        if is_cont b3
                        then emit (N.lor (N.shiftl (bits b0 7) 18)
                                     (N.lor (N.shiftl (bits b1 63) 12)
                                        (N.lor (N.shiftl (bits b2 63) 6) (bits b3 63))))
                                  (utf8_decode h r3)
                        else bad_bytes h (utf8_decode h r2)
                    | [] => bad_bytes h (Ret [])
                    end
                  else bad_bytes h (utf8_decode h r1)
              | [] => bad_bytes h (Ret [])
              end
            else bad_bytes h (utf8_decode h r0)
        | [] => bad_bytes h (Ret [])
        end
      else bad_bytes h (utf8_decode h r0)
  end.

(** [bytes.decode('iso-8859-1', ...)]: every byte is its own code point. *)
Definition latin1_decode (raw : list Byte.byte) : str := map Byte.to_N raw.

(** Lines 128-131 of [fetch_url]: UTF-8 with [errors='ignore'], and
    ISO-8859-1 when that raises. *)
Definition decode_body (raw_bytes : list Byte.byte) : str :=
  match utf8_decode ignore raw_bytes with
  | Ret content => content
  | Exc => latin1_decode raw_bytes
  end.


(** ** Configuration and state *)

(** The module-level settings the pipeline reads. *)
Record config : Type := {
  URLS : list str;
  RETRY_LIMIT : nat;
  common_ports : list Z
}.

(** The values in the source. *)
Definition source_config : config := {|
  URLS :=
    [ py "https://raw.githubusercontent.com/Fido6/bestip/refs/heads/dtaa/bestiphk.txt";
      py "https://raw.githubusercontent.com/Fido6/bestip/refs/heads/dtaa/bestipjp.txt";
      py "https://raw.githubusercontent.com/Fido6/bestip/refs/heads/dtaa/bestipsg.txt" ];
  RETRY_LIMIT := 2;
  common_ports := [443]
|}.

(** The two global sets, and the record of what has been asked of the
    network: the URLs requested and the [(ip, port)] pairs probed, oldest
    first. *)
Record world : Type := {
  ip_set : gset (str * option Z);
  alive_ip_set : gset (str * Z);
  requests : list str;
  probes : list (str * Z)
}.

Definition initial_world : world :=
  {| ip_set := ∅; alive_ip_set := ∅; requests := []; probes := [] |}.

Definition log_request (url : str) (w : world) : world :=
  {| ip_set := ip_set w; alive_ip_set := alive_ip_set w;
     requests := requests w ++ [url]; probes := probes w |}.

Definition log_probe (ip : str) (port : Z) (w : world) : world :=
  {| ip_set := ip_set w; alive_ip_set := alive_ip_set w;
     requests := requests w; probes := probes w ++ [(ip, port)] |}.

(** [ip_set.add(c)] *)
Definition ip_set_add (c : str * option Z) (w : world) : world :=
  {| ip_set := {[c]} ∪ ip_set w; alive_ip_set := alive_ip_set w;
     requests := requests w; probes := probes w |}.

(** [alive_ip_set.update(items)] *)
Definition alive_ip_set_update (items : list (str * Z)) (w : world) : world :=
  {| ip_set := ip_set w; alive_ip_set := alive_ip_set w ∪ list_to_set items;
     requests := requests w; probes := probes w |}.

(** [executor.submit(task, x)] for each [x] of [xs], with the value each
    future ends up holding.  The tasks are run here one after another, in
    submission order. *)
Fixpoint submit_all {A B : Type} (task : A → world → B * world)
    (xs : list A) (w : world) : list (A * B) * world :=
  match xs with
  | [] => ([], w)
  | x :: xs' =>
      let '(r, w1) := task x w in
      let '(futures, w2) := submit_all task xs' w1 in
      ((x, r) :: futures, w2)
  end.

(** ** The sort key of the output *)

(** [a < b], [a == b] or [a > b] on [str]: by code point, a proper prefix
    first. *)
Fixpoint str_compare (a b : str) : comparison :=
  match a, b with
  | [], [] => Eq
  | [], _ :: _ => Lt
  | _ :: _, [] => Gt
  | x :: a', y :: b' =>
      match (x ?= y)%N with
      | Eq => str_compare a' b'
      | c => c
      end
  end.

(** [(x[0], x[1]) <= (y[0], y[1])] on tuples of a [str] and an [int]. *)
Definition key_leb (x y : str * Z) : bool :=
  match str_compare x.1 y.1 with
  | Lt => true
  | Eq => x.2 <=? y.2
  | Gt => false
  end.

Definition key_le (x y : str * Z) : Prop := Is_true (key_leb x y).

(** [sorted(items, key=lambda x: (x[0], x[1]))] *)
Definition sorted (items : list (str * Z)) : list (str * Z) :=
  merge_sort key_le items.

(** ** Concrete parameters

    Tables for text within ASCII, the order [elements] gives for sets,
    completion in submission order, a network that fails a number of
    times and then answers, and a TCP stack on which the listed ports
    are open. *)
Definition no_decimal : N → option Z := λ _, None.
Definition no_class : N → bool := λ _, false.

Definition elements_order : ∀ (A : Type) `{Countable A}, gset A → list A :=
  λ A _ _, elements.

Definition submission_order : ∀ A : Type, list A → list A := λ _ l, l.

Definition answers_after (failures : nat) (body : list Byte.byte)
    : list str → str → option (list Byte.byte) :=
  λ h _, if (length h <? failures)%nat then None else Some body.

Definition open_on (ports : list Z) : str → Z → bool :=
  λ _ p, bool_decide (p ∈ ports).

Definition unknown_country : str → str := λ _, py "Unknown".

(** The superscript digits of Latin-1: [str.isdigit] accepts them and
    [int] does not. *)
Definition superscript_digits : N → bool :=
  λ c, (c =? 178)%N || (c =? 179)%N || (c =? 185)%N.

(** A network on which every request fails. *)
Definition never_answers : list str → str → option (list Byte.byte) :=
  λ _ _, None.

(** A state with one candidate and one verified endpoint. *)
Definition example_world : world :=
  {| ip_set := {[ (py "1.2.3.4", Some 9000) ]};
     alive_ip_set := {[ (py "1.2.3.4", 443) ]};
     requests := []; probes := [] |}.

(** ** Formatting the output *)

Definition chr_hash : N := 35.

(** [sep.join(parts)] for a one-character [sep]. *)
Fixpoint join (sep : N) (parts : list str) : str :=
  match parts with
  | [] => []
  | [x] => x
  | x :: rest => x ++ sep :: join sep rest
  end.

(** The decimal digits of a natural number, most significant first;
    [fuel] bounds their number. *)
Fixpoint digits_upto (fuel : nat) (n : N) : str :=
  match fuel with
  | O => []
  | S fuel' =>
      if (n <? 10)%N then [(48 + n)%N]
      else digits_upto fuel' (n / 10) ++ [(48 + n mod 10)%N]
  end.

(** A number has no more decimal digits than binary ones. *)
Definition digits_of (n : N) : str := digits_upto (S (N.size_nat n)) n.

(** [str(n)] for an [int]. *)
Definition str_of_int (n : Z) : str :=
  match n with
  | Z0 => [48%N]
  | Zpos p => digits_of (Npos p)
  | Zneg p => 45%N :: digits_of (Npos p)
  end.

(** The line written for one record:
    [f"{ip}:{port}#{country}-{port}\n"]. *)
Definition format_line (record : str * Z * str) : str :=
  let '(ip, port, country) := record in
  ip ++ chr_colon :: str_of_int port
     ++ chr_hash :: country ++ 45%N :: str_of_int port ++ [10%N].

Section Pipeline.

Set Default Proof Using "Type".

(** ** Character classes

    The ASCII range is written out; the Unicode tables beyond it are
    parameters: the decimal value of a character of category Nd, the
    characters [str.isdigit] accepts, and the word characters of [\w]. *)
Variable uni_decimal : N → option Z.
Variable uni_isdigit : N → bool.
Variable uni_isword : N → bool.

Definition is_ascii (c : N) : bool := (c <? 128)%N.

(** The value [int] gives a decimal digit, [None] for any other
    character. *)
Definition decimal_value (c : N) : option Z :=
  if is_ascii c then
    if (48 <=? c)%N && (c <=? 57)%N then Some (Z.of_N c - 48) else None
  else uni_decimal c.

(** [\d] of the [re] module on [str] patterns: a decimal digit. *)
Definition isdecimal_char (c : N) : bool :=
  match decimal_value c with Some _ => true | None => false end.

(** One character of [str.isdigit]: a decimal digit or a character such as
    a superscript digit. *)
Definition isdigit_char (c : N) : bool :=
  isdecimal_char c || (negb (is_ascii c) && uni_isdigit c).

(** [\w]: letters, digits and the underscore. *)
Definition isword_char (c : N) : bool :=
  if is_ascii c then
    ((48 <=? c)%N && (c <=? 57)%N) || ((65 <=? c)%N && (c <=? 90)%N)
    || ((97 <=? c)%N && (c <=? 122)%N) || (c =? 95)%N
  else uni_isword c || isdigit_char c.

(** [s.isdigit()]: false on the empty string. *)
Definition isdigit (s : str) : bool :=
  match s with [] => false | _ => forallb isdigit_char s end.

(** [int(s)] on a string that passed [isdigit]: the decimal value, or
    [ValueError] ([None]) when a character is a digit without a decimal
    value.  The conversion is unbounded (the interpreter's optional cap on
    the digit count is not modelled). *)
Fixpoint int_acc (acc : Z) (s : str) : option Z :=
  match s with
  | [] => Some acc
  | c :: s' =>
      match decimal_value c with
      | Some d => int_acc (10 * acc + d) s'
      | None => None
      end
  end.

Definition int (s : str) : option Z :=
  match s with [] => None | _ => int_acc 0 s end.

(** ** AddressParser *)

Definition candidate : Type := str * option Z.
Definition endpoint : Type := str * Z.

(** The loop of [is_valid_ip] over [parts]; [Exc] when [int] raises. *)
Fixpoint valid_parts (parts : list str) : outcome bool :=
  match parts with
  | [] => Ret true
  | part :: rest =>
      if negb (isdigit part) then Ret false
      else match int part with
           | None => Exc
           | Some n =>
               if (n <? 0) || (n >? 255) then Ret false
               else valid_parts rest
           end
  end.

(** [is_valid_ip]: the [try] turns every exception into [False]. *)
Definition is_valid_ip (ip : str) : bool :=
  let parts := split chr_dot ip in
  if negb (length parts =? 4)%nat then false
  else match valid_parts parts with
       | Ret b => b
       | Exc => false
       end.

(** [parse_ip_port]: [Ret None] is the source's [return None]; the [int]
    of the port is outside any [try], so its failure is raised. *)
Definition parse_ip_port (s : str) : outcome (option candidate) :=
  if contains chr_colon s then
    let '(ip_part, port_part) := split_1 chr_colon s in
    if negb (is_valid_ip ip_part) then Ret None
    else if negb (isdigit port_part) then Ret None
    else match int port_part with
         | None => Exc
         | Some port =>
             if (1 <=? port) && (port <=? 65535)
             then Ret (Some (ip_part, Some port))
             else Ret None
         end
  else
    if is_valid_ip s then Ret (Some (s, None)) else Ret None.

(** ** AddressExtractor: the pattern and [re.findall] *)

(** The fragment of the [re] syntax that [IP_PATTERN] is written in. *)
Inductive regex : Type :=
| Digit                              (* \d *)
| Chr (c : N)                        (* a literal character *)
| WordBoundary                       (* \b *)
| Cat (r1 r2 : regex)                (* r1 r2 *)
| Repeat (lo hi : nat) (r : regex).  (* greedy (?:r){lo,hi}; (?:r)? is {0,1} *)

Definition word_at (o : option N) : bool :=
  match o with Some c => isword_char c | None => false end.

(** [\b] holds between a word character and a non-word character, the
    ends of the text counting as non-word. *)
Definition at_boundary (prev : option N) (s : str) : bool :=
  xorb (word_at prev) (word_at (head s)).

(** A greedy bounded repetition of [body], with [k] the rest of the
    pattern: one more iteration is tried first, and the rest of the
    pattern only when that fails and [lo] iterations are done. *)
Fixpoint iterate
    (body : option N → str → (option N → str → option str) → option str)
    (lo hi : nat) (prev : option N) (s : str)
    (k : option N → str → option str) {struct hi} : option str :=
  match hi with
  | O => match lo with O => k prev s | S _ => None end
  | S hi' =>
      match body prev s (λ p' s', iterate body (pred lo) hi' p' s' k) with
      | Some rest => Some rest
      | None => match lo with O => k prev s | S _ => None end
      end
  end.

(** The backtracking matcher: [prev] is the character before the current
    position, [s] the text from it, [k] the rest of the pattern; the
    answer is the text left after the first way to match that [k]
    accepts. *)
Fixpoint backtrack (r : regex) (prev : option N) (s : str)
    (k : option N → str → option str) {struct r} : option str :=
  match r with
  | Digit =>
      match s with
      | c :: s' => if isdecimal_char c then k (Some c) s' else None
      | [] => None
      end
  | Chr a =>
      match s with
      | c :: s' => if N.eqb c a then k (Some c) s' else None
      | [] => None
      end
  | WordBoundary => if at_boundary prev s then k prev s else None
  | Cat r1 r2 => backtrack r1 prev s (λ p' s', backtrack r2 p' s' k)
  | Repeat lo hi r1 => iterate (backtrack r1) lo hi prev s k
  end.

(** An attempt to match [r] at one position: the length of the match. *)
Definition match_at (r : regex) (prev : option N) (s : str) : option nat :=
  match backtrack r prev s (fun _ rest => Some rest) with
  | Some rest => Some (length s - length rest)%nat
  | None => None
  end.

(** The scan of [re.findall] for a pattern that has no empty match: try
    each position from the left; after a match the next attempt is at its
    end ([skip] counts the characters of the last match still to pass). *)
Fixpoint scan (r : regex) (prev : option N) (s : str) (skip : nat) : list str :=
  match s with
  | [] => []
  | c :: s' =>
      match skip with
      | S n => scan r (Some c) s' n
      | O =>
          match match_at r prev s with
          | Some len => take len s :: scan r (Some c) s' (pred len)
          | None => scan r (Some c) s' 0
          end
      end
  end.

Definition findall (r : regex) (text : str) : list str := scan r None text 0.

(** [IP_PATTERN = r'\b\d{1,3}(?:\.\d{1,3}){3}(?::\d{1,5})?\b'] *)
Definition IP_PATTERN : regex :=
  Cat WordBoundary
   (Cat (Repeat 1 3 Digit)
    (Cat (Repeat 3 3 (Cat (Chr chr_dot) (Repeat 1 3 Digit)))
     (Cat (Repeat 0 1 (Cat (Chr chr_colon) (Repeat 1 5 Digit)))
          WordBoundary))).

(** ** Iteration and completion order

    Neither is fixed by the language: iterating a set gives its elements
    in some order, and [as_completed] gives the submitted futures in the
    order they finish. *)
Variable set_iter : ∀ (A : Type) `{Countable A}, gset A → list A.
Hypothesis set_iter_perm :
  ∀ (A : Type) `{Countable A} (s : gset A), set_iter A s ≡ₚ elements s.

Variable as_completed : ∀ A : Type, list A → list A.
Hypothesis as_completed_perm : ∀ (A : Type) (l : list A), as_completed A l ≡ₚ l.

(** The loop of [extract_ips_from_text] over [raw_matches]. *)
Fixpoint parse_matches (raw_matches : list str) : outcome (list candidate) :=
  match raw_matches with
  | [] => Ret []
  | m :: rest =>
      match parse_ip_port m with
      | Exc => Exc
      | Ret parsed =>
          match parse_matches rest with
          | Exc => Exc
          | Ret results =>
              Ret (match parsed with
                   | Some c => c :: results
                   | None => results
                   end)
          end
      end
  end.

Definition extract_ips_from_text (text : str) : outcome (list candidate) :=
  match parse_matches (findall IP_PATTERN text) with
  | Exc => Exc
  | Ret results => Ret (set_iter candidate (list_to_set results))
  end.

(** ** SourceFetcher *)

Variable cfg : config.

(** The network: what [urlopen(...).read()] gives for a URL after the
    requests made so far, [None] when the request raises (no connection,
    timeout, an HTTP error status). *)
Variable urlopen : list str → str → option (list Byte.byte).

(** The body of the [try] in [fetch_url]. *)
Definition attempt (url : str) (w : world) : outcome (list candidate) :=
  match urlopen (requests w) url with
  | None => Exc
  | Some raw_bytes => extract_ips_from_text (decode_body raw_bytes)
  end.

Equations fetch_url (url : str) (retry : nat) (w : world)
    : list candidate * world by wf (RETRY_LIMIT cfg - retry)%nat lt :=
  fetch_url url retry w :=
    match attempt url w with
    | Ret ips => (ips, log_request url w)
    | Exc =>
        match decide (retry < RETRY_LIMIT cfg)%nat with
        | left _ => fetch_url url (S retry) (log_request url w)
        | right _ => ([], log_request url w)
        end
    end.
Next Obligation. lia. Qed.

(** ** DiscoveryCoordinator *)

(** The inner loop [for ip_tuple in ips: ip_set.add(ip_tuple)]. *)
Definition add_all (ips : list candidate) (w : world) : world :=
  foldl (λ w ip_tuple, ip_set_add ip_tuple w) w ips.

Definition fetch_and_extract_ips (w : world) : world :=
  let '(futures, w1) := submit_all (λ url, fetch_url url 0) (URLS cfg) w in
  foldl (λ w future, add_all future.2 w) w1 (as_completed _ futures).

(** ** PortProbe and ReachabilityCoordinator *)

(** The TCP stack: whether [connect((ip, port))] succeeds in time. *)
Variable connect : str → Z → bool.

Definition check_port_open (ip : str) (port : Z) (w : world) : bool * world :=
  (connect ip port, log_probe ip port w).

(** [open_ports] collects, in completion order, the ports whose probe
    returned [True]. *)
Definition check_ports_for_ip (ip : str) (ports : list Z) (w : world)
    : list Z * world :=
  let '(futures, w1) := submit_all (check_port_open ip) ports w in
  ((filter (λ future, future.2 = true) (as_completed _ futures)).*1, w1).

(** Lines 203-206: the ports to probe for one candidate. *)
Definition ports_to_check (port : option Z) : list Z :=
  match port with
  | None => common_ports cfg
  | Some p => [p]
  end.

(** [alive_items] after the second loop of [filter_alive_ips]: for each
    completed future, in completion order, one pair per open port. *)
Definition alive_items_of (completed : list (str * list Z * list Z))
    : list endpoint :=
  mjoin ((λ future, pair future.1.1 <$> future.2) <$> completed).

Definition filter_alive_ips (w : world) : world :=
  let items := (λ c : candidate, (c.1, ports_to_check c.2)) <$> set_iter _ (ip_set w) in
  let '(futures, w1) :=
    submit_all (λ item, check_ports_for_ip item.1 item.2) items w in
  alive_ip_set_update (alive_items_of (as_completed _ futures)) w1.

(** ** ResultAggregator *)

(** The records [get_ip_location_and_write] writes, in order; the country
    lookup is external. *)
Variable country_of : str → str.

Definition get_ip_location_and_write (w : world) : list (str * Z * str) :=
  (λ e : endpoint, (e.1, e.2, country_of e.1)) <$> sorted (set_iter _ (alive_ip_set w)).

(** The whole run after the connectivity test. *)
Definition main (w : world) : list (str * Z * str) :=
  get_ip_location_and_write (filter_alive_ips (fetch_and_extract_ips w)).

(** The address [g1.g2.g3.g4] as text. *)
Definition dotted (g1 g2 g3 g4 : str) : str :=
  g1 ++ chr_dot :: g2 ++ chr_dot :: g3 ++ chr_dot :: g4.

(** [g] is all digits and parses to [n]. *)
Definition numeral (g : str) (n : Z) : Prop :=
  isdigit g = true ∧ int g = Some n.

Definition octet_ok (n : Z) : bool := (0 <=? n) && (n <=? 255).
Definition port_ok (n : Z) : bool := (1 <=? n) && (n <=? 65535).

(** ** What a pattern matches

    [denotes r prev w next]: the pattern [r] matches exactly the text [w]
    when [prev] is the character before it and [next] the text after
    it. *)

(** The character before the position reached by reading [w]. *)
Definition last_char (prev : option N) (w : str) : option N :=
  match last w with Some c => Some c | None => prev end.

Fixpoint times (D : option N → str → str → Prop) (n : nat)
    (prev : option N) (w next : str) : Prop :=
  match n with
  | O => w = []
  | S n' =>
      ∃ w1 w2, w = w1 ++ w2 ∧ D prev w1 (w2 ++ next)
               ∧ times D n' (last_char prev w1) w2 next
  end.

Fixpoint denotes (r : regex) (prev : option N) (w next : str) : Prop :=
  match r with
  | Digit => ∃ c, w = [c] ∧ isdecimal_char c = true
  | Chr a => w = [a]
  | WordBoundary => w = [] ∧ at_boundary prev next = true
  | Cat r1 r2 =>
      ∃ w1 w2, w = w1 ++ w2 ∧ denotes r1 prev w1 (w2 ++ next)
               ∧ denotes r2 (last_char prev w1) w2 next
  | Repeat lo hi r1 =>
      ∃ n, (lo ≤ n ≤ hi)%nat ∧ times (denotes r1) n prev w next
  end.

(** A run of [lo] to [hi] decimal digits. *)
Definition digit_run (lo hi : nat) (g : str) : Prop :=
  (lo ≤ length g ≤ hi)%nat ∧ Forall (λ c, isdecimal_char c = true) g.

(** The shape of a token of [IP_PATTERN]: four runs of one to three
    digits and, optionally, a run of one to five after a colon. *)
Inductive token : str → Prop :=
| token_bare g1 g2 g3 g4 :
    digit_run 1 3 g1 → digit_run 1 3 g2 → digit_run 1 3 g3 →
    digit_run 1 3 g4 →
    token (dotted g1 g2 g3 g4)
| token_port g1 g2 g3 g4 p :
    digit_run 1 3 g1 → digit_run 1 3 g2 → digit_run 1 3 g3 →
    digit_run 1 3 g4 → digit_run 1 5 p →
    token (dotted g1 g2 g3 g4 ++ chr_colon :: p).

(** The neighbours of a token that stands on its own in a text: before
    it, the start of the text or a character that is neither a word
    character nor a dot nor a colon; after it, the end of the text or a
    character that is neither a word character nor a colon. *)
Definition clear_before (o : option N) : Prop :=
  match o with
  | None => True
  | Some c => isword_char c = false ∧ c ≠ chr_dot ∧ c ≠ chr_colon
  end.

Definition clear_after (o : option N) : Prop :=
  word_at o = false ∧ o ≠ Some chr_colon.

Definition decimal_at (o : option N) : bool :=
  match o with Some c => isdecimal_char c | None => false end.

(** A byte that cannot start a UTF-8 sequence: a continuation byte, the
    overlong leads C0 and C1, or a lead above F4. *)
Definition invalid_lead (x : Byte.byte) : bool :=
  in_range 128 193 (Byte.to_N x) || (245 <=? Byte.to_N x)%N.

Definition is_ascii_byte (x : Byte.byte) : bool := (Byte.to_N x <? 128)%N.

(** The UTF-8 encoding form (RFC 3629), the standard the decoding of the
    body is compared with: the scalar values, and the one to four bytes
    that encode one. *)
Definition scalar_value (c : N) : bool :=
  ((c <? 55296) || ((57344 <=? c) && (c <? 1114112)))%N.

Definition utf8_encode (c : N) : list N :=
  (if c <? 128 then [c]
   else if c <? 2048 then [192 + c / 64; 128 + c mod 64]
   else if c <? 65536 then
     [224 + c / 4096; 128 + (c / 64) mod 64; 128 + c mod 64]
   else [240 + c / 262144; 128 + (c / 4096) mod 64;
         128 + (c / 64) mod 64; 128 + c mod 64])%N.

(** [bs] is the well-formed UTF-8 sequence of the scalar value [c]. *)
Definition encodes (bs : list Byte.byte) (c : N) : Prop :=
  scalar_value c = true ∧ Byte.to_N <$> bs = utf8_encode c.

(** The invariant of a candidate: a valid address and, when a port is
    present, a port in [1, 65535]. *)
Definition valid_candidate (c : candidate) : Prop :=
  is_valid_ip c.1 = true
  ∧ match c.2 with Some p => 1 ≤ p ≤ 65535 | None => True end.

Definition valid_endpoint (e : endpoint) : Prop :=
  is_valid_ip e.1 = true ∧ 1 ≤ e.2 ≤ 65535.

(** The text of the output file, line by line. *)
Definition written_lines (w : world) : list str :=
  format_line <$> get_ip_location_and_write w.

(** * Properties *)

(** ** Text helpers *)

Lemma isdigit_char_not_sep c :
  isdigit_char c = true → c ≠ chr_dot ∧ c ≠ chr_colon.
Proof.
  intros H; split; intros ->; vm_compute in H; discriminate.
Qed.

Lemma isdigit_Forall g :
  isdigit g = true ↔ g ≠ [] ∧ Forall (λ c, isdigit_char c = true) g.
Proof.
  unfold isdigit. destruct g as [|c g].
  - split; [discriminate | intros [[] _]; reflexivity].
  - rewrite forallb_forall, Forall_forall.
    split.
    + intros H; split; [discriminate|]. intros x Hx. apply H.
      by apply list_elem_of_In.
    + intros [_ H] x Hx. apply H. by apply list_elem_of_In.
Qed.

Lemma numeral_no_sep g n :
  numeral g n → (chr_dot ∉ g) ∧ (chr_colon ∉ g).
Proof.
  intros [Hd _]. apply isdigit_Forall in Hd as [_ Hd].
  rewrite Forall_forall in Hd.
  split; intros Hin; apply Hd, isdigit_char_not_sep in Hin as [? ?]; done.
Qed.

Lemma split_cons_ne sep c s :
  c ≠ sep →
  ∃ x xs, split sep s = x :: xs ∧ split sep (c :: s) = (c :: x) :: xs.
Proof.
  intros Hne. simpl. destruct (N.eqb_spec c sep) as [|_]; [done|].
  destruct (split sep s) as [|x xs] eqn:E.
  - destruct s; simpl in E; [done|].
    destruct (N.eqb n sep); [done|]. by destruct (split sep s).
  - eauto.
Qed.

Lemma split_app_sep sep g rest :
  sep ∉ g → split sep (g ++ sep :: rest) = g :: split sep rest.
Proof.
  induction g as [|c g IH]; intros Hg.
  - simpl. by rewrite N.eqb_refl.
  - apply not_elem_of_cons in Hg as [Hc Hg].
    destruct (split_cons_ne sep c (g ++ sep :: rest)) as (x & xs & E1 & E2);
      [done|].
    rewrite <- app_comm_cons, E2. rewrite IH in E1 by done.
    by injection E1 as <- <-.
Qed.

Lemma split_no_sep sep g : sep ∉ g → split sep g = [g].
Proof.
  induction g as [|c g IH]; intros Hg; [done|].
  apply not_elem_of_cons in Hg as [Hc Hg].
  destruct (split_cons_ne sep c g) as (x & xs & E1 & E2); [done|].
  rewrite E2. rewrite IH in E1 by done. by injection E1 as <- <-.
Qed.

Lemma contains_elem_of sep s : contains sep s = true ↔ sep ∈ s.
Proof.
  unfold contains. rewrite existsb_exists. split.
  - intros (x & Hx & E). apply N.eqb_eq in E as ->. by apply list_elem_of_In.
  - intros H. exists sep. split; [by apply list_elem_of_In | apply N.eqb_refl].
Qed.

Lemma contains_false sep s : sep ∉ s → contains sep s = false.
Proof.
  intros H. destruct (contains sep s) eqn:E; [|done].
  by apply contains_elem_of in E.
Qed.

Lemma split_1_app sep a b : sep ∉ a → split_1 sep (a ++ sep :: b) = (a, b).
Proof.
  induction a as [|c a IH]; intros Ha; simpl.
  - by rewrite N.eqb_refl.
  - apply not_elem_of_cons in Ha as [Hc Ha].
    destruct (N.eqb_spec c sep); [done|]. by rewrite IH.
Qed.

Lemma split_dotted g1 g2 g3 g4 :
  chr_dot ∉ g1 → chr_dot ∉ g2 → chr_dot ∉ g3 → chr_dot ∉ g4 →
  split chr_dot (dotted g1 g2 g3 g4) = [g1; g2; g3; g4].
Proof.
  intros H1 H2 H3 H4. unfold dotted.
  rewrite !split_app_sep by done. by rewrite split_no_sep.
Qed.

(** ** AddressParser *)

Lemma valid_parts_numerals gs ns :
  Forall2 numeral gs ns →
  valid_parts gs = Ret (forallb octet_ok ns).
Proof.
  induction 1 as [|g n gs ns [Hd Hi] _ IH]; [done|].
  simpl. rewrite Hd, Hi. simpl. unfold octet_ok at 1.
  rewrite IH.
  destruct (Z.ltb_spec n 0), (Z.leb_spec 0 n), (Z.gtb_spec n 255),
    (Z.leb_spec n 255); simpl; try lia; done.
Qed.

Lemma is_valid_ip_dotted g1 g2 g3 g4 n1 n2 n3 n4 :
  numeral g1 n1 → numeral g2 n2 → numeral g3 n3 → numeral g4 n4 →
  is_valid_ip (dotted g1 g2 g3 g4) = forallb octet_ok [n1; n2; n3; n4].
Proof.
  intros H1 H2 H3 H4. unfold is_valid_ip.
  rewrite split_dotted by (eapply numeral_no_sep; eassumption).
  simpl length. simpl negb.
  by rewrite (valid_parts_numerals [g1; g2; g3; g4] [n1; n2; n3; n4])
    by (do 4 (constructor; [done|]); constructor).
Qed.

Lemma dotted_no_colon g1 g2 g3 g4 n1 n2 n3 n4 :
  numeral g1 n1 → numeral g2 n2 → numeral g3 n3 → numeral g4 n4 →
  chr_colon ∉ dotted g1 g2 g3 g4.
Proof.
  intros H1 H2 H3 H4. unfold dotted.
  apply numeral_no_sep in H1 as [_ ?], H2 as [_ ?], H3 as [_ ?], H4 as [_ ?].
  intros Hin.
  repeat (apply elem_of_app in Hin as [Hin|Hin]; [done|];
          apply elem_of_cons in Hin as [Hin|Hin]; [done|]).
  done.
Qed.

Lemma parse_ip_port_bare g1 g2 g3 g4 n1 n2 n3 n4 :
  numeral g1 n1 → numeral g2 n2 → numeral g3 n3 → numeral g4 n4 →
  parse_ip_port (dotted g1 g2 g3 g4) =
    Ret (if forallb octet_ok [n1; n2; n3; n4]
         then Some (dotted g1 g2 g3 g4, None) else None).
Proof.
  intros H1 H2 H3 H4. unfold parse_ip_port.
  rewrite contains_false by (eapply dotted_no_colon; eassumption).
  rewrite (is_valid_ip_dotted _ _ _ _ _ _ _ _ H1 H2 H3 H4).
  by destruct (forallb octet_ok [n1; n2; n3; n4]).
Qed.

Lemma parse_ip_port_with_port g1 g2 g3 g4 n1 n2 n3 n4 p n :
  numeral g1 n1 → numeral g2 n2 → numeral g3 n3 → numeral g4 n4 →
  numeral p n →
  parse_ip_port (dotted g1 g2 g3 g4 ++ chr_colon :: p) =
    Ret (if forallb octet_ok [n1; n2; n3; n4] && port_ok n
         then Some (dotted g1 g2 g3 g4, Some n) else None).
Proof.
  intros H1 H2 H3 H4 [Hd Hi]. unfold parse_ip_port.
  assert (contains chr_colon (dotted g1 g2 g3 g4 ++ chr_colon :: p) = true)
    as ->.
  { apply contains_elem_of. rewrite elem_of_app, elem_of_cons. auto. }
  rewrite split_1_app by (eapply dotted_no_colon; eassumption).
  rewrite (is_valid_ip_dotted _ _ _ _ _ _ _ _ H1 H2 H3 H4).
  destruct (forallb octet_ok [n1; n2; n3; n4]); [|done].
  simpl negb. cbv iota. rewrite Hd, Hi. simpl negb. cbv iota.
  unfold port_ok. by destruct ((1 <=? n) && (n <=? 65535)).
Qed.

(** ** The matcher is sound for [denotes] *)

Lemma last_char_app prev w1 w2 :
  last_char (last_char prev w1) w2 = last_char prev (w1 ++ w2).
Proof.
  unfold last_char. rewrite last_app. by destruct (last w2).
Qed.

Section Iterate.
Variable body : option N → str → (option N → str → option str) → option str.
Variable D : option N → str → str → Prop.
Hypothesis body_sound : ∀ prev s k x,
  body prev s k = Some x →
  ∃ w s', s = w ++ s' ∧ D prev w s' ∧ k (last_char prev w) s' = Some x.

Lemma iterate_sound hi : ∀ lo prev s k x,
  iterate body lo hi prev s k = Some x →
  ∃ n w s', (lo ≤ n ≤ hi)%nat ∧ s = w ++ s' ∧ times D n prev w s'
            ∧ k (last_char prev w) s' = Some x.
Proof using Type body_sound.
  induction hi as [|hi IH]; intros lo prev s k x; simpl.
  - destruct lo; [|done]. intros Hk.
    exists 0%nat, [], s. by repeat split.
  - destruct (body prev s _) as [rest|] eqn:Hb.
    + intros [= ->].
      apply body_sound in Hb as (w1 & s1 & -> & HD & Hit).
      apply IH in Hit as (n & w2 & s2 & Hn & -> & Ht & Hk).
      exists (S n), (w1 ++ w2), s2.
      rewrite last_char_app in Hk. rewrite <- app_assoc.
      repeat split; try lia; try done.
      simpl. by exists w1, w2.
    + destruct lo; [|done]. intros Hk.
      exists 0%nat, [], s. repeat split; (lia || done).
Qed.
End Iterate.

Lemma backtrack_sound r : ∀ prev s k x,
  backtrack r prev s k = Some x →
  ∃ w s', s = w ++ s' ∧ denotes r prev w s'
          ∧ k (last_char prev w) s' = Some x.
Proof.
  induction r as [| a | | r1 IH1 r2 IH2 | lo hi r1 IH1]; intros prev s k x; simpl.
  - destruct s as [|c s']; [done|].
    destruct (isdecimal_char c) eqn:Hc; [|done]. intros Hk.
    exists [c], s'. repeat split; [|done]. by exists c.
  - destruct s as [|c s']; [done|].
    destruct (N.eqb_spec c a) as [->|]; [|done]. intros Hk.
    by exists [a], s'.
  - destruct (at_boundary prev s) eqn:Hb; [|done]. intros Hk.
    by exists [], s.
  - intros H. apply IH1 in H as (w1 & s1 & -> & H1 & H).
    apply IH2 in H as (w2 & s2 & -> & H2 & Hk).
    exists (w1 ++ w2), s2. rewrite last_char_app in Hk.
    rewrite <- app_assoc. repeat split; [|done]. by exists w1, w2.
  - intros H.
    apply (iterate_sound _ (denotes r1) IH1) in H
      as (n & w & s' & Hn & -> & Ht & Hk).
    exists w, s'. repeat split; [|done]. by exists n.
Qed.

Lemma match_at_sound r prev s len :
  match_at r prev s = Some len →
  ∃ w s', s = w ++ s' ∧ len = length w ∧ take len s = w ∧ denotes r prev w s'.
Proof.
  unfold match_at.
  destruct (backtrack r prev s _) as [rest|] eqn:Hb; [|done].
  intros [= <-].
  apply backtrack_sound in Hb as (w & s' & -> & Hd & [= <-]).
  exists w, s'. rewrite length_app.
  replace (length w + length s' - length s')%nat with (length w) by lia.
  by rewrite take_app_length.
Qed.

(** Every text [findall] returns was matched at some position. *)
Lemma scan_matched r t : ∀ s prev skip,
  t ∈ scan r prev s skip →
  ∃ prev' s' len, match_at r prev' s' = Some len ∧ t = take len s'.
Proof.
  induction s as [|c s IH]; intros prev skip; simpl.
  - by intros ?%elem_of_nil.
  - destruct skip as [|n]; [|apply IH].
    destruct (match_at r prev (c :: s)) as [len|] eqn:Hm; [|apply IH].
    intros [->|Hin]%elem_of_cons; [|by eapply IH].
    by exists prev, (c :: s), len.
Qed.

(** ** The tokens of [IP_PATTERN] *)

Lemma times_digit n : ∀ prev w next,
  times (denotes Digit) n prev w next →
  length w = n ∧ Forall (λ c, isdecimal_char c = true) w.
Proof.
  induction n as [|n IH]; intros prev w next; simpl.
  - by intros ->.
  - intros (w1 & w2 & -> & (c & -> & Hc) & Ht).
    apply IH in Ht as [<- Hf]. split; [done|]. by constructor.
Qed.

Lemma digits_run lo hi prev w next :
  denotes (Repeat lo hi Digit) prev w next → digit_run lo hi w.
Proof.
  intros (n & Hn & Ht). apply times_digit in Ht as [<- Hf]. by split.
Qed.

Lemma dotted_app g1 g2 g3 g4 t :
  dotted g1 g2 g3 g4 ++ t =
  g1 ++ chr_dot :: g2 ++ chr_dot :: g3 ++ chr_dot :: g4 ++ t.
Proof.
  unfold dotted. by repeat first [rewrite <- app_assoc | progress simpl].
Qed.

Lemma IP_PATTERN_token prev w next :
  denotes IP_PATTERN prev w next → token w.
Proof.
  intros (w0 & w1 & -> & [-> _] & wa & w2 & -> & Ha & Hrest).
  apply digits_run in Ha.
  destruct Hrest as (wb & w3 & -> & Hb & wc & wd & -> & Hc & [-> _]).
  destruct Hb as (n & Hn & Hb). assert (n = 3%nat) as -> by lia.
  destruct Hb as (x1 & y1 & -> & (? & ? & -> & -> & H1)
                  & x2 & y2 & -> & (? & ? & -> & -> & H2)
                  & x3 & y3 & -> & (? & ? & -> & -> & H3) & ->).
  apply digits_run in H1, H2, H3.
  destruct Hc as (m & Hm & Hc).
  destruct m as [|m]; simpl in Hc.
  - subst wc. rewrite ?app_nil_r.
    repeat first [rewrite <- app_assoc | progress simpl].
    by apply (token_bare wa _ _ _).
  - assert (m = 0%nat) as -> by lia. simpl in Hc.
    destruct Hc as (v1 & v2 & -> & (? & ? & -> & -> & H4) & ->).
    apply digits_run in H4.
    rewrite ?app_nil_r.
    repeat first [rewrite <- app_assoc | progress simpl].
    rewrite <- dotted_app. by apply token_port.
Qed.

Lemma last_char_None pre : last_char None pre = last pre.
Proof. unfold last_char. by destruct (last pre). Qed.

Lemma last_char_cons prev c pre :
  last_char prev (c :: pre) = last_char (Some c) pre.
Proof. exact (eq_sym (last_char_app prev [c] pre)). Qed.

Lemma scan_no_match r : ∀ s prev skip,
  (∀ pre suf, s = pre ++ suf → match_at r (last_char prev pre) suf = None) →
  scan r prev s skip = [].
Proof.
  induction s as [|c s IH]; intros prev skip H; [done|]. simpl.
  assert (∀ n, scan r (Some c) s n = []) as Hrest.
  { intros n. apply IH. intros pre suf ->.
    rewrite <- (last_char_cons prev). by apply H. }
  destruct skip as [|n]; [|done].
  pose proof (H [] (c :: s) eq_refl) as Hm. simpl in Hm.
  change (last_char prev []) with prev in Hm. by rewrite Hm.
Qed.

Lemma int_acc_decimal g : ∀ acc,
  Forall (λ c, isdecimal_char c = true) g → ∃ n, int_acc acc g = Some n.
Proof.
  induction g as [|c g IH]; intros acc Hg; simpl; [by eexists|].
  apply Forall_cons in Hg as [Hc Hg]. unfold isdecimal_char in Hc.
  destruct (decimal_value c); [|done]. by apply IH.
Qed.

Lemma digit_run_numeral lo hi g :
  digit_run (S lo) hi g → ∃ n, numeral g n.
Proof.
  intros [Hlen Hg]. destruct g as [|c g]; [simpl in Hlen; lia|].
  destruct (int_acc_decimal (c :: g) 0 Hg) as [n Hn].
  exists n. split; [|done]. apply isdigit_Forall. split; [done|].
  eapply Forall_impl; [exact Hg|]. intros x Hx. unfold isdigit_char.
  by rewrite Hx.
Qed.

(** A token of the pattern never makes [parse_ip_port] raise. *)
Lemma token_parse_returns t : token t → ∃ o, parse_ip_port t = Ret o.
Proof.
  destruct 1 as [g1 g2 g3 g4 H1 H2 H3 H4 | g1 g2 g3 g4 p H1 H2 H3 H4 H5];
    apply digit_run_numeral in H1 as [n1 H1], H2 as [n2 H2],
      H3 as [n3 H3], H4 as [n4 H4].
  - rewrite (parse_ip_port_bare _ _ _ _ _ _ _ _ H1 H2 H3 H4). by eexists.
  - apply digit_run_numeral in H5 as [n H5].
    rewrite (parse_ip_port_with_port _ _ _ _ _ _ _ _ _ _ H1 H2 H3 H4 H5).
    by eexists.
Qed.

Lemma findall_token text t : t ∈ findall IP_PATTERN text → token t.
Proof.
  intros (prev & s & len & Hm & ->)%scan_matched.
  apply match_at_sound in Hm as (w & s' & -> & -> & -> & Hd).
  by eapply IP_PATTERN_token.
Qed.

Lemma parse_matches_returns ms :
  Forall (λ m, ∃ o, parse_ip_port m = Ret o) ms →
  ∃ results, parse_matches ms = Ret results
    ∧ ∀ c, c ∈ results ↔ ∃ m, m ∈ ms ∧ parse_ip_port m = Ret (Some c).
Proof.
  induction 1 as [|m ms [o Ho] _ (results & Hr & Hmem)]; simpl.
  - exists []. split; [done|]. intros c. split.
    + by intros ?%elem_of_nil.
    + by intros (m & ?%elem_of_nil & _).
  - rewrite Ho, Hr. eexists. split; [done|]. intros c.
    destruct o as [c0|].
    + rewrite elem_of_cons, Hmem. split.
      * intros [->|(m' & Hin & Hp)].
        -- exists m. split; [apply elem_of_cons; by left | done].
        -- exists m'. split; [apply elem_of_cons; by right | done].
      * intros (m' & [->|Hin]%elem_of_cons & Hp).
        -- left. congruence.
        -- right. by exists m'.
    + rewrite Hmem. split.
      * intros (m' & Hin & Hp). exists m'.
        split; [apply elem_of_cons; by right | done].
      * intros (m' & [->|Hin]%elem_of_cons & Hp); [congruence|].
        by exists m'.
Qed.

(** Extraction never raises: it returns the set of the parsed matches,
    listed in iteration order. *)
Lemma extract_ips_from_text_returns text :
  ∃ results,
    parse_matches (findall IP_PATTERN text) = Ret results
    ∧ extract_ips_from_text text = Ret (set_iter candidate (list_to_set results))
    ∧ ∀ c, c ∈ results ↔
        ∃ m, m ∈ findall IP_PATTERN text ∧ parse_ip_port m = Ret (Some c).
Proof.
  destruct (parse_matches_returns (findall IP_PATTERN text))
    as (results & Hr & Hmem).
  { apply Forall_forall. intros m Hm.
    by apply token_parse_returns, (findall_token text). }
  exists results. unfold extract_ips_from_text. by rewrite Hr.
Qed.

Lemma set_iter_NoDup `{Countable A} (s : gset A) : NoDup (set_iter A s).
Proof using Type set_iter_perm. rewrite set_iter_perm. apply NoDup_elements. Qed.

Lemma elem_of_set_iter `{Countable A} (s : gset A) x :
  x ∈ set_iter A s ↔ x ∈ s.
Proof using Type set_iter_perm. by rewrite set_iter_perm, elem_of_elements. Qed.

Lemma set_iter_empty `{Countable A} : set_iter A ∅ = [].
Proof using Type set_iter_perm.
  apply Permutation_nil_r. by rewrite set_iter_perm, elements_empty.
Qed.

Lemma set_iter_singleton `{Countable A} (x : A) : set_iter A {[x]} = [x].
Proof using Type set_iter_perm.
  apply Permutation_singleton_r. by rewrite set_iter_perm, elements_singleton.
Qed.

Lemma token_numerals t :
  token t →
  ∃ g1 g2 g3 g4 n1 n2 n3 n4,
    numeral g1 n1 ∧ numeral g2 n2 ∧ numeral g3 n3 ∧ numeral g4 n4
    ∧ (t = dotted g1 g2 g3 g4
       ∨ ∃ p n, numeral p n ∧ t = dotted g1 g2 g3 g4 ++ chr_colon :: p).
Proof.
  destruct 1 as [g1 g2 g3 g4 H1 H2 H3 H4 | g1 g2 g3 g4 p H1 H2 H3 H4 H5];
    apply digit_run_numeral in H1 as [n1 H1], H2 as [n2 H2],
      H3 as [n3 H3], H4 as [n4 H4];
    exists g1, g2, g3, g4, n1, n2, n3, n4; split_and!; try done.
  - by left.
  - apply digit_run_numeral in H5 as [n H5]. right. by exists p, n.
Qed.

(** C2. A token of four dot-separated all-digit groups parsing to
    [n1..n4], alone or followed by a colon and an all-digit port parsing
    to [n], is accepted with its address text and parsed port exactly when
    every octet is in [0,255] and the port in [1,65535]; when a bound is
    violated the whole token is rejected, never cut down to its address.
    Every text the pattern matches is such a token. *)
Theorem parse_ip_port_numeric g1 g2 g3 g4 n1 n2 n3 n4 :
  numeral g1 n1 → numeral g2 n2 → numeral g3 n3 → numeral g4 n4 →
  parse_ip_port (dotted g1 g2 g3 g4) =
    Ret (if forallb octet_ok [n1; n2; n3; n4]
         then Some (dotted g1 g2 g3 g4, None) else None)
  ∧ (∀ p n, numeral p n →
       parse_ip_port (dotted g1 g2 g3 g4 ++ chr_colon :: p) =
         Ret (if forallb octet_ok [n1; n2; n3; n4] && port_ok n
              then Some (dotted g1 g2 g3 g4, Some n) else None))
  ∧ (∀ text t, t ∈ findall IP_PATTERN text →
       ∃ h1 h2 h3 h4 m1 m2 m3 m4,
         numeral h1 m1 ∧ numeral h2 m2 ∧ numeral h3 m3 ∧ numeral h4 m4
         ∧ (t = dotted h1 h2 h3 h4
            ∨ ∃ p n, numeral p n ∧ t = dotted h1 h2 h3 h4 ++ chr_colon :: p)).
Proof.
  intros H1 H2 H3 H4. split; [|split].
  - by apply parse_ip_port_bare.
  - intros p n Hp. by apply parse_ip_port_with_port.
  - intros text t Ht. by apply token_numerals, (findall_token text).
Qed.

(** The text of a token before its first colon: what [parse_ip_port]
    keeps as the address. *)
Lemma parse_ip_port_address t c :
  parse_ip_port t = Ret (Some c) →
  c.1 = if contains chr_colon t then (split_1 chr_colon t).1 else t.
Proof.
  unfold parse_ip_port. destruct (contains chr_colon t).
  - destruct (split_1 chr_colon t) as [ip_part port_part].
    destruct (is_valid_ip ip_part); [|done].
    destruct (isdigit port_part); [|done]. simpl.
    destruct (int port_part) as [port|]; [|done].
    destruct ((1 <=? port) && (port <=? 65535)); [|done].
    by intros [= <-].
  - destruct (is_valid_ip t); [|done]. by intros [= <-].
Qed.

(** C9, amended. The address of a candidate is the text of its token
    before the first colon, kept as written: two accepted tokens with the
    same port-or-absent are one candidate exactly when those texts are
    equal character for character, and otherwise stay two members of the
    candidate set. *)
Theorem candidate_identity_is_textual t1 t2 c1 c2 :
  parse_ip_port t1 = Ret (Some c1) →
  parse_ip_port t2 = Ret (Some c2) →
  c1.2 = c2.2 →
  let address t := if contains chr_colon t then (split_1 chr_colon t).1 else t in
  (c1 = c2 ↔ address t1 = address t2)
  ∧ size (list_to_set [c1; c2] : gset candidate)
    = if decide (address t1 = address t2) then 1%nat else 2%nat.
Proof.
  intros Hp1 Hp2 Hport address.
  apply parse_ip_port_address in Hp1, Hp2. fold (address t1) in Hp1.
  fold (address t2) in Hp2.
  assert (c1 = c2 ↔ address t1 = address t2) as Hiff.
  { rewrite <- Hp1, <- Hp2. destruct c1, c2; simpl in *. split.
    - by intros [= -> _].
    - intros ->. by rewrite Hport. }
  split; [done|].
  rewrite !list_to_set_cons, list_to_set_nil, (right_id_L ∅ (∪)).
  destruct (decide (address t1 = address t2)) as [He|Hne].
  - apply Hiff in He as ->. by rewrite (idemp_L (∪)), size_singleton.
  - rewrite size_union, !size_singleton; [done|].
    apply disjoint_singleton_l. rewrite elem_of_singleton. by rewrite Hiff.
Qed.

(** A zero in front of the first group changes the text of an address
    and not the octets it denotes. *)
Lemma leading_zero_numeral g n : numeral g n → numeral (48%N :: g) n.
Proof.
  intros [Hd Hi]. split.
  - apply isdigit_Forall. apply isdigit_Forall in Hd as [_ Hd].
    split; [done|]. by constructor.
  - destruct g; [done|]. exact Hi.
Qed.

(** Every accepted bare address has a zero-padded form that is accepted
    too, with the same octets, and is another candidate. *)
Lemma leading_zero_distinct g1 g2 g3 g4 n1 n2 n3 n4 :
  numeral g1 n1 → numeral g2 n2 → numeral g3 n3 → numeral g4 n4 →
  forallb octet_ok [n1; n2; n3; n4] = true →
  parse_ip_port (dotted g1 g2 g3 g4) = Ret (Some (dotted g1 g2 g3 g4, None))
  ∧ parse_ip_port (dotted (48%N :: g1) g2 g3 g4)
    = Ret (Some (dotted (48%N :: g1) g2 g3 g4, None))
  ∧ dotted (48%N :: g1) g2 g3 g4 ≠ dotted g1 g2 g3 g4.
Proof.
  intros H1 H2 H3 H4 Hok. split_and!.
  - by rewrite (parse_ip_port_bare _ _ _ _ _ _ _ _ H1 H2 H3 H4), Hok.
  - by rewrite (parse_ip_port_bare _ _ _ _ _ _ _ _
                  (leading_zero_numeral _ _ H1) H2 H3 H4), Hok.
  - intros Heq. apply (f_equal length) in Heq. unfold dotted in Heq.
    simpl in Heq. lia.
Qed.

(** C10. On the text [1.2.3.4:999999] the pattern gives up the six-digit
    port and matches the bare address, so extraction yields the portless
    candidate, although the parser rejects the token as a whole. *)
Theorem oversized_port_dropped :
  findall IP_PATTERN (py "1.2.3.4:999999") = [py "1.2.3.4"]
  ∧ extract_ips_from_text (py "1.2.3.4:999999") = Ret [(py "1.2.3.4", None)]
  ∧ parse_ip_port (py "1.2.3.4:999999") = Ret None.
Proof using Type set_iter_perm.
  split; [by vm_compute|]. split; [|by vm_compute].
  unfold extract_ips_from_text.
  assert (parse_matches (findall IP_PATTERN (py "1.2.3.4:999999"))
          = Ret [(py "1.2.3.4", None)]) as -> by (by vm_compute).
  rewrite list_to_set_cons, list_to_set_nil, (right_id_L ∅ (∪)).
  by rewrite set_iter_singleton.
Qed.

(** ** Decoding *)

Ltac utf8_cases :=
  repeat match goal with
         | |- context [if ?b then _ else _] => destruct b eqn:?
         | |- context [match ?l with [] => _ | _ :: _ => _ end] =>
             is_var l; destruct l
         end.

Lemma utf8_ignore_returns_upto n : ∀ raw,
  (length raw ≤ n)%nat → ∃ t, utf8_decode ignore raw = Ret t.
Proof.
  induction n as [|n IH]; intros [|x0 r0] Hlen; simpl in Hlen;
    try (by eexists); [lia|].
  cbn [utf8_decode]. utf8_cases;
    repeat match goal with
           | |- context [utf8_decode ignore ?r] =>
               let t := fresh "t" in
               destruct (IH r ltac:(simpl in *; lia)) as [t ->]
           end;
    by eexists.
Qed.

Lemma utf8_ignore_returns raw : ∃ t, utf8_decode ignore raw = Ret t.
Proof. by apply (utf8_ignore_returns_upto (length raw)). Qed.

Lemma utf8_ignore_strict_upto n : ∀ raw t,
  (length raw ≤ n)%nat →
  utf8_decode strict raw = Ret t → utf8_decode ignore raw = Ret t.
Proof.
  induction n as [|n IH]; intros [|x0 r0] t Hlen; simpl in Hlen;
    try done; [lia|].
  cbn [utf8_decode]. utf8_cases; try done;
    match goal with
    | |- emit _ (utf8_decode strict ?r) = _ → _ =>
        let E := fresh "E" in
        destruct (utf8_decode strict r) as [t'|] eqn:E; [|done];
        rewrite (IH r t' ltac:(simpl in *; lia) E); simpl; congruence
    end.
Qed.

Lemma decode_body_ignore raw : utf8_decode ignore raw = Ret (decode_body raw).
Proof.
  unfold decode_body. by destruct (utf8_ignore_returns raw) as [t ->].
Qed.

Lemma decode_body_invalid_lead x rest :
  invalid_lead x = true → decode_body (x :: rest) = decode_body rest.
Proof.
  unfold invalid_lead, in_range. intros Hx.
  assert ((128 ≤ Byte.to_N x ≤ 193)%N ∨ (245 ≤ Byte.to_N x)%N) as Hb.
  { apply orb_prop in Hx as [Hx|Hx]; [left | right; by apply N.leb_le].
    apply andb_prop in Hx as [?%N.leb_le ?%N.leb_le]. lia. }
  assert ((Byte.to_N x <? 128)%N = false) as H0 by (apply N.ltb_ge; lia).
  assert (∀ lo hi, (193 < lo)%N → (hi < 245)%N →
            in_range lo hi (Byte.to_N x) = false) as Hr.
  { intros lo hi Hlo Hhi. unfold in_range.
    apply andb_false_iff. rewrite !N.leb_gt. lia. }
  unfold decode_body. cbn [utf8_decode].
  rewrite H0, !Hr by lia.
  by destruct (utf8_ignore_returns rest) as [t ->].
Qed.

Lemma decode_body_ascii x rest :
  is_ascii_byte x = true →
  decode_body (x :: rest) = Byte.to_N x :: decode_body rest.
Proof.
  unfold is_ascii_byte, decode_body. intros Hx. cbn [utf8_decode].
  rewrite Hx. by destruct (utf8_ignore_returns rest) as [t ->].
Qed.

(** ** The output order *)

Lemma str_compare_eq a : ∀ b, str_compare a b = Eq ↔ a = b.
Proof.
  induction a as [|x a IH]; intros [|y b]; simpl; try done.
  destruct (N.compare_spec x y) as [->|Hlt|Hgt].
  - rewrite IH. split; [by intros -> | by intros [= ->]].
  - split; [done | intros [= -> _]; lia].
  - split; [done | intros [= -> _]; lia].
Qed.

Lemma str_compare_antisym a : ∀ b, str_compare b a = CompOpp (str_compare a b).
Proof.
  induction a as [|x a IH]; intros [|y b]; simpl; try done.
  rewrite (N.compare_antisym x y).
  destruct (x ?= y)%N; simpl; [apply IH | done | done].
Qed.

Lemma str_compare_trans a : ∀ b c,
  str_compare a b = Lt → str_compare b c = Lt → str_compare a c = Lt.
Proof.
  induction a as [|x a IH]; intros [|y b] [|z c]; simpl; try done.
  destruct (N.compare_spec x y) as [->|Hxy|Hxy]; [| |done].
  - destruct (N.compare_spec y z); [apply IH | done | done].
  - intros _. destruct (N.compare_spec y z) as [->|Hyz|Hyz]; [| |done].
    + intros _. by apply N.compare_lt_iff in Hxy as ->.
    + intros _. assert (x < z)%N as Hxz by lia.
      by apply N.compare_lt_iff in Hxz as ->.
Qed.

Global Instance key_le_total : Total key_le.
Proof.
  intros [a m] [b n]. unfold key_le, key_leb. simpl.
  rewrite (str_compare_antisym a b).
  destruct (str_compare a b) eqn:E; simpl; [|by left|by right].
  destruct (Z.leb_spec m n); [by left|].
  right. apply Is_true_true, Z.leb_le. lia.
Qed.

Global Instance key_le_trans : Transitive key_le.
Proof.
  intros [a m] [b n] [c k]. unfold key_le, key_leb. simpl.
  destruct (str_compare a b) eqn:E1; [| |done];
    destruct (str_compare b c) eqn:E2; try done.
  - apply str_compare_eq in E1 as ->. rewrite E2.
    rewrite !Is_true_true, !Z.leb_le. lia.
  - apply str_compare_eq in E1 as ->. by rewrite E2.
  - apply str_compare_eq in E2 as <-. by rewrite E1.
  - by rewrite (str_compare_trans a b c).
Qed.

Global Instance key_le_antisym : AntiSymm (=) key_le.
Proof.
  intros [a m] [b n]. unfold key_le, key_leb. simpl.
  rewrite (str_compare_antisym a b).
  destruct (str_compare a b) eqn:E; simpl; try done.
  apply str_compare_eq in E as ->.
  rewrite !Is_true_true, !Z.leb_le. intros ? ?. f_equal. lia.
Qed.

Lemma sorted_StronglySorted l : StronglySorted key_le (sorted l).
Proof. apply StronglySorted_merge_sort; apply _. Qed.

Lemma sorted_Permutation l : sorted l ≡ₚ l.
Proof. apply merge_sort_Permutation. Qed.

(** The result of [sorted] depends on which items it is given and not on
    the order they come in. *)
Lemma sorted_order_irrelevant l1 l2 : l1 ≡ₚ l2 → sorted l1 = sorted l2.
Proof.
  intros Hp. apply (StronglySorted_unique key_le).
  - apply sorted_StronglySorted.
  - apply sorted_StronglySorted.
  - by rewrite !sorted_Permutation.
Qed.

Lemma alive_ip_set_update_initial items :
  alive_ip_set (alive_ip_set_update items initial_world) = list_to_set items.
Proof. simpl. apply (left_id_L ∅ (∪)). Qed.

(** The endpoints of the records written, in order. *)
Lemma written_order w :
  (get_ip_location_and_write w).*1 = sorted (set_iter _ (alive_ip_set w)).
Proof.
  unfold get_ip_location_and_write.
  rewrite <- list_fmap_compose.
  rewrite <- (list_fmap_id (sorted _)) at 2.
  apply list_fmap_ext. by intros i [] _.
Qed.

(** C5. The records are written in ascending order of address text and,
    for one address, of port; the order is a function of the contents of
    the verified set alone, whatever order its members were inserted or
    are iterated in; the three endpoints of the example come out as
    [(1.1.1.1,80), (1.1.1.1,443), (2.2.2.2,80)] for every insertion
    order. *)
Theorem output_order_deterministic :
  (∀ w,
     StronglySorted key_le (get_ip_location_and_write w).*1
     ∧ (get_ip_location_and_write w).*1 ≡ₚ elements (alive_ip_set w))
  ∧ (∀ l1 l2, l1 ≡ₚ l2 → sorted l1 = sorted l2)
  ∧ (∀ items,
       items ≡ₚ [(py "2.2.2.2", 80); (py "1.1.1.1", 443); (py "1.1.1.1", 80)] →
       (get_ip_location_and_write (alive_ip_set_update items initial_world)).*1
       = [(py "1.1.1.1", 80); (py "1.1.1.1", 443); (py "2.2.2.2", 80)]).
Proof using Type set_iter_perm.
  pose proof written_order as Hout.
  split; [|split].
  - intros w. rewrite Hout. split; [apply sorted_StronglySorted|].
    by rewrite sorted_Permutation, set_iter_perm.
  - apply sorted_order_irrelevant.
  - intros items Hitems. rewrite Hout, alive_ip_set_update_initial.
    rewrite (sorted_order_irrelevant _
      [(py "2.2.2.2", 80); (py "1.1.1.1", 443); (py "1.1.1.1", 80)]).
    + by vm_compute.
    + rewrite set_iter_perm, <- Hitems. apply elements_list_to_set.
      rewrite Hitems. apply (bool_decide_unpack _). by vm_compute.
Qed.

(** ** SourceFetcher *)

Lemma fetch_url_eq url retry w :
  fetch_url url retry w =
  match attempt url w with
  | Ret ips => (ips, log_request url w)
  | Exc =>
      if decide (retry < RETRY_LIMIT cfg)%nat
      then fetch_url url (S retry) (log_request url w)
      else ([], log_request url w)
  end.
Proof.
  rewrite fetch_url_equation_1 at 1.
  destruct (attempt url w); simpl; [done|].
  by destruct (decide (retry < RETRY_LIMIT cfg)%nat).
Qed.

(** The world after [n] more requests for [url]. *)
Lemma requests_iter url w n :
  requests (Nat.iter n (log_request url) w) = requests w ++ replicate n url.
Proof.
  induction n as [|n IH]; simpl.
  - by rewrite app_nil_r.
  - by rewrite IH, <- app_assoc, <- replicate_S_end.
Qed.

Lemma sets_iter url w n :
  ip_set (Nat.iter n (log_request url) w) = ip_set w
  ∧ alive_ip_set (Nat.iter n (log_request url) w) = alive_ip_set w
  ∧ probes (Nat.iter n (log_request url) w) = probes w.
Proof. induction n as [|n IH]; simpl; [done | apply IH]. Qed.

Lemma attempt_failure url w :
  urlopen (requests w) url = None → attempt url w = Exc.
Proof. unfold attempt. by intros ->. Qed.

Lemma attempt_success url w body :
  urlopen (requests w) url = Some body →
  ∃ ips, extract_ips_from_text (decode_body body) = Ret ips
         ∧ attempt url w = Ret ips.
Proof.
  unfold attempt. intros ->.
  destruct (extract_ips_from_text_returns (decode_body body))
    as (results & _ & He & _).
  eauto.
Qed.

(** [k] failed attempts, then either a success within the limit or the
    limit reached. *)
Lemma fetch_url_run url k : ∀ retry w,
  (∀ j, (j < k)%nat → urlopen (requests w ++ replicate j url) url = None) →
  (∀ body,
     (retry + k ≤ RETRY_LIMIT cfg)%nat →
     urlopen (requests w ++ replicate k url) url = Some body →
     ∃ ips, extract_ips_from_text (decode_body body) = Ret ips
            ∧ fetch_url url retry w = (ips, Nat.iter (S k) (log_request url) w))
  ∧ ((retry + k = S (RETRY_LIMIT cfg))%nat → (0 < k)%nat →
     fetch_url url retry w = ([], Nat.iter k (log_request url) w)).
Proof.
  induction k as [|k IH]; intros retry w Hfail.
  - split; [|lia]. intros body _ Hok. simpl in Hok. rewrite app_nil_r in Hok.
    apply attempt_success in Hok as (ips & He & Ha).
    exists ips. split; [done|]. by rewrite fetch_url_eq, Ha.
  - assert (attempt url w = Exc) as Ha.
    { apply attempt_failure. rewrite <- (app_nil_r (requests w)).
      apply (Hfail 0%nat). lia. }
    destruct (IH (S retry) (log_request url w)) as [IHok IHend].
    { intros j Hj. simpl. rewrite <- app_assoc. apply (Hfail (S j)). lia. }
    rewrite fetch_url_eq, Ha.
    split.
    + intros body Hle Hok.
      destruct (decide (retry < RETRY_LIMIT cfg)%nat); [|lia].
      rewrite (Nat.iter_succ_r (S k)).
      apply IHok; [lia|]. simpl. by rewrite <- app_assoc.
    + intros Hsum _.
      destruct (decide (retry < RETRY_LIMIT cfg)%nat) as [Hlt|Hge].
      * rewrite (Nat.iter_succ_r k). apply IHend; lia.
      * assert (k = 0%nat) as -> by lia. done.
Qed.

(** Whatever the network does, [fetch_url] makes between one and
    [RETRY_LIMIT - retry + 1] requests and touches nothing else. *)
Lemma fetch_url_bound url m : ∀ retry w,
  (RETRY_LIMIT cfg - retry = m)%nat →
  ∃ n, (1 ≤ n ≤ S m)%nat
       ∧ (fetch_url url retry w).2 = Nat.iter n (log_request url) w.
Proof.
  induction m as [|m IH]; intros retry w Hm; rewrite fetch_url_eq;
    destruct (attempt url w); simpl.
  - exists 1%nat. split; [lia|done].
  - destruct (decide (retry < RETRY_LIMIT cfg)%nat); [lia|].
    exists 1%nat. split; [lia|done].
  - exists 1%nat. split; [lia|done].
  - destruct (decide (retry < RETRY_LIMIT cfg)%nat).
    + destruct (IH (S retry) (log_request url w)) as (n & Hn & ->); [lia|].
      exists (S n). split; [lia|]. by rewrite Nat.iter_succ_r.
    + exists 1%nat. split; [lia|done].
Qed.

(** What [fetch_url] returns is empty or extracted from a body the
    network gave for that URL. *)
Lemma fetch_url_origin url m : ∀ retry w,
  (RETRY_LIMIT cfg - retry = m)%nat →
  (fetch_url url retry w).1 = []
  ∨ ∃ h body, urlopen h url = Some body
      ∧ extract_ips_from_text (decode_body body) = Ret (fetch_url url retry w).1.
Proof.
  induction m as [|m IH]; intros retry w Hm; rewrite fetch_url_eq;
    unfold attempt; destruct (urlopen (requests w) url) as [body|] eqn:Hu;
    try destruct (extract_ips_from_text (decode_body body)) as [ips|] eqn:He;
    simpl; try (right; by exists (requests w), body);
    destruct (decide (retry < RETRY_LIMIT cfg)%nat); try lia;
    try (by left); apply IH; lia.
Qed.

(** ** DiscoveryCoordinator *)

Lemma submit_all_elem {A B} (task : A → world → B * world) xs : ∀ w x r,
  (x, r) ∈ (submit_all task xs w).1 → x ∈ xs ∧ ∃ w', r = (task x w').1.
Proof.
  induction xs as [|y xs IH]; intros w x r; simpl.
  - by intros ?%elem_of_nil.
  - destruct (task y w) as [ry w1] eqn:Ey.
    destruct (submit_all task xs w1) as [futures w2] eqn:Es. simpl.
    intros [[= -> ->]|Hin]%elem_of_cons.
    + split; [by left|]. exists w. by rewrite Ey.
    + pose proof (IH w1 x r) as IH'. rewrite Es in IH'.
      destruct (IH' Hin) as [Hx Hr]. split; [by right | done].
Qed.

(** Tasks that leave a part of the world alone leave it alone together. *)
Lemma submit_all_keeps {A B C} (task : A → world → B * world)
    (part : world → C) xs :
  (∀ x w, part (task x w).2 = part w) →
  ∀ w, part (submit_all task xs w).2 = part w.
Proof.
  intros Hkeep. induction xs as [|y xs IH]; intros w; simpl; [done|].
  pose proof (Hkeep y w) as Hy. destruct (task y w) as [ry w1].
  pose proof (IH w1) as Hxs. destruct (submit_all task xs w1) as [fs w2].
  simpl in *. congruence.
Qed.

Lemma fetch_url_keeps_sets url retry w :
  ip_set (fetch_url url retry w).2 = ip_set w
  ∧ alive_ip_set (fetch_url url retry w).2 = alive_ip_set w
  ∧ probes (fetch_url url retry w).2 = probes w.
Proof.
  destruct (fetch_url_bound url _ retry w eq_refl) as (n & _ & ->).
  apply sets_iter.
Qed.

Lemma add_all_ip_set ips : ∀ w,
  ip_set (add_all ips w) = ip_set w ∪ list_to_set ips
  ∧ alive_ip_set (add_all ips w) = alive_ip_set w
  ∧ requests (add_all ips w) = requests w
  ∧ probes (add_all ips w) = probes w.
Proof.
  unfold add_all. induction ips as [|c ips IH]; intros w; cbn [foldl].
  - split; [|done]. by rewrite list_to_set_nil, (right_id_L ∅ (∪)).
  - destruct (IH (ip_set_add c w)) as (-> & -> & -> & ->).
    split; [|done]. cbn [ip_set ip_set_add].
    by rewrite list_to_set_cons, (comm_L (∪) {[c]} (ip_set w)), (assoc_L (∪)).
Qed.

Lemma merge_results_ip_set {A} (fs : list (A * list candidate)) : ∀ w c,
  c ∈ ip_set (foldl (λ w future, add_all future.2 w) w fs)
  ↔ c ∈ ip_set w ∨ ∃ f, f ∈ fs ∧ c ∈ f.2.
Proof.
  induction fs as [|f fs IH]; intros w c; simpl.
  - split; [by left|]. intros [?|(f & ?%elem_of_nil & _)]; done.
  - rewrite IH. destruct (add_all_ip_set f.2 w) as (-> & _).
    rewrite elem_of_union, elem_of_list_to_set. split.
    + intros [[?|?]|(g & Hg & Hc)]; [by left | |].
      * right. exists f. split; [by left | done].
      * right. exists g. split; [by right | done].
    + intros [?|(g & [->|Hg]%elem_of_cons & Hc)].
      * by left; left.
      * by left; right.
      * right. by exists g.
Qed.

(** The candidate set after discovery: what was there before and what
    the fetches returned. *)
Lemma fetch_and_extract_ips_ip_set w c :
  c ∈ ip_set (fetch_and_extract_ips w)
  ↔ c ∈ ip_set w
    ∨ ∃ f, f ∈ (submit_all (λ url, fetch_url url 0) (URLS cfg) w).1 ∧ c ∈ f.2.
Proof using Type as_completed_perm.
  unfold fetch_and_extract_ips.
  pose proof (submit_all_keeps (λ url, fetch_url url 0) ip_set (URLS cfg)
                (λ x w, proj1 (fetch_url_keeps_sets x 0 w)) w) as Hkeep.
  destruct (submit_all _ (URLS cfg) w) as [futures w1]. simpl in *.
  rewrite merge_results_ip_set, Hkeep.
  by setoid_rewrite (as_completed_perm _ futures).
Qed.


(** ** PortProbe and ReachabilityCoordinator *)

(** Tasks whose result does not depend on the world. *)
Lemma submit_all_pure {A B} (task : A → world → B * world)
    (f : A → B) (g : A → world → world) xs :
  (∀ x w, task x w = (f x, g x w)) →
  ∀ w, submit_all task xs w
       = ((λ x, (x, f x)) <$> xs, foldl (λ w x, g x w) w xs).
Proof.
  intros Htask. induction xs as [|x xs IH]; intros w; simpl; [done|].
  by rewrite Htask, IH.
Qed.

Lemma log_probes ip ports : ∀ w,
  probes (foldl (λ w p, log_probe ip p w) w ports)
  = probes w ++ (pair ip <$> ports)
  ∧ ip_set (foldl (λ w p, log_probe ip p w) w ports) = ip_set w
  ∧ alive_ip_set (foldl (λ w p, log_probe ip p w) w ports) = alive_ip_set w
  ∧ requests (foldl (λ w p, log_probe ip p w) w ports) = requests w.
Proof.
  induction ports as [|p ports IH]; intros w; cbn [foldl].
  - by rewrite app_nil_r.
  - destruct (IH (log_probe ip p w)) as (-> & -> & -> & ->).
    split; [|done]. cbn [probes log_probe]. by rewrite <- app_assoc.
Qed.

(** The ports [check_ports_for_ip] returns: those whose probe succeeded,
    in completion order. *)
Lemma check_ports_for_ip_eq ip ports w :
  check_ports_for_ip ip ports w
  = ((filter (λ future, future.2 = true)
        (as_completed _ ((λ p, (p, connect ip p)) <$> ports))).*1,
     foldl (λ w p, log_probe ip p w) w ports).
Proof.
  unfold check_ports_for_ip.
  by rewrite (submit_all_pure (check_port_open ip) (connect ip) (log_probe ip)).
Qed.

Lemma open_ports_Permutation ip ports w :
  (check_ports_for_ip ip ports w).1 ≡ₚ filter (λ p, connect ip p = true) ports.
Proof using Type as_completed_perm.
  rewrite check_ports_for_ip_eq. cbn [fst].
  rewrite (as_completed_perm _ _).
  induction ports as [|p ports IH]; [done|].
  rewrite fmap_cons, !filter_cons. cbn [snd].
  destruct (decide (connect ip p = true)); [|done].
  rewrite fmap_cons. cbn [fst]. by rewrite IH.
Qed.

Lemma elem_of_open_ports ip ports w p :
  p ∈ (check_ports_for_ip ip ports w).1 ↔ p ∈ ports ∧ connect ip p = true.
Proof using Type as_completed_perm.
  rewrite open_ports_Permutation, list_elem_of_filter.
  split; intros [? ?]; by split.
Qed.

Lemma check_ports_for_ip_world ip ports w :
  probes (check_ports_for_ip ip ports w).2 = probes w ++ (pair ip <$> ports)
  ∧ ip_set (check_ports_for_ip ip ports w).2 = ip_set w
  ∧ alive_ip_set (check_ports_for_ip ip ports w).2 = alive_ip_set w
  ∧ requests (check_ports_for_ip ip ports w).2 = requests w.
Proof. rewrite check_ports_for_ip_eq. apply log_probes. Qed.

(** The probes of a run of tasks, each of which probes its own ports. *)
Lemma submit_all_probes (items : list (str * list Z)) : ∀ w,
  probes (submit_all (λ item, check_ports_for_ip item.1 item.2) items w).2
  = probes w ++ mjoin ((λ item, pair item.1 <$> item.2) <$> items).
Proof.
  induction items as [|item items IH]; intros w; simpl.
  - by rewrite app_nil_r.
  - destruct (check_ports_for_ip_world item.1 item.2 w) as (Hp & _).
    destruct (check_ports_for_ip item.1 item.2 w) as [r w1]. simpl in Hp.
    pose proof (IH w1) as IH1.
    destruct (submit_all _ items w1) as [fs w2]. simpl in *.
    by rewrite IH1, Hp, <- app_assoc.
Qed.

Lemma alive_items_of_one ip ports open_ports :
  alive_items_of [((ip, ports), open_ports)] = pair ip <$> open_ports.
Proof. unfold alive_items_of. simpl. by rewrite app_nil_r. Qed.

Lemma elem_of_alive_items completed e :
  e ∈ alive_items_of completed
  ↔ ∃ future, future ∈ completed ∧ e.1 = future.1.1 ∧ e.2 ∈ future.2.
Proof.
  unfold alive_items_of. rewrite list_elem_of_join. split.
  - intros (l & He & (future & -> & Hf)%list_elem_of_fmap).
    apply list_elem_of_fmap in He as (p & -> & Hp). by exists future.
  - intros (future & Hf & H1 & H2).
    exists (pair future.1.1 <$> future.2). split.
    + apply list_elem_of_fmap. exists e.2. split; [|done].
      destruct e. simpl in *. by subst.
    + apply list_elem_of_fmap. by exists future.
Qed.

(** The verified set after the reachability phase: what was there before,
    and [(ip, p)] for each candidate with address [ip] and each of its
    ports [p] that is open. *)
Lemma filter_alive_ips_alive w e :
  e ∈ alive_ip_set (filter_alive_ips w)
  ↔ e ∈ alive_ip_set w
    ∨ ∃ c, c ∈ ip_set w ∧ e.1 = c.1 ∧ e.2 ∈ ports_to_check c.2
           ∧ connect e.1 e.2 = true.
Proof using Type as_completed_perm set_iter_perm.
  unfold filter_alive_ips.
  set (items := (λ c : candidate, (c.1, ports_to_check c.2))
                  <$> set_iter _ (ip_set w)).
  pose proof (submit_all_keeps (λ item, check_ports_for_ip item.1 item.2)
                alive_ip_set items
                (λ x w, proj1 (proj2 (proj2 (check_ports_for_ip_world x.1 x.2 w)))) w)
    as Hkeep.
  pose proof (submit_all_elem (λ item, check_ports_for_ip item.1 item.2)
                items w) as Helem.
  assert (∀ item, item ∈ items →
            ∃ w', (item, (check_ports_for_ip item.1 item.2 w').1)
                  ∈ (submit_all (λ item, check_ports_for_ip item.1 item.2)
                       items w).1) as Hall.
  { clear. intros item. generalize w. induction items as [|x xs IH];
      intros w0; simpl; [by intros ?%elem_of_nil|].
    destruct (check_ports_for_ip x.1 x.2 w0) as [r w1] eqn:E.
    pose proof (IH w1) as IH1.
    destruct (submit_all _ xs w1) as [fs w2]. simpl in *.
    intros [->|Hin]%elem_of_cons.
    - exists w0. rewrite E. by left.
    - destruct (IH1 Hin) as [w' Hw']. exists w'. by right. }
  destruct (submit_all _ items w) as [futures w1]. simpl in *.
  rewrite elem_of_union, elem_of_list_to_set, Hkeep, elem_of_alive_items.
  setoid_rewrite (as_completed_perm _ futures).
  split; (intros [?|H]; [by left|right]).
  - destruct H as ([[ip ports] opens] & Hf & H1 & H2). simpl in *.
    apply Helem in Hf as (Hitem & w' & ->).
    apply list_elem_of_fmap in Hitem as (c & [= -> ->] & Hc).
    apply elem_of_set_iter in Hc. apply elem_of_open_ports in H2 as [H2 H3].
    exists c. rewrite H1. by simpl in *.
  - destruct H as (c & Hc & H1 & H2 & H3).
    destruct (Hall (c.1, ports_to_check c.2)) as [w' Hw'].
    { apply list_elem_of_fmap. exists c. by rewrite elem_of_set_iter. }
    eexists. split; [exact Hw'|]. simpl. split; [done|].
    apply elem_of_open_ports. by rewrite <- H1.
Qed.

Lemma filter_alive_ips_probes w :
  probes (filter_alive_ips w)
  = probes w
    ++ mjoin ((λ c : candidate, pair c.1 <$> ports_to_check c.2)
                <$> set_iter _ (ip_set w)).
Proof.
  unfold filter_alive_ips.
  pose proof (submit_all_probes
    ((λ c : candidate, (c.1, ports_to_check c.2)) <$> set_iter _ (ip_set w)) w)
    as Hp.
  destruct (submit_all _ _ w) as [futures w1]. simpl in *.
  rewrite Hp. f_equal. rewrite <- list_fmap_compose. done.
Qed.

(** C3. The ports to probe for a candidate are the one port it carries,
    or [common_ports] ([443] in the source) when it carries none; probing
    a candidate attempts exactly these ports at its address; and the
    probes of the whole reachability phase are exactly those of the
    members of the candidate set, each member taken once. *)
Theorem probes_are_the_candidate_ports :
  (∀ p, ports_to_check (Some p) = [p])
  ∧ ports_to_check None = common_ports cfg
  ∧ common_ports source_config = [443]
  ∧ (∀ ip ports w,
       probes (check_ports_for_ip ip ports w).2
       = probes w ++ (pair ip <$> ports))
  ∧ (∀ w, ∃ new,
       probes (filter_alive_ips w) = probes w ++ new
       ∧ new ≡ₚ mjoin ((λ c : candidate, pair c.1 <$> ports_to_check c.2)
                         <$> elements (ip_set w))).
Proof using Type set_iter_perm.
  split_and!; try done.
  - intros ip ports w. apply check_ports_for_ip_world.
  - intros w. eexists. split; [apply filter_alive_ips_probes|].
    by rewrite set_iter_perm.
Qed.

(** C4. The ports [check_ports_for_ip] reports are the probed ports that
    are open, so with [k] of them open the candidate adds [k] items
    [(ip, port)] to [alive_items], none when no port is open, and [k]
    distinct endpoints when the probed ports are distinct; and the
    verified set after the phase holds what it held before and exactly
    these endpoints. *)
Theorem open_ports_become_endpoints ip ports w :
  let open_ports := (check_ports_for_ip ip ports w).1 in
  let k := length (filter (λ p, connect ip p = true) ports) in
  open_ports ≡ₚ filter (λ p, connect ip p = true) ports
  ∧ alive_items_of [((ip, ports), open_ports)] = pair ip <$> open_ports
  ∧ length (alive_items_of [((ip, ports), open_ports)]) = k
  ∧ (k = 0%nat → alive_items_of [((ip, ports), open_ports)] = [])
  ∧ (NoDup ports →
     size (list_to_set (alive_items_of [((ip, ports), open_ports)])
             : gset endpoint) = k)
  ∧ (∀ w' e,
       e ∈ alive_ip_set (filter_alive_ips w')
       ↔ e ∈ alive_ip_set w'
         ∨ ∃ c, c ∈ ip_set w' ∧ e.1 = c.1 ∧ e.2 ∈ ports_to_check c.2
                ∧ connect e.1 e.2 = true).
Proof using Type as_completed_perm set_iter_perm.
  intros open_ports k.
  pose proof (open_ports_Permutation ip ports w) as Hperm.
  fold open_ports in Hperm.
  assert (length open_ports = k) as Hlen by (by rewrite Hperm).
  rewrite alive_items_of_one, length_fmap.
  split_and!; try done.
  - intros Hk. rewrite Hk in Hlen. by destruct open_ports.
  - intros Hnd. rewrite size_list_to_set, length_fmap; [done|].
    apply NoDup_fmap_2; [by intros ?? [= ->]|].
    rewrite Hperm. by apply NoDup_filter.
  - apply filter_alive_ips_alive.
Qed.

Lemma submit_all_length {A B} (task : A → world → B * world) xs : ∀ w,
  length (submit_all task xs w).1 = length xs.
Proof.
  induction xs as [|x xs IH]; intros w; simpl; [done|].
  destruct (task x w) as [r w1]. pose proof (IH w1) as IH1.
  destruct (submit_all task xs w1) as [fs w2]. simpl in *. by rewrite IH1.
Qed.

Lemma fetch_and_extract_ips_alive w :
  alive_ip_set (fetch_and_extract_ips w) = alive_ip_set w.
Proof.
  unfold fetch_and_extract_ips.
  pose proof (submit_all_keeps (λ url, fetch_url url 0) alive_ip_set (URLS cfg)
                (λ x w, proj1 (proj2 (fetch_url_keeps_sets x 0 w))) w) as Hkeep.
  destruct (submit_all _ (URLS cfg) w) as [futures w1]. simpl in *.
  rewrite <- Hkeep. generalize w1.
  induction (as_completed _ futures) as [|f fs IH]; intros w0; [done|].
  cbn [foldl]. rewrite IH. apply add_all_ip_set.
Qed.

(** C1. When every source answers with the text
    [1.2.3.4 foo 5.6.7.8:9000 1.2.3.4], discovery from the empty state
    gives the candidate set [{(1.2.3.4, None), (5.6.7.8, 9000)}]; with
    default ports [443] and both [1.2.3.4:443] and [5.6.7.8:9000] open,
    the run writes [(1.2.3.4, 443)] and then [(5.6.7.8, 9000)]. *)
Theorem end_to_end :
  URLS cfg ≠ [] →
  common_ports cfg = [443] →
  (∀ h src, src ∈ URLS cfg →
     urlopen h src
     = Some (list_byte_of_string "1.2.3.4 foo 5.6.7.8:9000 1.2.3.4")) →
  connect (py "1.2.3.4") 443 = true →
  connect (py "5.6.7.8") 9000 = true →
  ip_set (fetch_and_extract_ips initial_world)
  = {[ (py "1.2.3.4", None); (py "5.6.7.8", Some 9000) ]}
  ∧ (main initial_world).*1 = [(py "1.2.3.4", 443); (py "5.6.7.8", 9000)].
Proof using Type as_completed_perm set_iter_perm.
  intros Hurls Hports Hnet Hopen1 Hopen2.
  set (c1 := (py "1.2.3.4", None) : candidate).
  set (c2 := (py "5.6.7.8", Some 9000) : candidate).
  (* what one fetch returns *)
  assert (∀ src w', src ∈ URLS cfg →
            ∀ c, c ∈ (fetch_url src 0 w').1 ↔ c = c1 ∨ c = c2) as Hfetch.
  { intros src w' Hsrc c. rewrite fetch_url_eq. unfold attempt.
    rewrite (Hnet _ _ Hsrc). unfold extract_ips_from_text.
    assert (parse_matches (findall IP_PATTERN (decode_body
              (list_byte_of_string "1.2.3.4 foo 5.6.7.8:9000 1.2.3.4")))
            = Ret [c1; c2; c1]) as -> by (by vm_compute).
    cbn [fst]. rewrite elem_of_set_iter, elem_of_list_to_set.
    rewrite !elem_of_cons, elem_of_nil.
    split; [intros [?|[?|[?|[]]]]; auto | intros [?|?]; auto]. }
  (* the candidate set *)
  assert (ip_set (fetch_and_extract_ips initial_world) = {[c1; c2]}) as Hset.
  { apply set_eq. intros c.
    rewrite fetch_and_extract_ips_ip_set, elem_of_union, !elem_of_singleton.
    pose proof (submit_all_elem (λ url, fetch_url url 0) (URLS cfg)
                  initial_world) as Helem.
    pose proof (submit_all_length (λ url, fetch_url url 0) (URLS cfg)
                  initial_world) as Hlen.
    destruct (submit_all _ (URLS cfg) initial_world) as [futures w1].
    simpl in *. split.
    - intros [?%elem_of_empty|([src ips] & Hf & Hc)]; [done|].
      apply Helem in Hf as (Hsrc & w' & ->). by apply (Hfetch src w').
    - intros Hc. right. destruct futures as [|[src ips] fs].
      + destruct (URLS cfg); [done | simpl in Hlen; lia].
      + exists (src, ips). split; [by left|].
        destruct (Helem src ips) as (Hsrc & w' & ->); [by left|].
        by apply (Hfetch src w'). }
  split; [done|].
  (* the verified set *)
  set (e1 := (py "1.2.3.4", 443) : endpoint).
  set (e2 := (py "5.6.7.8", 9000) : endpoint).
  assert (alive_ip_set (filter_alive_ips (fetch_and_extract_ips initial_world))
          = list_to_set [e1; e2]) as Halive.
  { apply set_eq. intros e.
    rewrite filter_alive_ips_alive, fetch_and_extract_ips_alive, Hset.
    rewrite elem_of_list_to_set, !elem_of_cons, elem_of_nil. split.
    - intros [?%elem_of_empty|(c & Hc & H1 & H2 & H3)]; [done|].
      apply elem_of_union in Hc as [Hc|Hc]; apply elem_of_singleton in Hc;
        subst c; simpl in H1, H2; unfold ports_to_check in H2; simpl in H2;
        rewrite ?Hports in H2; apply list_elem_of_singleton in H2;
        destruct e as [ip p]; simpl in *; subst; auto.
    - intros [->|[->|[]]]; right; [exists c1 | exists c2];
        (split; [set_solver|]); simpl; unfold ports_to_check; simpl;
        rewrite ?Hports; split_and!; try done; by apply list_elem_of_singleton. }
  (* the output *)
  unfold main. rewrite written_order.
  rewrite (sorted_order_irrelevant _ [e1; e2]); [by vm_compute|].
  rewrite set_iter_perm, Halive. apply elements_list_to_set.
  apply (bool_decide_unpack _). by vm_compute.
Qed.

(** * Further properties *)

(** ** Splitting and joining *)

Lemma split_nonempty sep s : split sep s ≠ [].
Proof.
  destruct s as [|c s]; simpl; [done|].
  destruct (N.eqb c sep); [done|]. by destruct (split sep s).
Qed.

Lemma join_cons sep x y l :
  join sep (x :: y :: l) = x ++ sep :: join sep (y :: l).
Proof. done. Qed.

Lemma join_split sep s : join sep (split sep s) = s.
Proof.
  induction s as [|c s IH]; [done|]. simpl.
  pose proof (split_nonempty sep s) as Hne.
  destruct (split sep s) as [|x xs]; [done|].
  destruct (N.eqb_spec c sep) as [->|_].
  - by rewrite join_cons, IH.
  - destruct xs as [|y l]; [simpl in *; by rewrite IH|].
    rewrite join_cons. rewrite join_cons in IH. by rewrite <- IH.
Qed.

Lemma split_parts_no_sep sep s : Forall (λ part, sep ∉ part) (split sep s).
Proof.
  induction s as [|c s IH]; simpl.
  - constructor; [by intros ?%elem_of_nil | constructor].
  - destruct (N.eqb_spec c sep) as [->|Hne].
    + constructor; [by intros ?%elem_of_nil | done].
    + pose proof (split_nonempty sep s) as Hs.
      destruct (split sep s) as [|x xs]; [done|].
      apply Forall_cons in IH as [Hx Hxs]. constructor; [|done].
      intros [?|?]%elem_of_cons; [by subst | done].
Qed.

Lemma split_1_join sep s :
  contains sep s = true →
  s = (split_1 sep s).1 ++ sep :: (split_1 sep s).2
  ∧ sep ∉ (split_1 sep s).1.
Proof.
  induction s as [|c s IH]; simpl; [done|].
  rewrite (N.eqb_sym sep c). destruct (N.eqb_spec c sep) as [->|Hne]; simpl.
  - intros _. split; [done | by intros ?%elem_of_nil].
  - intros Hs. destruct (IH Hs) as [Heq Hno].
    destruct (split_1 sep s) as [a b]. simpl in *. split; [by f_equal|].
    intros [?|?]%elem_of_cons; [by subst | done].
Qed.

(** ** The address parser, read backwards *)

Lemma valid_parts_true gs :
  valid_parts gs = Ret true →
  Forall (λ g, ∃ n, numeral g n ∧ octet_ok n = true) gs.
Proof.
  induction gs as [|g gs IH]; simpl; [constructor|].
  destruct (isdigit g) eqn:Hd; [|done]. simpl.
  destruct (int g) as [n|] eqn:Hi; [|done].
  destruct ((n <? 0) || (n >? 255)) eqn:Hb; [done|].
  intros Hrest. constructor; [|by apply IH].
  exists n. split; [done|]. unfold octet_ok.
  apply orb_false_elim in Hb as [H0 H255].
  apply Z.ltb_ge in H0. rewrite Z.gtb_ltb in H255. apply Z.ltb_ge in H255.
  apply andb_true_intro. split; by apply Z.leb_le.
Qed.

Lemma is_valid_ip_inv ip :
  is_valid_ip ip = true →
  ∃ g1 g2 g3 g4 n1 n2 n3 n4,
    ip = dotted g1 g2 g3 g4
    ∧ numeral g1 n1 ∧ numeral g2 n2 ∧ numeral g3 n3 ∧ numeral g4 n4
    ∧ forallb octet_ok [n1; n2; n3; n4] = true.
Proof.
  unfold is_valid_ip. pose proof (join_split chr_dot ip) as Hjoin.
  destruct (split chr_dot ip) as [|g1 [|g2 [|g3 [|g4 [|g5 gs]]]]]; try done.
  simpl length. simpl negb. cbv iota.
  destruct (valid_parts [g1; g2; g3; g4]) as [[|]|] eqn:Hv; try done.
  intros _. apply valid_parts_true in Hv.
  apply Forall_cons in Hv as [(n1 & H1 & O1) Hv].
  apply Forall_cons in Hv as [(n2 & H2 & O2) Hv].
  apply Forall_cons in Hv as [(n3 & H3 & O3) Hv].
  apply Forall_cons in Hv as [(n4 & H4 & O4) _].
  exists g1, g2, g3, g4, n1, n2, n3, n4. split_and!; try done.
  simpl. by rewrite O1, O2, O3, O4.
Qed.

Lemma is_valid_ip_no_colon ip : is_valid_ip ip = true → chr_colon ∉ ip.
Proof.
  intros (g1 & g2 & g3 & g4 & n1 & n2 & n3 & n4 & -> & H1 & H2 & H3 & H4 & _)
    %is_valid_ip_inv.
  by eapply dotted_no_colon.
Qed.

(** X1. [is_valid_ip] accepts exactly the texts made of four all-digit
    groups joined by dots, each group parsing to an integer in [0, 255];
    in particular it refuses the empty text, a text with more or fewer
    than four groups, and an empty group. *)
Theorem is_valid_ip_iff ip :
  is_valid_ip ip = true
  ↔ ∃ g1 g2 g3 g4 n1 n2 n3 n4,
      ip = dotted g1 g2 g3 g4
      ∧ numeral g1 n1 ∧ numeral g2 n2 ∧ numeral g3 n3 ∧ numeral g4 n4
      ∧ forallb octet_ok [n1; n2; n3; n4] = true.
Proof.
  split; [apply is_valid_ip_inv|].
  intros (g1 & g2 & g3 & g4 & n1 & n2 & n3 & n4 & -> & H1 & H2 & H3 & H4 & Hok).
  by rewrite (is_valid_ip_dotted _ _ _ _ _ _ _ _ H1 H2 H3 H4).
Qed.

Lemma parse_ip_port_inv s ip port :
  parse_ip_port s = Ret (Some (ip, port)) →
  is_valid_ip ip = true
  ∧ match port with
    | None => s = ip ∧ chr_colon ∉ s
    | Some p =>
        1 ≤ p ≤ 65535
        ∧ ∃ ptxt, s = ip ++ chr_colon :: ptxt ∧ numeral ptxt p
    end.
Proof.
  unfold parse_ip_port. destruct (contains chr_colon s) eqn:Hc.
  - destruct (split_1_join _ _ Hc) as [Heq Hno].
    destruct (split_1 chr_colon s) as [ip_part port_part]. simpl in *.
    destruct (is_valid_ip ip_part) eqn:Hv; [|done].
    destruct (isdigit port_part) eqn:Hd; [|done]. simpl.
    destruct (int port_part) as [p|] eqn:Hi; [|done].
    destruct ((1 <=? p) && (p <=? 65535)) eqn:Hb; [|done].
    intros [= <- <-]. split; [done|].
    apply andb_prop in Hb as [?%Z.leb_le ?%Z.leb_le]. split; [lia|].
    by exists port_part.
  - destruct (is_valid_ip s) eqn:Hv; [|done]. intros [= <- <-].
    split_and!; try done. intros Hin. apply contains_elem_of in Hin. congruence.
Qed.

(** X2. Whatever [parse_ip_port] accepts is a valid candidate made of the
    token's own text: the address is valid and is the token up to its
    first colon, and a port, when present, is in [1, 65535] and is the
    value of the all-digit text after that colon; a token without a colon
    is returned whole. *)
Theorem parse_ip_port_sound s ip port :
  parse_ip_port s = Ret (Some (ip, port)) →
  valid_candidate (ip, port)
  ∧ match port with
    | None => s = ip ∧ chr_colon ∉ s
    | Some p => ∃ ptxt, s = ip ++ chr_colon :: ptxt ∧ numeral ptxt p
    end.
Proof.
  intros [Hv Hp]%parse_ip_port_inv. unfold valid_candidate. simpl.
  destruct port as [p|].
  - destruct Hp as [Hrange Htxt]. split; [by split | done].
  - destruct Hp as [Heq Hno]. split; [by split | by split].
Qed.

(** X3. A port text that passes [isdigit] and has no decimal value (a
    superscript digit, say) makes [parse_ip_port] raise after a valid
    address, where [is_valid_ip] turns the same failure in an octet into
    a plain [False]. *)
Theorem parse_ip_port_raises ip p g2 g3 g4 :
  is_valid_ip ip = true →
  isdigit p = true → int p = None →
  chr_dot ∉ g2 → chr_dot ∉ g3 → chr_dot ∉ g4 →
  parse_ip_port (ip ++ chr_colon :: p) = Exc
  ∧ is_valid_ip (dotted p g2 g3 g4) = false.
Proof.
  intros Hv Hd Hi H2 H3 H4. split.
  - unfold parse_ip_port.
    assert (contains chr_colon (ip ++ chr_colon :: p) = true) as ->.
    { apply contains_elem_of. rewrite elem_of_app, elem_of_cons. auto. }
    rewrite split_1_app by (by apply is_valid_ip_no_colon).
    by rewrite Hv, Hd, Hi.
  - unfold is_valid_ip. rewrite split_dotted; try done.
    + simpl. by rewrite Hd, Hi.
    + apply isdigit_Forall in Hd as [_ Hd]. rewrite Forall_forall in Hd.
      intros Hin. by apply Hd, isdigit_char_not_sep in Hin as [? ?].
Qed.

(** ** Where the tokens sit in the text *)

Lemma scan_matched_at r t : ∀ s prev skip,
  t ∈ scan r prev s skip →
  ∃ pre suf len,
    s = pre ++ suf ∧ match_at r (last_char prev pre) suf = Some len
    ∧ t = take len suf.
Proof.
  induction s as [|c s IH]; intros prev skip; simpl.
  - by intros ?%elem_of_nil.
  - assert (∀ n, t ∈ scan r (Some c) s n →
              ∃ pre suf len,
                c :: s = pre ++ suf
                ∧ match_at r (last_char prev pre) suf = Some len
                ∧ t = take len suf) as Hrest.
    { intros n (pre & suf & len & -> & Hm & ->)%IH.
      exists (c :: pre), suf, len. by rewrite last_char_cons. }
    destruct skip as [|n]; [|apply Hrest].
    destruct (match_at r prev (c :: s)) as [len|] eqn:Hm; [|apply Hrest].
    intros [->|Hin]%elem_of_cons; [|by eapply Hrest].
    by exists [], (c :: s), len.
Qed.

Lemma isdecimal_isword c : isdecimal_char c = true → isword_char c = true.
Proof.
  intros H. unfold isword_char, isdigit_char. rewrite H.
  unfold isdecimal_char, decimal_value in H.
  destruct (is_ascii c); [|apply orb_true_r].
  by destruct ((48 <=? c)%N && (c <=? 57)%N).
Qed.

Lemma digit_run_ends lo hi g :
  digit_run (S lo) hi g →
  (∃ c rest, g = c :: rest ∧ isdecimal_char c = true)
  ∧ ∃ c, last g = Some c ∧ isdecimal_char c = true.
Proof.
  intros [Hlen Hg]. rewrite Forall_forall in Hg. split.
  - destruct g as [|c rest]; [simpl in Hlen; lia|].
    exists c, rest. split; [done|]. apply Hg. by left.
  - destruct (last g) as [c|] eqn:Hl.
    + exists c. split; [done|]. by apply Hg, last_Some_elem_of.
    + apply last_None in Hl as ->. simpl in Hlen. lia.
Qed.

Lemma last_in_app {A} (l1 l2 : list A) x :
  last l2 = Some x → last (l1 ++ l2) = Some x.
Proof. intros H. apply last_app_Some. by left. Qed.

Lemma last_in_cons {A} (y : A) l x : last l = Some x → last (y :: l) = Some x.
Proof. apply (last_in_app [y]). Qed.

Lemma dotted_length_eq g1 g2 g3 g4 :
  length (dotted g1 g2 g3 g4)
  = (length g1 + length g2 + length g3 + length g4 + 3)%nat.
Proof.
  unfold dotted. repeat first [rewrite length_app | rewrite length_cons]. lia.
Qed.

Lemma token_ends t :
  token t →
  (∃ c rest, t = c :: rest ∧ isdecimal_char c = true)
  ∧ (∃ c, last t = Some c ∧ isdecimal_char c = true)
  ∧ (7 ≤ length t ≤ 21)%nat.
Proof.
  destruct 1 as [g1 g2 g3 g4 H1 H2 H3 H4 | g1 g2 g3 g4 p H1 H2 H3 H4 H5].
  - destruct (digit_run_ends _ _ _ H1) as [(c & rest & -> & Hc) _].
    destruct (digit_run_ends _ _ _ H4) as [_ (c4 & Hl4 & Hc4)].
    destruct H1 as [L1 _], H2 as [L2 _], H3 as [L3 _], H4 as [L4 _].
    split; [|split].
    + by exists c, (rest ++ chr_dot :: g2 ++ chr_dot :: g3 ++ chr_dot :: g4).
    + exists c4. split; [|done]. unfold dotted.
      repeat first [apply last_in_app | apply last_in_cons]. exact Hl4.
    + rewrite dotted_length_eq. lia.
  - destruct (digit_run_ends _ _ _ H1) as [(c & rest & -> & Hc) _].
    destruct (digit_run_ends _ _ _ H5) as [_ (c5 & Hl5 & Hc5)].
    destruct H1 as [L1 _], H2 as [L2 _], H3 as [L3 _], H4 as [L4 _],
      H5 as [L5 _].
    split; [|split].
    + by exists c, ((rest ++ chr_dot :: g2 ++ chr_dot :: g3 ++ chr_dot :: g4)
                    ++ chr_colon :: p).
    + exists c5. split; [|done].
      by apply last_in_app, last_in_cons.
    + rewrite length_app, length_cons, dotted_length_eq. lia.
Qed.

Lemma IP_PATTERN_boundaries prev w next :
  denotes IP_PATTERN prev w next →
  at_boundary prev (w ++ next) = true
  ∧ at_boundary (last_char prev w) next = true.
Proof.
  intros (w0 & w1 & -> & [-> Hb1] & wa & w2 & -> & Ha
          & wb & w3 & -> & Hb & wc & wd & -> & Hc & [-> Hb2]).
  change (last_char prev []) with prev in *.
  rewrite !last_char_app in Hb2. clear Ha Hb Hc.
  rewrite app_nil_r in *. simpl.
  split; [done|]. by rewrite <- ?app_assoc in Hb2.
Qed.

(** A match of the pattern in a text, with what is around it. *)
Lemma findall_position text t :
  t ∈ findall IP_PATTERN text →
  ∃ pre suf,
    text = pre ++ t ++ suf ∧ token t
    ∧ at_boundary (last pre) (t ++ suf) = true
    ∧ at_boundary (last_char (last pre) t) suf = true.
Proof.
  intros (pre & s & len & -> & Hm & ->)%scan_matched_at.
  apply match_at_sound in Hm as (w & suf & -> & -> & -> & Hd).
  rewrite last_char_None in Hd.
  exists pre, suf. split; [done|]. split; [by eapply IP_PATTERN_token|].
  by apply IP_PATTERN_boundaries.
Qed.

(** X4. Every text [findall] returns for the pattern is a piece of the
    input of 7 to 21 characters that starts and ends at a word boundary:
    the character before it, if any, and the character after it, if any,
    are not word characters, so an address glued to letters, digits or an
    underscore is never returned. *)
Theorem findall_delimited text t :
  t ∈ findall IP_PATTERN text →
  ∃ pre suf,
    text = pre ++ t ++ suf
    ∧ word_at (last pre) = false ∧ word_at (head suf) = false
    ∧ (7 ≤ length t ≤ 21)%nat.
Proof.
  intros (pre & suf & -> & Htok & Hb1 & Hb2)%findall_position.
  destruct (token_ends t Htok) as ((c & rest & -> & Hc) & (c' & Hl & Hc') & Hlen).
  exists pre, suf. split; [done|].
  unfold at_boundary, last_char in *. rewrite Hl in Hb2. simpl in Hb1, Hb2.
  rewrite (isdecimal_isword c Hc) in Hb1.
  rewrite (isdecimal_isword c' Hc') in Hb2.
  split_and!; [by destruct (word_at (last pre))
              | by destruct (word_at (head suf)) | lia | lia].
Qed.

Lemma token_candidate t c :
  token t → parse_ip_port t = Ret (Some c) →
  ∃ g1 g2 g3 g4,
    digit_run 1 3 g1 ∧ digit_run 1 3 g2 ∧ digit_run 1 3 g3 ∧ digit_run 1 3 g4
    ∧ c.1 = dotted g1 g2 g3 g4
    ∧ ∃ rest, t = c.1 ++ rest.
Proof.
  destruct 1 as [g1 g2 g3 g4 H1 H2 H3 H4 | g1 g2 g3 g4 p H1 H2 H3 H4 H5];
    destruct (digit_run_numeral _ _ _ H1) as [n1 N1];
    destruct (digit_run_numeral _ _ _ H2) as [n2 N2];
    destruct (digit_run_numeral _ _ _ H3) as [n3 N3];
    destruct (digit_run_numeral _ _ _ H4) as [n4 N4].
  - rewrite (parse_ip_port_bare _ _ _ _ _ _ _ _ N1 N2 N3 N4).
    destruct (forallb octet_ok [n1; n2; n3; n4]); [|done].
    intros [= <-]. exists g1, g2, g3, g4. split_and!; try done.
    exists []. by rewrite app_nil_r.
  - destruct (digit_run_numeral _ _ _ H5) as [n N5].
    rewrite (parse_ip_port_with_port _ _ _ _ _ _ _ _ _ _ N1 N2 N3 N4 N5).
    destruct (forallb octet_ok [n1; n2; n3; n4] && port_ok n); [|done].
    intros [= <-]. exists g1, g2, g3, g4. split_and!; try done.
    by exists (chr_colon :: p).
Qed.

Lemma dotted_length g1 g2 g3 g4 :
  digit_run 1 3 g1 → digit_run 1 3 g2 → digit_run 1 3 g3 → digit_run 1 3 g4 →
  (7 ≤ length (dotted g1 g2 g3 g4) ≤ 15)%nat.
Proof.
  intros [L1 _] [L2 _] [L3 _] [L4 _]. rewrite dotted_length_eq. lia.
Qed.

(** X5. Every candidate [extract_ips_from_text] returns satisfies the
    candidate invariant (valid address, port in [1, 65535] when present),
    its address has 7 to 15 characters, and that address stands in the
    text right after a non-word character or at its start. *)
Theorem extract_ips_from_text_valid text cands c :
  extract_ips_from_text text = Ret cands →
  c ∈ cands →
  valid_candidate c
  ∧ (7 ≤ length c.1 ≤ 15)%nat
  ∧ ∃ pre suf, text = pre ++ c.1 ++ suf ∧ word_at (last pre) = false.
Proof using Type set_iter_perm.
  intros He Hc.
  destruct (extract_ips_from_text_returns text) as (results & _ & He' & Hmem).
  rewrite He' in He. injection He as <-.
  apply elem_of_set_iter, elem_of_list_to_set, Hmem in Hc as (t & Ht & Hp).
  destruct (findall_position text t Ht) as (pre & suf & -> & Htok & Hb1 & _).
  destruct (token_candidate t c Htok Hp)
    as (g1 & g2 & g3 & g4 & H1 & H2 & H3 & H4 & Hc1 & rest & ->).
  destruct c as [ip port]. simpl in *.
  apply parse_ip_port_inv in Hp as [Hv Hport].
  split; [|split].
  - split; [done|]. simpl. by destruct port as [p|]; [destruct Hport as [? _]|].
  - rewrite Hc1. by apply dotted_length.
  - exists pre, (rest ++ suf). split; [by rewrite <- !app_assoc|].
    destruct (token_ends _ Htok) as ((c & tl & Heq & Hdec) & _).
    unfold at_boundary in Hb1. rewrite Heq in Hb1. simpl in Hb1.
    rewrite (isdecimal_isword c Hdec) in Hb1.
    by destruct (word_at (last pre)).
Qed.

(** ** What discovery does to the world *)

Lemma extract_candidates_valid text cands c :
  extract_ips_from_text text = Ret cands → c ∈ cands → valid_candidate c.
Proof using Type set_iter_perm.
  intros He Hc.
  destruct (extract_ips_from_text_returns text) as (results & _ & He' & Hmem).
  rewrite He' in He. injection He as <-.
  apply elem_of_set_iter, elem_of_list_to_set, Hmem in Hc as (t & _ & Hp).
  destruct c as [ip port]. apply parse_ip_port_inv in Hp as [Hv Hport].
  split; [done|]. simpl. by destruct port as [p|]; [destruct Hport as [? _]|].
Qed.

(** ** Completeness of the matcher and of the scan *)

Section IterateComplete.
Variable body : option N → str → (option N → str → option str) → option str.
Variable D : option N → str → str → Prop.
Hypothesis body_complete : ∀ prev w next k,
  D prev w next → k (last_char prev w) next ≠ None →
  body prev (w ++ next) k ≠ None.

Lemma iterate_complete n : ∀ lo hi prev w next k,
  (lo ≤ n ≤ hi)%nat → times D n prev w next →
  k (last_char prev w) next ≠ None →
  iterate body lo hi prev (w ++ next) k ≠ None.
Proof using Type body_complete.
  induction n as [|n IH]; intros lo hi prev w next k Hn Ht Hk.
  - simpl in Ht. subst w. assert (lo = 0%nat) as -> by lia.
    change (last_char prev []) with prev in Hk.
    destruct hi as [|hi]; simpl; [done|]. by destruct (body prev next _).
  - destruct hi as [|hi]; [lia|].
    destruct Ht as (w1 & w2 & -> & HD & Ht).
    rewrite <- last_char_app in Hk. rewrite <- app_assoc. simpl.
    destruct (body prev (w1 ++ w2 ++ next) _) eqn:Hb; [done|].
    exfalso. revert Hb. apply body_complete; [done|].
    apply IH; [lia|done|done].
Qed.
End IterateComplete.

(** Whatever the pattern denotes at a position, the matcher finds a
    match there. *)
Lemma backtrack_complete r : ∀ prev w next k,
  denotes r prev w next → k (last_char prev w) next ≠ None →
  backtrack r prev (w ++ next) k ≠ None.
Proof.
  induction r as [| a | | r1 IH1 r2 IH2 | lo hi r1 IH1];
    intros prev w next k Hd Hk; simpl in Hd; simpl.
  - destruct Hd as (c & -> & Hc). simpl. by rewrite Hc.
  - subst w. simpl. by rewrite N.eqb_refl.
  - destruct Hd as [-> Hb]. simpl. by rewrite Hb.
  - destruct Hd as (w1 & w2 & -> & H1 & H2).
    rewrite <- last_char_app in Hk. rewrite <- app_assoc.
    apply IH1; [done|]. by apply IH2.
  - destruct Hd as (n & Hn & Ht).
    by apply (iterate_complete _ (denotes r1) IH1 n).
Qed.

Lemma match_at_complete r prev w next :
  denotes r prev w next → ∃ len, match_at r prev (w ++ next) = Some len.
Proof.
  intros Hd. unfold match_at.
  destruct (backtrack r prev (w ++ next) _) as [rest|] eqn:Hb; [by eexists|].
  exfalso. revert Hb. by apply backtrack_complete.
Qed.

Lemma scan_finds r w suf : ∀ pre prev skip,
  (skip ≤ length pre)%nat → w ≠ [] →
  denotes r (last_char prev pre) w suf →
  scan r prev (pre ++ w ++ suf) skip ≠ [].
Proof.
  induction pre as [|c pre IH]; intros prev skip Hskip Hw Hd.
  - simpl in Hskip. assert (skip = 0%nat) as -> by lia.
    destruct (match_at_complete _ _ _ _ Hd) as [len Hm].
    destruct w as [|c w]; [done|]. simpl in *.
    change (last_char prev []) with prev in Hm. by rewrite Hm.
  - rewrite last_char_cons in Hd. simpl.
    destruct skip as [|n]; [|apply IH; [simpl in Hskip; lia|done|done]].
    destruct (match_at r prev _); [done|]. apply IH; [lia|done|done].
Qed.

Lemma token_nonempty t : token t → t ≠ [].
Proof.
  intros Ht ->. destruct (token_ends [] Ht) as (_ & _ & Hlen).
  simpl in Hlen. lia.
Qed.

(** [findall] finds nothing exactly when the pattern matches no piece of
    the text. *)
Lemma findall_empty_iff text :
  findall IP_PATTERN text = []
  ↔ ∀ pre w suf, text = pre ++ w ++ suf →
                 ¬ denotes IP_PATTERN (last pre) w suf.
Proof.
  split.
  - intros Hf pre w suf -> Hd. revert Hf. apply scan_finds; [lia| |].
    + apply token_nonempty. by eapply IP_PATTERN_token.
    + by rewrite last_char_None.
  - intros Hno. apply scan_no_match. intros pre suf ->.
    destruct (match_at IP_PATTERN _ suf) as [len|] eqn:Hm; [|done].
    apply match_at_sound in Hm as (w & s' & -> & _ & _ & Hd).
    rewrite last_char_None in Hd. by destruct (Hno pre w s' eq_refl).
Qed.

(** ** The greedy match of a token that stands on its own *)

Lemma backtrack_Cat r1 r2 prev s k :
  backtrack (Cat r1 r2) prev s k
  = backtrack r1 prev s (λ p' s', backtrack r2 p' s' k).
Proof. reflexivity. Qed.

Lemma backtrack_Repeat lo hi r prev s k :
  backtrack (Repeat lo hi r) prev s k = iterate (backtrack r) lo hi prev s k.
Proof. reflexivity. Qed.

Lemma backtrack_WordBoundary prev s k :
  backtrack WordBoundary prev s k
  = if at_boundary prev s then k prev s else None.
Proof. reflexivity. Qed.

Lemma iterate_more body lo hi prev s k r :
  body prev s (λ p' s', iterate body (pred lo) hi p' s' k) = Some r →
  iterate body lo (S hi) prev s k = Some r.
Proof. simpl. by intros ->. Qed.

Lemma iterate_none body hi prev s k :
  body prev s (λ p' s', iterate body 0 hi p' s' k) = None →
  iterate body 0 (S hi) prev s k = k prev s.
Proof. simpl. by intros ->. Qed.

(** A run of digits followed by something else is taken whole, when the
    rest of the pattern accepts what follows. *)
Lemma iterate_digits g : ∀ lo hi prev rest k r,
  Forall (λ c, isdecimal_char c = true) g → (lo ≤ length g ≤ hi)%nat →
  decimal_at (head rest) = false →
  k (last_char prev g) rest = Some r →
  iterate (backtrack Digit) lo hi prev (g ++ rest) k = Some r.
Proof.
  induction g as [|c g IH]; intros lo hi prev rest k r Hg Hlen Hrest Hk.
  - simpl in Hlen. assert (lo = 0%nat) as -> by lia.
    change (last_char prev []) with prev in Hk. cbn [app].
    destruct hi as [|hi]; [done|]. rewrite iterate_none; [done|].
    destruct rest as [|c rest]; [done|]. simpl in *. by rewrite Hrest.
  - apply Forall_cons in Hg as [Hc Hg]. simpl in Hlen.
    destruct hi as [|hi]; [lia|]. apply iterate_more.
    cbn [app backtrack]. rewrite Hc.
    apply IH; [done|lia|done|]. by rewrite <- (last_char_cons prev).
Qed.

Lemma backtrack_digits lo hi g prev rest k r :
  digit_run lo hi g → decimal_at (head rest) = false →
  k (last_char prev g) rest = Some r →
  backtrack (Repeat lo hi Digit) prev (g ++ rest) k = Some r.
Proof.
  intros [Hlen Hg] Hrest Hk. rewrite backtrack_Repeat.
  by apply iterate_digits.
Qed.

Lemma backtrack_group a lo hi g prev rest k r :
  digit_run lo hi g → decimal_at (head rest) = false →
  k (last_char (Some a) g) rest = Some r →
  backtrack (Cat (Chr a) (Repeat lo hi Digit)) prev (a :: g ++ rest) k = Some r.
Proof.
  intros Hg Hrest Hk. rewrite backtrack_Cat. cbn [backtrack].
  rewrite N.eqb_refl. by apply (backtrack_digits lo hi).
Qed.

Lemma digit_run_last lo hi g prev :
  digit_run (S lo) hi g →
  ∃ c, last_char prev g = Some c ∧ isdecimal_char c = true.
Proof.
  intros Hg. destruct (digit_run_ends _ _ _ Hg) as (_ & c & Hl & Hc).
  exists c. unfold last_char. by rewrite Hl.
Qed.

Lemma word_at_decimal_at o : word_at o = false → decimal_at o = false.
Proof.
  destruct o as [c|]; [|done]. simpl. intros Hw.
  destruct (isdecimal_char c) eqn:Hc; [|done].
  apply isdecimal_isword in Hc. congruence.
Qed.

Lemma boundary_after_digits lo hi g prev suf :
  digit_run (S lo) hi g → word_at (head suf) = false →
  at_boundary (last_char prev g) suf = true.
Proof.
  intros Hg Hw. destruct (digit_run_last _ _ _ prev Hg) as (c & -> & Hc).
  unfold at_boundary. rewrite Hw. simpl.
  by rewrite (isdecimal_isword c Hc).
Qed.

Lemma boundary_before_digits lo hi g prev rest :
  digit_run (S lo) hi g → word_at prev = false →
  at_boundary prev (g ++ rest) = true.
Proof.
  intros Hg Hw. destruct (digit_run_ends _ _ _ Hg) as ((c & g' & -> & Hc) & _).
  unfold at_boundary. rewrite Hw. simpl.
  by rewrite (isdecimal_isword c Hc).
Qed.

(** At the start of a token that stands on its own, the matcher takes
    exactly the token. *)
Lemma backtrack_token prev t suf :
  token t → word_at prev = false → clear_after (head suf) →
  backtrack IP_PATTERN prev (t ++ suf) (λ _ rest, Some rest) = Some suf.
Proof.
  intros Ht Hprev [Hw Hcolon].
  pose proof (word_at_decimal_at _ Hw) as Hd.
  destruct Ht as [g1 g2 g3 g4 H1 H2 H3 H4 | g1 g2 g3 g4 p H1 H2 H3 H4 H5].
  - rewrite dotted_app. unfold IP_PATTERN.
    rewrite backtrack_Cat, backtrack_WordBoundary.
    rewrite (boundary_before_digits _ _ _ _ _ H1 Hprev).
    rewrite backtrack_Cat. apply backtrack_digits; [done|done|].
    rewrite backtrack_Cat, backtrack_Repeat.
    apply iterate_more, backtrack_group; [done|done|].
    apply iterate_more, backtrack_group; [done|done|].
    apply iterate_more, backtrack_group; [done|done|].
    cbn [iterate pred]. rewrite backtrack_Cat, backtrack_Repeat.
    rewrite iterate_none.
    + rewrite backtrack_WordBoundary.
      by rewrite (boundary_after_digits _ _ _ _ _ H4 Hw).
    + rewrite backtrack_Cat. cbn [backtrack].
      destruct suf as [|c suf]; [done|].
      destruct (N.eqb_spec c chr_colon) as [->|]; [|done].
      by destruct Hcolon.
  - rewrite <- app_assoc, dotted_app. cbn [app]. unfold IP_PATTERN.
    rewrite backtrack_Cat, backtrack_WordBoundary.
    rewrite (boundary_before_digits _ _ _ _ _ H1 Hprev).
    rewrite backtrack_Cat. apply backtrack_digits; [done|done|].
    rewrite backtrack_Cat, backtrack_Repeat.
    apply iterate_more, backtrack_group; [done|done|].
    apply iterate_more, backtrack_group; [done|done|].
    apply iterate_more, backtrack_group; [done|done|].
    cbn [iterate pred]. rewrite backtrack_Cat, backtrack_Repeat.
    apply iterate_more, backtrack_group; [done|done|].
    cbn [iterate pred]. rewrite backtrack_WordBoundary.
    by rewrite (boundary_after_digits _ _ _ _ _ H5 Hw).
Qed.

Lemma match_at_token prev t suf :
  token t → word_at prev = false → clear_after (head suf) →
  match_at IP_PATTERN prev (t ++ suf) = Some (length t).
Proof.
  intros Ht Hprev Hsuf. unfold match_at.
  rewrite (backtrack_token prev t suf Ht Hprev Hsuf), length_app.
  f_equal. lia.
Qed.

Lemma scan_skip r : ∀ w prev s,
  scan r prev (w ++ s) (length w) = scan r (last_char prev w) s 0.
Proof.
  induction w as [|c w IH]; intros prev s; [done|].
  cbn [app length scan]. by rewrite IH, last_char_cons.
Qed.

Lemma scan_token prev t suf :
  token t → word_at prev = false → clear_after (head suf) →
  scan IP_PATTERN prev (t ++ suf) 0
  = t :: scan IP_PATTERN (last_char prev t) suf 0.
Proof.
  intros Ht Hprev Hsuf.
  pose proof (match_at_token prev t suf Ht Hprev Hsuf) as Hm.
  destruct t as [|c t]; [by destruct (token_nonempty [] Ht)|].
  cbn [app] in *. cbn [scan]. rewrite Hm. cbn [length pred].
  rewrite scan_skip, last_char_cons. f_equal.
  rewrite firstn_cons. f_equal. apply take_app_length.
Qed.

Lemma scan_nondigit prev c s :
  isdecimal_char c = false →
  scan IP_PATTERN prev (c :: s) 0 = scan IP_PATTERN (Some c) s 0.
Proof.
  intros Hc. cbn [scan].
  assert (match_at IP_PATTERN prev (c :: s) = None) as ->; [|done].
  unfold match_at, IP_PATTERN. rewrite backtrack_Cat, backtrack_WordBoundary.
  destruct (at_boundary prev (c :: s)); [|done].
  rewrite backtrack_Cat, backtrack_Repeat. cbn [iterate].
  cbn [backtrack]. by rewrite Hc.
Qed.

Lemma token_chars t :
  token t →
  Forall (λ c, isdecimal_char c = true ∨ c = chr_dot ∨ c = chr_colon) t.
Proof.
  assert (∀ lo hi g, digit_run lo hi g →
            Forall (λ c, isdecimal_char c = true ∨ c = chr_dot ∨ c = chr_colon) g)
    as Hrun.
  { intros lo hi g [_ Hg]. eapply Forall_impl; [exact Hg|]. by left. }
  destruct 1 as [g1 g2 g3 g4 H1 H2 H3 H4 | g1 g2 g3 g4 p H1 H2 H3 H4 H5];
    unfold dotted;
    repeat first [ apply Forall_app; split
                 | apply Forall_cons; split; [by right; left|]
                 | by eapply Hrun ].
  apply Forall_cons. split; [by right; right|]. by eapply Hrun.
Qed.

Lemma clear_before_word o : clear_before o → word_at o = false.
Proof. destruct o as [c|]; [by intros (? & _)|done]. Qed.

(** A token that stands on its own in the text is found, whatever
    precedes it. *)
Lemma scan_reaches t suf :
  token t → clear_after (head suf) →
  ∀ pre prev skip,
    (skip ≤ length pre)%nat → clear_before (last_char prev pre) →
    t ∈ scan IP_PATTERN prev (pre ++ t ++ suf) skip.
Proof.
  intros Ht Hsuf. induction pre as [|c pre IH]; intros prev skip Hskip Hpre.
  - simpl in Hskip. assert (skip = 0%nat) as -> by lia. cbn [app].
    rewrite scan_token; [by left|done| |done]. by apply clear_before_word.
  - rewrite last_char_cons in Hpre. cbn [app scan]. simpl in Hskip.
    destruct skip as [|n]; [|apply IH; [lia|done]].
    destruct (match_at IP_PATTERN prev (c :: pre ++ t ++ suf)) as [len|] eqn:Hm;
      [|apply IH; [lia|done]].
    right. apply IH; [|done].
    destruct (decide (len ≤ S (length pre))%nat) as [|Hlong]; [lia|].
    exfalso.
    apply match_at_sound in Hm as (w & s' & Hs & -> & Htake & Hd).
    apply IP_PATTERN_token, token_chars in Hd.
    change (c :: pre ++ t ++ suf) with ((c :: pre) ++ t ++ suf) in Htake.
    rewrite take_app, take_ge in Htake by (simpl; lia).
    destruct (last (c :: pre)) as [x|] eqn:Hx; [|by apply last_None in Hx].
    assert (last_char (Some c) pre = Some x) as Hlast.
    { rewrite <- (last_char_cons None), last_char_None. exact Hx. }
    rewrite Hlast in Hpre. destruct Hpre as (Hword & Hdot & Hcol).
    apply last_Some_elem_of in Hx.
    rewrite <- Htake in Hd. apply Forall_app in Hd as [Hd _].
    rewrite Forall_forall in Hd. destruct (Hd x Hx) as [Hdec|[?|?]]; [|done|done].
    apply isdecimal_isword in Hdec. congruence.
Qed.

(** The same token written several times, one separator between two
    occurrences, is found each time. *)
Lemma scan_repeated t sep :
  token t → isword_char sep = false → sep ≠ chr_colon →
  ∀ n prev, word_at prev = false →
    scan IP_PATTERN prev (t ++ mjoin (replicate n (sep :: t))) 0
    = replicate (S n) t.
Proof.
  intros Ht Hsep Hcol. induction n as [|n IH]; intros prev Hprev.
  - rewrite scan_token; [|done|done|]; [by destruct t|].
    simpl. split; [done|]. discriminate.
  - cbn [replicate]. change (mjoin (?x :: ?l)) with (x ++ mjoin l).
    cbn [app]. rewrite scan_token; [|done|done|].
    + rewrite scan_nondigit, (IH (Some sep)); [done|done|].
      apply (word_at_decimal_at (Some sep)). exact Hsep.
    + split; [exact Hsep|]. intros [= ->]. by apply Hcol.
Qed.

Lemma parse_matches_replicate t c n :
  parse_ip_port t = Ret (Some c) →
  parse_matches (replicate n t) = Ret (replicate n c).
Proof.
  intros Hp. induction n as [|n IH]; [done|]. simpl. by rewrite Hp, IH.
Qed.

Lemma list_to_set_replicate (c : candidate) n :
  list_to_set (C := gset candidate) (replicate (S n) c) = {[c]}.
Proof.
  induction n as [|n IH].
  - simpl. by rewrite (right_id_L ∅ (∪)).
  - change (replicate (S (S n)) c) with (c :: replicate (S n) c).
    rewrite list_to_set_cons, IH. by rewrite (idemp_L (∪)).
Qed.

(** C8. Extraction returns each distinct [(address, port-or-absent)] once,
    however often its token occurs in the text: the result has no
    duplicates and holds exactly the candidates parsed from the matches.
    The matches are complete with respect to the text: nothing is found
    exactly when no piece of the text matches the pattern; a token that
    stands on its own in the text is found and, if the parser accepts it,
    its candidate is in the result; and a text made of one accepted token
    written several times, with one separator between two occurrences,
    gives that one candidate. *)
Theorem extract_ips_from_text_dedup text :
  ∃ cands,
    extract_ips_from_text text = Ret cands
    ∧ NoDup cands
    ∧ (∀ c, c ∈ cands ↔
         ∃ m, m ∈ findall IP_PATTERN text ∧ parse_ip_port m = Ret (Some c))
    ∧ ((∀ pre suf, text = pre ++ suf →
          match_at IP_PATTERN (last pre) suf = None) →
       cands = [])
    ∧ ((∀ pre w suf, text = pre ++ w ++ suf →
          ¬ denotes IP_PATTERN (last pre) w suf) →
       findall IP_PATTERN text = [] ∧ cands = [])
    ∧ (findall IP_PATTERN text = [] →
       ∀ pre w suf, text = pre ++ w ++ suf →
                    ¬ denotes IP_PATTERN (last pre) w suf)
    ∧ (∀ pre t suf,
         text = pre ++ t ++ suf → token t →
         clear_before (last pre) → clear_after (head suf) →
         t ∈ findall IP_PATTERN text
         ∧ ∀ c, parse_ip_port t = Ret (Some c) → c ∈ cands)
    ∧ (∀ t sep n c,
         text = t ++ mjoin (replicate n (sep :: t)) → token t →
         isword_char sep = false → sep ≠ chr_colon →
         parse_ip_port t = Ret (Some c) →
         findall IP_PATTERN text = replicate (S n) t ∧ cands = [c]).
Proof using Type set_iter_perm.
  destruct (extract_ips_from_text_returns text) as (results & Hr & He & Hmem).
  assert (findall IP_PATTERN text = [] →
          set_iter candidate (list_to_set results) = []) as Hempty.
  { intros Hf. rewrite Hf in Hr. injection Hr as <-. apply set_iter_empty. }
  eexists. split; [exact He|]. split; [apply set_iter_NoDup|].
  split; [|split; [|split; [|split; [|split]]]].
  - intros c. by rewrite elem_of_set_iter, elem_of_list_to_set, Hmem.
  - intros Hno. apply Hempty, scan_no_match. intros pre suf ->.
    rewrite last_char_None. by apply Hno.
  - intros Hno. apply findall_empty_iff in Hno. split; [done|]. by apply Hempty.
  - apply findall_empty_iff.
  - intros pre t suf -> Ht Hpre Hsuf.
    assert (t ∈ findall IP_PATTERN (pre ++ t ++ suf)) as Hin.
    { apply scan_reaches; [done|done|lia|]. by rewrite last_char_None. }
    split; [done|]. intros c Hc.
    rewrite elem_of_set_iter, elem_of_list_to_set, Hmem. by exists t.
  - intros t sep n c -> Ht Hsep Hcol Hc.
    assert (findall IP_PATTERN (t ++ mjoin (replicate n (sep :: t)))
            = replicate (S n) t) as Hf by (by apply scan_repeated).
    split; [done|].
    rewrite Hf, (parse_matches_replicate t c _ Hc) in Hr. injection Hr as <-.
    change (c :: replicate n c) with (replicate (S n) c).
    by rewrite list_to_set_replicate, set_iter_singleton.
Qed.

Lemma merge_results_frame {A} (fs : list (A * list candidate)) : ∀ w,
  alive_ip_set (foldl (λ w future, add_all future.2 w) w fs) = alive_ip_set w
  ∧ requests (foldl (λ w future, add_all future.2 w) w fs) = requests w
  ∧ probes (foldl (λ w future, add_all future.2 w) w fs) = probes w.
Proof.
  induction fs as [|f fs IH]; intros w; cbn [foldl]; [done|].
  destruct (IH (add_all f.2 w)) as (-> & -> & ->).
  by destruct (add_all_ip_set f.2 w) as (_ & -> & -> & ->).
Qed.

Lemma submit_all_fetch_requests urls : ∀ w,
  ∃ new,
    requests (submit_all (λ url, fetch_url url 0) urls w).2 = requests w ++ new
    ∧ Forall (λ u, u ∈ urls) new
    ∧ (length urls ≤ length new ≤ length urls * S (RETRY_LIMIT cfg))%nat.
Proof.
  induction urls as [|url urls IH]; intros w; simpl.
  - exists []. by rewrite app_nil_r.
  - destruct (fetch_url_bound url _ 0 w eq_refl) as (n & Hn & Hw).
    destruct (fetch_url url 0 w) as [ips w1]. simpl in Hw. subst w1.
    destruct (IH (Nat.iter n (log_request url) w)) as (new & Hreq & Hin & Hlen).
    destruct (submit_all _ urls _) as [fs w2]. simpl in *.
    exists (replicate n url ++ new).
    rewrite Hreq, requests_iter, <- app_assoc. split; [done|]. split.
    + apply Forall_app. split.
      * apply Forall_forall. intros u ->%elem_of_replicate_inv. by left.
      * eapply Forall_impl; [exact Hin|]. intros u Hu. by right.
    + rewrite length_app, length_replicate. nia.
Qed.

Lemma fetch_and_extract_ips_probes w :
  probes (fetch_and_extract_ips w) = probes w.
Proof.
  unfold fetch_and_extract_ips.
  pose proof (submit_all_keeps (λ url, fetch_url url 0) probes (URLS cfg)
                (λ x w, proj2 (proj2 (fetch_url_keeps_sets x 0 w))) w)
    as Hkeep.
  destruct (submit_all _ (URLS cfg) w) as [futures w1]. simpl in *.
  rewrite <- Hkeep. apply merge_results_frame.
Qed.

Lemma count_replicate (u v : str) n :
  length (filter (λ x, x = u) (replicate n v)) = if decide (v = u) then n else 0%nat.
Proof.
  induction n as [|n IH]; simpl.
  - by destruct (decide (v = u)).
  - rewrite filter_cons. destruct (decide (v = u)); simpl; by rewrite IH.
Qed.

Lemma count_absent (u : str) urls :
  u ∉ urls → length (filter (λ x, x = u) urls) = 0%nat.
Proof.
  induction urls as [|v urls IH]; intros Hu; [done|].
  apply not_elem_of_cons in Hu as [Hne Hu].
  rewrite filter_cons. destruct (decide (v = u)); [done|]. by apply IH.
Qed.

Lemma count_NoDup (u : str) urls :
  NoDup urls → u ∈ urls → length (filter (λ x, x = u) urls) = 1%nat.
Proof.
  induction 1 as [|v urls Hv Hnd IH]; intros Hu.
  - by apply elem_of_nil in Hu.
  - rewrite filter_cons. destruct (decide (v = u)) as [->|Hne]; simpl.
    + f_equal. by apply count_absent.
    + apply IH. apply elem_of_cons in Hu as [->|Hu]; done.
Qed.

(** Submitting [fetch_url] for each source: source number [i] is
    requested [n_i] times in a row, with [1 ≤ n_i ≤ RETRY_LIMIT + 1]. *)
Lemma submit_all_fetch_schedule urls : ∀ w,
  ∃ ns,
    length ns = length urls
    ∧ Forall (λ n, 1 ≤ n ≤ S (RETRY_LIMIT cfg))%nat ns
    ∧ requests (submit_all (λ url, fetch_url url 0) urls w).2
      = requests w ++ mjoin (zip_with replicate ns urls).
Proof.
  induction urls as [|url urls IH]; intros w; simpl.
  - exists []. by rewrite app_nil_r.
  - destruct (fetch_url_bound url _ 0 w eq_refl) as (n & Hn & Hw).
    destruct (fetch_url url 0 w) as [ips w1]. simpl in Hw. subst w1.
    destruct (IH (Nat.iter n (log_request url) w)) as (ns & Hlen & Hns & Hreq).
    destruct (submit_all _ urls _) as [fs w2]. simpl in *.
    exists (n :: ns). split; [by rewrite <- Hlen|]. split.
    + constructor; [lia | done].
    + rewrite Hreq, requests_iter, <- app_assoc. done.
Qed.

Lemma schedule_count (u : str) m : ∀ ns urls,
  length ns = length urls →
  Forall (λ n, 1 ≤ n ≤ S m)%nat ns →
  (length (filter (λ x, x = u) urls)
   ≤ length (filter (λ x, x = u) (mjoin (zip_with replicate ns urls)))
   ≤ length (filter (λ x, x = u) urls) * S m)%nat.
Proof.
  induction ns as [|n ns IH]; intros [|url urls] Hlen Hns; simpl in Hlen;
    try discriminate; [simpl; lia|].
  apply Forall_cons in Hns as [Hn Hns].
  specialize (IH urls ltac:(lia) Hns).
  cbn [zip_with]. change (mjoin (?x :: ?l)) with (x ++ mjoin l).
  rewrite filter_app, length_app, count_replicate, filter_cons.
  destruct (decide (url = u)); simpl; nia.
Qed.

(** X6. Discovery only adds to the candidate set and only talks to the
    configured sources: nothing leaves [ip_set], the verified set and the
    probe log are untouched, every request made is for one of [URLS], and
    each source is requested at least once and at most [RETRY_LIMIT + 1]
    times (once per time it is listed in [URLS], if it is listed more
    than once). *)
Theorem discovery_frame w :
  ip_set w ⊆ ip_set (fetch_and_extract_ips w)
  ∧ alive_ip_set (fetch_and_extract_ips w) = alive_ip_set w
  ∧ probes (fetch_and_extract_ips w) = probes w
  ∧ ∃ new,
      requests (fetch_and_extract_ips w) = requests w ++ new
      ∧ Forall (λ u, u ∈ URLS cfg) new
      ∧ (length (URLS cfg) ≤ length new
         ≤ length (URLS cfg) * S (RETRY_LIMIT cfg))%nat
      ∧ (∀ u, (length (filter (λ v, v = u) (URLS cfg))
               ≤ length (filter (λ v, v = u) new)
               ≤ length (filter (λ v, v = u) (URLS cfg))
                 * S (RETRY_LIMIT cfg))%nat)
      ∧ (NoDup (URLS cfg) →
         ∀ u, u ∈ URLS cfg →
              (1 ≤ length (filter (λ v, v = u) new)
               ≤ S (RETRY_LIMIT cfg))%nat).
Proof using Type as_completed_perm.
  split; [|split; [|split]].
  - intros c Hc. apply fetch_and_extract_ips_ip_set. by left.
  - apply fetch_and_extract_ips_alive.
  - apply fetch_and_extract_ips_probes.
  - unfold fetch_and_extract_ips.
    destruct (submit_all_fetch_requests (URLS cfg) w)
      as (new & Hreq & Hin & Htotal).
    destruct (submit_all_fetch_schedule (URLS cfg) w)
      as (ns & Hlen & Hns & Hsched).
    destruct (submit_all _ (URLS cfg) w) as [futures w1]. simpl in *.
    assert (new = mjoin (zip_with replicate ns (URLS cfg))) as Hnew.
    { rewrite Hreq in Hsched. by apply app_inv_head in Hsched. }
    pose proof (λ u, schedule_count u (RETRY_LIMIT cfg) ns (URLS cfg) Hlen Hns)
      as Hcount.
    rewrite <- Hnew in Hcount.
    exists new. split; [|split; [done|split; [done|split; [done|]]]].
    + rewrite <- Hreq. apply merge_results_frame.
    + intros Hnd u Hu. specialize (Hcount u).
      rewrite (count_NoDup u _ Hnd Hu) in Hcount. lia.
Qed.

Lemma submit_all_fetch_all_fail urls :
  (∀ h src, src ∈ urls → urlopen h src = None) →
  ∀ w, submit_all (λ url, fetch_url url 0) urls w
       = ((λ u, (u, [])) <$> urls,
          foldl (λ w u, Nat.iter (S (RETRY_LIMIT cfg)) (log_request u) w)
            w urls).
Proof.
  induction urls as [|url urls IH]; intros Hfail w; simpl; [done|].
  destruct (fetch_url_run url (S (RETRY_LIMIT cfg)) 0 w) as [_ Hend].
  { intros j _. apply Hfail. by left. }
  rewrite Hend by lia. rewrite IH; [done|].
  intros h src Hsrc. apply Hfail. by right.
Qed.

Lemma requests_all_fail urls : ∀ w,
  requests (foldl (λ w u, Nat.iter (S (RETRY_LIMIT cfg)) (log_request u) w)
              w urls)
  = requests w ++ mjoin (replicate (S (RETRY_LIMIT cfg)) <$> urls).
Proof.
  induction urls as [|url urls IH]; intros w; cbn [foldl].
  - by rewrite app_nil_r.
  - rewrite IH, requests_iter, fmap_cons, <- app_assoc. done.
Qed.

Lemma fetch_and_extract_ips_all_fail w :
  (∀ h src, src ∈ URLS cfg → urlopen h src = None) →
  ip_set (fetch_and_extract_ips w) = ip_set w
  ∧ requests (fetch_and_extract_ips w)
    = requests w ++ mjoin (replicate (S (RETRY_LIMIT cfg)) <$> URLS cfg).
Proof using Type as_completed_perm.
  intros Hfail. split.
  - apply set_eq. intros c. rewrite fetch_and_extract_ips_ip_set.
    rewrite (submit_all_fetch_all_fail _ Hfail). simpl. split; [|by left].
    intros [?|(f & (u & -> & _)%list_elem_of_fmap & Hc)]; [done|].
    by apply elem_of_nil in Hc.
  - unfold fetch_and_extract_ips.
    rewrite (submit_all_fetch_all_fail _ Hfail).
    destruct (merge_results_frame
                (as_completed _ ((λ u, (u, [])) <$> URLS cfg))
                (foldl (λ w u, Nat.iter (S (RETRY_LIMIT cfg)) (log_request u) w)
                   w (URLS cfg))) as (_ & -> & _).
    apply requests_all_fail.
Qed.

(** X7. When no request to any source ever succeeds, discovery still
    returns: the candidate set is what it was, and each source has been
    requested exactly [RETRY_LIMIT + 1] times, one source after the
    other. *)
Theorem discovery_all_sources_fail w :
  (∀ h src, src ∈ URLS cfg → urlopen h src = None) →
  ip_set (fetch_and_extract_ips w) = ip_set w
  ∧ requests (fetch_and_extract_ips w)
    = requests w ++ mjoin (replicate (S (RETRY_LIMIT cfg)) <$> URLS cfg)
  ∧ length (requests (fetch_and_extract_ips w))
    = (length (requests w) + length (URLS cfg) * S (RETRY_LIMIT cfg))%nat.
Proof using Type as_completed_perm.
  intros Hfail.
  destruct (fetch_and_extract_ips_all_fail w Hfail) as [Hset Hreq].
  split; [done|]. split; [done|].
  rewrite Hreq, length_app. f_equal. clear.
  induction (URLS cfg) as [|u us IH]; [done|].
  rewrite fmap_cons.
  change (mjoin (?x :: ?l)) with (x ++ mjoin l).
  rewrite length_app, IH, length_replicate. simpl. lia.
Qed.

Lemma fetch_and_extract_ips_valid w :
  (∀ c, c ∈ ip_set w → valid_candidate c) →
  ∀ c, c ∈ ip_set (fetch_and_extract_ips w) → valid_candidate c.
Proof using Type as_completed_perm set_iter_perm.
  intros Hw c [Hc|([src ips] & Hf & Hc)]%fetch_and_extract_ips_ip_set;
    [by apply Hw|].
  apply submit_all_elem in Hf as (Hsrc & w' & ->). simpl in Hc.
  destruct (fetch_url_origin src _ 0 w' eq_refl) as [He|(h & body & Hu & He)].
  - rewrite He in Hc. by apply elem_of_nil in Hc.
  - by eapply extract_candidates_valid.
Qed.

(** X8. Discovery keeps the candidate invariant: if every member of
    [ip_set] has a valid address and, when it has a port, a port in
    [1, 65535], the same holds after [fetch_and_extract_ips], whatever the
    sources answer; from the empty set it holds outright. *)
Theorem discovery_keeps_candidates_valid w :
  (∀ c, c ∈ ip_set w → valid_candidate c) →
  (∀ c, c ∈ ip_set (fetch_and_extract_ips w) → valid_candidate c)
  ∧ (∀ c, c ∈ ip_set (fetch_and_extract_ips initial_world) →
       valid_candidate c).
Proof using Type as_completed_perm set_iter_perm.
  intros Hw. split; [by apply fetch_and_extract_ips_valid|].
  apply fetch_and_extract_ips_valid. by intros c ?%elem_of_empty.
Qed.

(** ** What the reachability phase does to the world *)

Lemma filter_alive_ips_frame w :
  ip_set (filter_alive_ips w) = ip_set w
  ∧ requests (filter_alive_ips w) = requests w.
Proof.
  unfold filter_alive_ips.
  set (items := (λ c : candidate, (c.1, ports_to_check c.2))
                  <$> set_iter _ (ip_set w)).
  pose proof (submit_all_keeps (λ item, check_ports_for_ip item.1 item.2)
                ip_set items
                (λ x w, proj1 (proj2 (check_ports_for_ip_world x.1 x.2 w))) w)
    as Hset.
  pose proof (submit_all_keeps (λ item, check_ports_for_ip item.1 item.2)
                requests items
                (λ x w, proj2 (proj2 (proj2 (check_ports_for_ip_world x.1 x.2 w))))
                w) as Hreq.
  destruct (submit_all _ items w) as [futures w1]. by simpl in *.
Qed.

Lemma filter_alive_ips_empty w :
  ip_set w = ∅ →
  alive_ip_set (filter_alive_ips w) = alive_ip_set w
  ∧ probes (filter_alive_ips w) = probes w.
Proof using Type as_completed_perm set_iter_perm.
  intros Hempty. split.
  - apply set_eq. intros e. rewrite filter_alive_ips_alive, Hempty.
    split; [|by left]. by intros [?|(c & ?%elem_of_empty & _)].
  - rewrite filter_alive_ips_probes, Hempty, set_iter_empty. simpl.
    by rewrite app_nil_r.
Qed.

(** X9. The reachability phase leaves the candidate set and the request
    log alone and never removes a verified endpoint; on an empty
    candidate set it probes nothing and verifies nothing. *)
Theorem reachability_frame w :
  ip_set (filter_alive_ips w) = ip_set w
  ∧ requests (filter_alive_ips w) = requests w
  ∧ alive_ip_set w ⊆ alive_ip_set (filter_alive_ips w)
  ∧ (ip_set w = ∅ →
     alive_ip_set (filter_alive_ips w) = alive_ip_set w
     ∧ probes (filter_alive_ips w) = probes w).
Proof using Type as_completed_perm set_iter_perm.
  destruct (filter_alive_ips_frame w) as [Hset Hreq].
  split; [done|]. split; [done|]. split.
  - intros e He. apply filter_alive_ips_alive. by left.
  - apply filter_alive_ips_empty.
Qed.

(** X10. With the same answers from the TCP stack, running the
    reachability phase a second time verifies nothing new: the verified
    set after two runs is the set after one. *)
Theorem reachability_idempotent w :
  alive_ip_set (filter_alive_ips (filter_alive_ips w))
  = alive_ip_set (filter_alive_ips w).
Proof using Type as_completed_perm set_iter_perm.
  apply set_eq. intros e.
  rewrite (filter_alive_ips_alive (filter_alive_ips w)).
  destruct (filter_alive_ips_frame w) as [-> _].
  split; [|by left].
  intros [He|Hnew]; [done|]. apply filter_alive_ips_alive. by right.
Qed.

Lemma filter_alive_ips_valid w e :
  (∀ c, c ∈ ip_set w → valid_candidate c) →
  Forall (λ p, 1 ≤ p ≤ 65535) (common_ports cfg) →
  e ∈ alive_ip_set (filter_alive_ips w) →
  e ∈ alive_ip_set w ∨ (valid_endpoint e ∧ connect e.1 e.2 = true).
Proof using Type as_completed_perm set_iter_perm.
  intros Hcands Hports [He|(c & Hc & H1 & H2 & H3)]%filter_alive_ips_alive;
    [by left|right].
  destruct (Hcands c Hc) as [Hv Hp]. split; [|done]. split; [by rewrite H1|].
  destruct c as [ip [p|]]; simpl in *.
  - by apply list_elem_of_singleton in H2 as ->.
  - rewrite Forall_forall in Hports. by apply Hports.
Qed.

(** X11. The reachability phase keeps the endpoint invariant: when the
    candidates are valid and every default port is in [1, 65535], every
    endpoint it adds has a valid address, a port in [1, 65535], and
    answered the probe; so a verified set that was valid stays valid. *)
Theorem reachability_keeps_endpoints_valid w :
  (∀ c, c ∈ ip_set w → valid_candidate c) →
  Forall (λ p, 1 ≤ p ≤ 65535) (common_ports cfg) →
  (∀ e, e ∈ alive_ip_set (filter_alive_ips w) →
        e ∈ alive_ip_set w ∨ (valid_endpoint e ∧ connect e.1 e.2 = true))
  ∧ ((∀ e, e ∈ alive_ip_set w → valid_endpoint e) →
     ∀ e, e ∈ alive_ip_set (filter_alive_ips w) → valid_endpoint e).
Proof using Type as_completed_perm set_iter_perm.
  intros Hcands Hports. split.
  - intros e. by apply filter_alive_ips_valid.
  - intros Hw e He.
    destruct (filter_alive_ips_valid w e Hcands Hports He) as [?|[? _]];
      [by apply Hw | done].
Qed.

(** ** The records and the lines written *)

(** X12. [get_ip_location_and_write] writes one record for each member
    of the verified set and nothing else: the records are pairwise
    different, there are as many as the set has members, and a record
    [(ip, port, country)] is written exactly when [(ip, port)] is in the
    set and [country] is what the lookup gives for [ip]. *)
Theorem written_records w :
  NoDup (get_ip_location_and_write w)
  ∧ length (get_ip_location_and_write w) = size (alive_ip_set w)
  ∧ ∀ ip port country,
      (ip, port, country) ∈ get_ip_location_and_write w
      ↔ (ip, port) ∈ alive_ip_set w ∧ country = country_of ip.
Proof using Type set_iter_perm.
  unfold get_ip_location_and_write. split; [|split].
  - apply NoDup_fmap_2; [by intros [??] [??] [= -> ->]|].
    rewrite sorted_Permutation. apply set_iter_NoDup.
  - by rewrite length_fmap, sorted_Permutation, set_iter_perm.
  - intros ip port country. rewrite list_elem_of_fmap. split.
    + intros ([ip' port'] & [= -> -> ->] & He).
      rewrite sorted_Permutation, elem_of_set_iter in He. by split.
    + intros [He ->]. exists (ip, port). split; [done|].
      by rewrite sorted_Permutation, elem_of_set_iter.
Qed.

Lemma size_nat_bound n : (n < 2 ^ N.of_nat (N.size_nat n))%N.
Proof.
  destruct n as [|p]; [done|]. simpl.
  induction p as [p IH|p IH|]; simpl Pos.size_nat;
    rewrite ?Nat2N.inj_succ, ?N.pow_succ_r'; lia.
Qed.

Lemma ascii_digit_value c :
  (48 ≤ c ≤ 57)%N → decimal_value c = Some (Z.of_N c - 48).
Proof.
  intros Hc. unfold decimal_value, is_ascii.
  destruct (N.ltb_spec c 128); [|lia].
  destruct (N.leb_spec 48 c); [|lia]. by destruct (N.leb_spec c 57); [|lia].
Qed.

Lemma int_acc_snoc xs c d : ∀ acc,
  decimal_value c = Some d →
  int_acc acc (xs ++ [c]) = (λ v, 10 * v + d) <$> int_acc acc xs.
Proof.
  induction xs as [|x xs IH]; intros acc Hc; simpl.
  - by rewrite Hc.
  - destruct (decimal_value x); [by apply IH | done].
Qed.

Lemma digits_upto_value fuel : ∀ n,
  (n < 2 ^ N.of_nat fuel)%N →
  digits_upto (S fuel) n ≠ []
  ∧ Forall (λ c, (48 ≤ c ≤ 57)%N) (digits_upto (S fuel) n)
  ∧ int_acc 0 (digits_upto (S fuel) n) = Some (Z.of_N n).
Proof.
  induction fuel as [|fuel IH]; intros n Hn.
  - assert (n = 0%N) as -> by (simpl in Hn; lia).
    split; [done|]. split; [apply Forall_singleton; lia|]. done.
  - rewrite Nat2N.inj_succ, N.pow_succ_r' in Hn.
    change (digits_upto (S (S fuel)) n)
      with (if (n <? 10)%N then [(48 + n)%N]
            else digits_upto (S fuel) (n / 10) ++ [(48 + n mod 10)%N]).
    destruct (N.ltb_spec n 10) as [Hlt|Hge].
    + split; [done|]. split; [apply Forall_singleton; lia|].
      simpl. rewrite (ascii_digit_value (48 + n)) by lia. f_equal. lia.
    + destruct (IH (n / 10)%N) as (Hne & Hall & Hval).
      { apply N.Div0.div_lt_upper_bound; lia. }
      assert (∃ m, (n mod 10 = m ∧ m < 10 ∧ n = 10 * (n / 10) + m)%N)
        as (m & -> & Hm & Hdm).
      { exists (n mod 10)%N. split; [done|].
        split; [apply N.mod_lt; lia | apply N.div_mod; lia]. }
      revert Hne Hall Hval Hdm. generalize (n / 10)%N. intros q Hne Hall Hval Hdm.
      split; [|split].
      * by destruct (digits_upto (S fuel) q).
      * apply Forall_app. split; [done|]. apply Forall_singleton; lia.
      * assert (48 ≤ 48 + m ≤ 57)%N as Hd by lia.
        rewrite (int_acc_snoc _ _ _ _ (ascii_digit_value _ Hd)).
        rewrite Hval. simpl. f_equal. lia.
Qed.

(** [int(str(n))] is [n], and [str(n)] is all digits, for [n] not
    negative. *)
Lemma str_of_int_numeral n : 0 ≤ n →
  numeral (str_of_int n) n
  ∧ Forall (λ c, (48 ≤ c ≤ 57)%N) (str_of_int n).
Proof.
  intros Hn.
  assert (∀ s, s ≠ [] → Forall (λ c, (48 ≤ c ≤ 57)%N) s →
               int_acc 0 s = Some n → numeral s n) as Hnum.
  { intros s Hs Hall Hval. split.
    - apply isdigit_Forall. split; [done|].
      eapply Forall_impl; [exact Hall|]. intros c Hc. unfold isdigit_char,
        isdecimal_char. by rewrite (ascii_digit_value c Hc).
    - by destruct s. }
  destruct n as [|p|p]; [| |lia].
  - split; [|apply Forall_singleton; lia].
    apply Hnum; [done | apply Forall_singleton; lia | done].
  - destruct (digits_upto_value _ _ (size_nat_bound (N.pos p)))
      as (Hne & Hall & Hval).
    split; [|done]. by apply Hnum.
Qed.

Lemma isdigit_char_not_hash c : isdigit_char c = true → c ≠ chr_hash.
Proof. intros H ->. vm_compute in H. discriminate. Qed.

Lemma is_valid_ip_no_hash ip : is_valid_ip ip = true → chr_hash ∉ ip.
Proof.
  intros (g1 & g2 & g3 & g4 & n1 & n2 & n3 & n4 & -> & H1 & H2 & H3 & H4 & _)
    %is_valid_ip_inv.
  assert (∀ g n, numeral g n → chr_hash ∉ g) as Hg.
  { intros g n [Hd _] Hin. apply isdigit_Forall in Hd as [_ Hd].
    rewrite Forall_forall in Hd. by apply Hd, isdigit_char_not_hash in Hin. }
  apply Hg in H1, H2, H3, H4. unfold dotted. intros Hin.
  repeat (apply elem_of_app in Hin as [Hin|Hin]; [done|];
          apply elem_of_cons in Hin as [Hin|Hin]; [done|]).
  done.
Qed.

Lemma endpoint_text_parses ip port :
  valid_endpoint (ip, port) →
  parse_ip_port (ip ++ chr_colon :: str_of_int port) = Ret (Some (ip, Some port))
  ∧ chr_hash ∉ ip ++ chr_colon :: str_of_int port.
Proof.
  intros [Hv Hport]. simpl in *.
  destruct (str_of_int_numeral port ltac:(lia)) as [Hnum Hall].
  split.
  - destruct (is_valid_ip_inv ip Hv)
      as (g1 & g2 & g3 & g4 & n1 & n2 & n3 & n4 & -> & H1 & H2 & H3 & H4 & Hok).
    rewrite (parse_ip_port_with_port _ _ _ _ _ _ _ _ _ _ H1 H2 H3 H4 Hnum), Hok.
    unfold port_ok.
    destruct (Z.leb_spec 1 port); [|lia].
    by destruct (Z.leb_spec port 65535); [|lia].
  - intros [Hin|Hin]%elem_of_app; [by apply is_valid_ip_no_hash in Hin|].
    apply elem_of_cons in Hin as [?|Hin]; [done|].
    rewrite Forall_forall in Hall. apply Hall in Hin. unfold chr_hash in Hin.
    lia.
Qed.

Lemma format_line_split ip port country :
  format_line (ip, port, country)
  = (ip ++ chr_colon :: str_of_int port)
      ++ chr_hash :: country ++ 45%N :: str_of_int port ++ [10%N].
Proof. unfold format_line. by rewrite <- app_assoc. Qed.

(** X13. The file can be read back by the parser: for an endpoint with a
    valid address and a port in [1, 65535], the text of its line before
    the [#] is [ip:port] and [parse_ip_port] gives the endpoint back; so
    when the verified set is valid, every line written parses back to a
    member of the set. *)
Theorem written_line_parses_back w :
  (∀ e, e ∈ alive_ip_set w → valid_endpoint e) →
  (∀ ip port country,
     (ip, port) ∈ alive_ip_set w →
     (split_1 chr_hash (format_line (ip, port, country))).1
     = ip ++ chr_colon :: str_of_int port
     ∧ parse_ip_port (ip ++ chr_colon :: str_of_int port)
       = Ret (Some (ip, Some port)))
  ∧ (∀ line, line ∈ written_lines w →
       ∃ ip port,
         (ip, port) ∈ alive_ip_set w
         ∧ parse_ip_port (split_1 chr_hash line).1 = Ret (Some (ip, Some port))).
Proof using Type set_iter_perm.
  intros Hvalid.
  assert (∀ ip port country,
            (ip, port) ∈ alive_ip_set w →
            (split_1 chr_hash (format_line (ip, port, country))).1
            = ip ++ chr_colon :: str_of_int port
            ∧ parse_ip_port (ip ++ chr_colon :: str_of_int port)
              = Ret (Some (ip, Some port))) as Hone.
  { intros ip port country He.
    destruct (endpoint_text_parses ip port (Hvalid _ He)) as [Hparse Hno].
    split; [|done]. by rewrite format_line_split, split_1_app. }
  split; [done|].
  intros line ([[ip port] country] & -> & Hrec)%list_elem_of_fmap.
  apply written_records in Hrec as [He _].
  exists ip, port. split; [done|].
  destruct (Hone ip port country He) as [-> Hparse]. done.
Qed.

(** ** The whole run *)

Lemma main_records record :
  Forall (λ p, 1 ≤ p ≤ 65535) (common_ports cfg) →
  record ∈ main initial_world →
  valid_endpoint record.1
  ∧ connect record.1.1 record.1.2 = true
  ∧ record.2 = country_of record.1.1.
Proof using Type as_completed_perm set_iter_perm.
  intros Hports Hrec. destruct record as [[ip port] country].
  apply written_records in Hrec as [He ->]. simpl.
  apply filter_alive_ips_valid in He; [|by apply fetch_and_extract_ips_valid;
    intros c ?%elem_of_empty | done].
  destruct He as [He|[Hv Hc]]; [|done].
  rewrite fetch_and_extract_ips_alive in He. by apply elem_of_empty in He.
Qed.

(** X14. Whatever the sources and the network answer, every record a run
    writes is sound, provided the default ports are in [1, 65535]: its
    address is valid, its port is in [1, 65535] and answered the probe,
    its country is the one looked up for its address, the line written
    for it parses back to it, and no endpoint is written twice. *)
Theorem main_writes_only_verified_endpoints :
  Forall (λ p, 1 ≤ p ≤ 65535) (common_ports cfg) →
  NoDup (main initial_world).*1
  ∧ ∀ ip port country,
      (ip, port, country) ∈ main initial_world →
      valid_endpoint (ip, port)
      ∧ connect ip port = true
      ∧ country = country_of ip
      ∧ parse_ip_port (split_1 chr_hash (format_line (ip, port, country))).1
        = Ret (Some (ip, Some port)).
Proof using Type as_completed_perm set_iter_perm.
  intros Hports. split.
  - unfold main. rewrite written_order, sorted_Permutation.
    apply set_iter_NoDup.
  - intros ip port country Hrec.
    destruct (main_records _ Hports Hrec) as (Hv & Hc & Hcountry).
    split; [exact Hv|]. split; [exact Hc|]. split; [exact Hcountry|].
    destruct (endpoint_text_parses ip port Hv) as [Hparse Hno].
    by rewrite format_line_split, split_1_app.
Qed.

(** X15. When no source can be fetched, the run writes nothing: nothing
    is probed and the output is empty. *)
Theorem main_without_sources :
  (∀ h src, src ∈ URLS cfg → urlopen h src = None) →
  main initial_world = []
  ∧ probes (filter_alive_ips (fetch_and_extract_ips initial_world)) = []
  ∧ written_lines (filter_alive_ips (fetch_and_extract_ips initial_world)) = [].
Proof using Type as_completed_perm set_iter_perm.
  intros Hfail.
  destruct (fetch_and_extract_ips_all_fail initial_world Hfail) as [Hset _].
  destruct (filter_alive_ips_empty _ Hset) as [Halive Hprobes].
  assert (main initial_world = []) as Hmain.
  { unfold main, get_ip_location_and_write.
    rewrite Halive, fetch_and_extract_ips_alive. simpl.
    rewrite set_iter_empty. done. }
  split; [done|]. split.
  - by rewrite Hprobes, fetch_and_extract_ips_probes.
  - unfold written_lines. fold (main initial_world). by rewrite Hmain.
Qed.

(** ** The decoded body *)

Lemma utf8_ignore_length_upto n : ∀ raw t,
  (length raw ≤ n)%nat →
  utf8_decode ignore raw = Ret t → (length t ≤ length raw)%nat.
Proof.
  induction n as [|n IH]; intros [|x0 r0] t Hlen; simpl in Hlen;
    try (by intros [= <-]); [lia|].
  cbn [utf8_decode]. utf8_cases;
    repeat match goal with
           | |- context [utf8_decode ignore ?r] =>
               let t' := fresh "t" in
               let E := fresh "E" in
               destruct (utf8_decode ignore r) as [t'|] eqn:E;
               [apply IH in E; [|simpl in *; lia] | ]
           end;
    simpl; try done; intros [= <-]; simpl in *; lia.
Qed.

Lemma decode_body_ascii_all raw :
  forallb is_ascii_byte raw = true → decode_body raw = latin1_decode raw.
Proof.
  induction raw as [|x raw IH]; [done|]. simpl.
  intros [Hx Hraw]%andb_prop. rewrite decode_body_ascii by done.
  by rewrite IH.
Qed.

(** X16. Decoding never makes the text longer than the body, and on a
    body of ASCII bytes it changes nothing: the text has one character
    per byte, with the byte's value, as the single-byte decoding would
    give. *)
Theorem decode_body_length raw :
  (length (decode_body raw) ≤ length raw)%nat
  ∧ (forallb is_ascii_byte raw = true →
     decode_body raw = latin1_decode raw
     ∧ length (decode_body raw) = length raw).
Proof.
  split.
  - apply (utf8_ignore_length_upto (length raw)); [done|].
    apply decode_body_ignore.
  - intros Hraw. rewrite (decode_body_ascii_all raw Hraw).
    split; [done|]. unfold latin1_decode. apply length_map.
Qed.

End Pipeline.

(** * Decoding against the UTF-8 encoding form *)

Ltac lia_div := zify; Z.to_euclidean_division_equations; lia.

Lemma lor_shiftl a b n :
  (b < 2 ^ n)%N → N.lor (N.shiftl a n) b = (a * 2 ^ n + b)%N.
Proof.
  intros Hb. rewrite N.shiftl_mul_pow2.
  assert (N.land (a * 2 ^ n) b = 0%N) as Hland.
  { apply N.bits_inj_0. intros i. rewrite N.land_spec.
    destruct (N.lt_ge_cases i n) as [Hi|Hi].
    - by rewrite N.mul_pow2_bits_low.
    - rewrite <- (N.mod_small b (2 ^ n)) by done.
      rewrite N.mod_pow2_bits_high by done. apply andb_false_r. }
  rewrite <- N.lxor_lor by done. symmetry. by apply N.add_nocarry_lxor.
Qed.

Lemma bits_mod b :
  bits b 63 = (b mod 64)%N ∧ bits b 31 = (b mod 32)%N
  ∧ bits b 15 = (b mod 16)%N ∧ bits b 7 = (b mod 8)%N.
Proof.
  unfold bits. change 63%N with (N.ones 6). change 31%N with (N.ones 5).
  change 15%N with (N.ones 4). change 7%N with (N.ones 3).
  by rewrite !N.land_ones.
Qed.

Lemma utf8_value2 b0 b1 :
  N.lor (N.shiftl (bits b0 31) 6) (bits b1 63)
  = (b0 mod 32 * 64 + b1 mod 64)%N.
Proof.
  destruct (bits_mod b0) as (_ & -> & _). destruct (bits_mod b1) as (-> & _).
  apply (lor_shiftl _ _ 6). by apply N.mod_lt.
Qed.

Lemma utf8_value3 b0 b1 b2 :
  N.lor (N.shiftl (bits b0 15) 12)
    (N.lor (N.shiftl (bits b1 63) 6) (bits b2 63))
  = (b0 mod 16 * 4096 + b1 mod 64 * 64 + b2 mod 64)%N.
Proof.
  destruct (bits_mod b0) as (_ & _ & -> & _).
  destruct (bits_mod b1) as (-> & _). destruct (bits_mod b2) as (-> & _).
  rewrite (lor_shiftl _ _ 6) by (by apply N.mod_lt).
  rewrite (lor_shiftl _ _ 12).
  - change (2 ^ 12)%N with 4096%N. change (2 ^ 6)%N with 64%N. lia.
  - change (2 ^ 12)%N with 4096%N. change (2 ^ 6)%N with 64%N. lia_div.
Qed.

Lemma utf8_value4 b0 b1 b2 b3 :
  N.lor (N.shiftl (bits b0 7) 18)
    (N.lor (N.shiftl (bits b1 63) 12)
       (N.lor (N.shiftl (bits b2 63) 6) (bits b3 63)))
  = (b0 mod 8 * 262144 + b1 mod 64 * 4096 + b2 mod 64 * 64 + b3 mod 64)%N.
Proof.
  destruct (bits_mod b0) as (_ & _ & _ & ->).
  destruct (bits_mod b1) as (-> & _). destruct (bits_mod b2) as (-> & _).
  destruct (bits_mod b3) as (-> & _).
  rewrite (lor_shiftl _ _ 6) by (by apply N.mod_lt).
  rewrite (lor_shiftl _ _ 12)
    by (change (2 ^ 12)%N with 4096%N; change (2 ^ 6)%N with 64%N; lia_div).
  rewrite (lor_shiftl _ _ 18).
  - change (2 ^ 18)%N with 262144%N. change (2 ^ 12)%N with 4096%N.
    change (2 ^ 6)%N with 64%N. lia.
  - change (2 ^ 18)%N with 262144%N. change (2 ^ 12)%N with 4096%N.
    change (2 ^ 6)%N with 64%N. lia_div.
Qed.

Lemma in_range_spec lo hi b : in_range lo hi b = true ↔ (lo ≤ b ≤ hi)%N.
Proof.
  unfold in_range. rewrite andb_true_iff, !N.leb_le. done.
Qed.

Lemma in_range_out lo hi b : (b < lo ∨ hi < b)%N → in_range lo hi b = false.
Proof.
  intros Hb. apply not_true_is_false. rewrite in_range_spec. lia.
Qed.

Lemma second_ok_spec b0 b1 :
  second_ok b0 b1 = true
  ↔ (128 ≤ b1 ≤ 191)%N
    ∧ (b0 = 224 → 160 ≤ b1)%N ∧ (b0 = 237 → b1 ≤ 159)%N
    ∧ (b0 = 240 → 144 ≤ b1)%N ∧ (b0 = 244 → b1 ≤ 143)%N.
Proof.
  unfold second_ok, is_cont.
  destruct (N.eqb_spec b0 224) as [->|?]; [rewrite in_range_spec; lia|].
  destruct (N.eqb_spec b0 237) as [->|?]; [rewrite in_range_spec; lia|].
  destruct (N.eqb_spec b0 240) as [->|?]; [rewrite in_range_spec; lia|].
  destruct (N.eqb_spec b0 244) as [->|?]; rewrite in_range_spec; lia.
Qed.

Lemma utf8_decode_cons h x0 r0 :
  utf8_decode h (x0 :: r0) =
  let b0 := Byte.to_N x0 in
  if (b0 <? 128)%N then emit b0 (utf8_decode h r0)
  else if in_range 194 223 b0 then
    match r0 with
    | x1 :: r1 =>
        let b1 := Byte.to_N x1 in
        if is_cont b1
        then emit (N.lor (N.shiftl (bits b0 31) 6) (bits b1 63)) (utf8_decode h r1)
        else bad_bytes h (utf8_decode h r0)
    | [] => bad_bytes h (Ret [])
    end
  else if in_range 224 239 b0 then
    match r0 with
    | x1 :: r1 =>
        let b1 := Byte.to_N x1 in
        if second_ok b0 b1 then
          match r1 with
          | x2 :: r2 =>
              let b2 := Byte.to_N x2 in
              if is_cont b2
              then emit (N.lor (N.shiftl (bits b0 15) 12)
                           (N.lor (N.shiftl (bits b1 63) 6) (bits b2 63)))
                        (utf8_decode h r2)
              else bad_bytes h (utf8_decode h r1)
          | [] => bad_bytes h (Ret [])
          end
        else bad_bytes h (utf8_decode h r0)
    | [] => bad_bytes h (Ret [])
    end
  else if in_range 240 244 b0 then
    match r0 with
    | x1 :: r1 =>
        let b1 := Byte.to_N x1 in
        if second_ok b0 b1 then
          match r1 with
          | x2 :: r2 =>
              let b2 := Byte.to_N x2 in
              if is_cont b2 then
                match r2 with
                | x3 :: r3 =>
                    let b3 := Byte.to_N x3 in
                    if is_cont b3
                    then emit (N.lor (N.shiftl (bits b0 7) 18)
                                 (N.lor (N.shiftl (bits b1 63) 12)
                                    (N.lor (N.shiftl (bits b2 63) 6) (bits b3 63))))
                              (utf8_decode h r3)
                    else bad_bytes h (utf8_decode h r2)
                | [] => bad_bytes h (Ret [])
                end
              else bad_bytes h (utf8_decode h r1)
          | [] => bad_bytes h (Ret [])
          end
        else bad_bytes h (utf8_decode h r0)
    | [] => bad_bytes h (Ret [])
    end
  else bad_bytes h (utf8_decode h r0).
Proof. reflexivity. Qed.

Lemma utf8_decode_1 h x0 r :
  (Byte.to_N x0 <? 128)%N = true →
  utf8_decode h (x0 :: r) = emit (Byte.to_N x0) (utf8_decode h r).
Proof. intros H0. rewrite utf8_decode_cons. cbn beta iota zeta. by rewrite H0. Qed.

Lemma utf8_decode_2 h x0 x1 r :
  in_range 194 223 (Byte.to_N x0) = true → is_cont (Byte.to_N x1) = true →
  utf8_decode h (x0 :: x1 :: r)
  = emit (Byte.to_N x0 mod 32 * 64 + Byte.to_N x1 mod 64)%N (utf8_decode h r).
Proof.
  intros H0 H1. rewrite utf8_decode_cons. cbn beta iota zeta. rewrite utf8_value2, H0, H1.
  apply in_range_spec in H0.
  destruct (N.ltb_spec (Byte.to_N x0) 128); [lia|done].
Qed.

Lemma utf8_decode_3 h x0 x1 x2 r :
  in_range 224 239 (Byte.to_N x0) = true →
  second_ok (Byte.to_N x0) (Byte.to_N x1) = true →
  is_cont (Byte.to_N x2) = true →
  utf8_decode h (x0 :: x1 :: x2 :: r)
  = emit (Byte.to_N x0 mod 16 * 4096 + Byte.to_N x1 mod 64 * 64
          + Byte.to_N x2 mod 64)%N (utf8_decode h r).
Proof.
  intros H0 H1 H2. rewrite utf8_decode_cons. cbn beta iota zeta. rewrite utf8_value3, H0, H1, H2.
  apply in_range_spec in H0.
  rewrite (in_range_out 194 223) by lia.
  destruct (N.ltb_spec (Byte.to_N x0) 128); [lia|done].
Qed.

Lemma utf8_decode_4 h x0 x1 x2 x3 r :
  in_range 240 244 (Byte.to_N x0) = true →
  second_ok (Byte.to_N x0) (Byte.to_N x1) = true →
  is_cont (Byte.to_N x2) = true → is_cont (Byte.to_N x3) = true →
  utf8_decode h (x0 :: x1 :: x2 :: x3 :: r)
  = emit (Byte.to_N x0 mod 8 * 262144 + Byte.to_N x1 mod 64 * 4096
          + Byte.to_N x2 mod 64 * 64 + Byte.to_N x3 mod 64)%N
      (utf8_decode h r).
Proof.
  intros H0 H1 H2 H3. rewrite utf8_decode_cons. cbn beta iota zeta. rewrite utf8_value4, H0, H1, H2, H3.
  apply in_range_spec in H0.
  rewrite (in_range_out 194 223), (in_range_out 224 239) by lia.
  destruct (N.ltb_spec (Byte.to_N x0) 128); [lia|done].
Qed.

(** A well-formed sequence at the head of the body is decoded to its
    scalar value, under every error handler. *)
Lemma utf8_decode_encoded h bs c rest :
  encodes bs c →
  utf8_decode h (bs ++ rest) = emit c (utf8_decode h rest).
Proof.
  intros [Hc Hbs]. unfold utf8_encode in Hbs. unfold scalar_value in Hc.
  destruct (N.ltb_spec c 128) as [H1|H1].
  { destruct bs as [|x0 [|? ?]]; try discriminate. injection Hbs as Hx0.
    cbn [app]. rewrite utf8_decode_1; [by rewrite Hx0|].
    apply N.ltb_lt. lia. }
  destruct (N.ltb_spec c 2048) as [H2|H2].
  { destruct bs as [|x0 [|x1 [|? ?]]]; try discriminate.
    injection Hbs as Hx0 Hx1. cbn [app]. rewrite utf8_decode_2.
    - f_equal. rewrite Hx0, Hx1. lia_div.
    - apply in_range_spec. rewrite Hx0. lia_div.
    - apply in_range_spec. rewrite Hx1. lia_div. }
  destruct (N.ltb_spec c 65536) as [H3|H3].
  { destruct bs as [|x0 [|x1 [|x2 [|? ?]]]]; try discriminate.
    injection Hbs as Hx0 Hx1 Hx2. cbn [app]. rewrite utf8_decode_3.
    - f_equal. rewrite Hx0, Hx1, Hx2. lia_div.
    - apply in_range_spec. rewrite Hx0. lia_div.
    - apply second_ok_spec. rewrite Hx0, Hx1.
      apply orb_prop in Hc as [Hc|Hc].
      + apply N.ltb_lt in Hc. lia_div.
      + apply andb_prop in Hc as [Hc _]. apply N.leb_le in Hc. lia_div.
    - apply in_range_spec. rewrite Hx2. lia_div. }
  destruct bs as [|x0 [|x1 [|x2 [|x3 [|? ?]]]]]; try discriminate.
  injection Hbs as Hx0 Hx1 Hx2 Hx3. cbn [app].
  assert (c < 1114112)%N as Hmax.
  { apply orb_prop in Hc as [Hc|Hc]; [apply N.ltb_lt in Hc; lia|].
    apply andb_prop in Hc as [_ Hc]. by apply N.ltb_lt in Hc. }
  rewrite utf8_decode_4.
  - f_equal. rewrite Hx0, Hx1, Hx2, Hx3. lia_div.
  - apply in_range_spec. rewrite Hx0. lia_div.
  - apply second_ok_spec. rewrite Hx0, Hx1. lia_div.
  - apply in_range_spec. rewrite Hx2. lia_div.
  - apply in_range_spec. rewrite Hx3. lia_div.
Qed.

Lemma utf8_ignore_bad r :
  bad_bytes ignore (utf8_decode ignore r) = utf8_decode ignore r.
Proof. by destruct (utf8_ignore_returns r) as [t ->]. Qed.

Lemma utf8_ignore_cont x r :
  is_cont (Byte.to_N x) = true →
  utf8_decode ignore (x :: r) = utf8_decode ignore r.
Proof.
  intros Hx. apply in_range_spec in Hx.
  rewrite utf8_decode_cons. cbn beta iota zeta.
  rewrite (in_range_out 194 223), (in_range_out 224 239),
    (in_range_out 240 244) by lia.
  destruct (N.ltb_spec (Byte.to_N x) 128); [lia|]. apply utf8_ignore_bad.
Qed.

Ltac decoder_tests :=
  rewrite utf8_decode_cons; cbn beta iota zeta;
  repeat match goal with
         | H : ?b = _ |- context [if ?b then _ else _] => rewrite H
         end.

Lemma encodes_1 x : (Byte.to_N x <? 128)%N = true → encodes [x] (Byte.to_N x).
Proof.
  intros H0. pose proof H0 as H0'. apply N.ltb_lt in H0'. split.
  - unfold scalar_value. apply orb_true_iff. left. apply N.ltb_lt. lia.
  - unfold utf8_encode. by rewrite H0.
Qed.

Lemma encodes_2 x0 x1 :
  in_range 194 223 (Byte.to_N x0) = true → is_cont (Byte.to_N x1) = true →
  encodes [x0; x1] (Byte.to_N x0 mod 32 * 64 + Byte.to_N x1 mod 64)%N.
Proof.
  intros H0%in_range_spec H1%in_range_spec.
  set (c := (Byte.to_N x0 mod 32 * 64 + Byte.to_N x1 mod 64)%N).
  assert (128 ≤ c < 2048)%N as Hc by (subst c; lia_div).
  split.
  - unfold scalar_value. apply orb_true_iff. left. apply N.ltb_lt. lia.
  - unfold utf8_encode.
    destruct (N.ltb_spec c 128); [lia|]. destruct (N.ltb_spec c 2048); [|lia].
    cbn [fmap list_fmap]. f_equal; [|f_equal]; subst c; lia_div.
Qed.

Lemma encodes_3 x0 x1 x2 :
  in_range 224 239 (Byte.to_N x0) = true →
  second_ok (Byte.to_N x0) (Byte.to_N x1) = true →
  is_cont (Byte.to_N x2) = true →
  encodes [x0; x1; x2]
    (Byte.to_N x0 mod 16 * 4096 + Byte.to_N x1 mod 64 * 64
     + Byte.to_N x2 mod 64)%N.
Proof.
  intros H0%in_range_spec (H1 & Hlo & Hhi & _)%second_ok_spec H2%in_range_spec.
  set (c := (Byte.to_N x0 mod 16 * 4096 + Byte.to_N x1 mod 64 * 64
             + Byte.to_N x2 mod 64)%N).
  assert (2048 ≤ c < 65536)%N as Hc by (subst c; lia_div).
  assert (c < 55296 ∨ 57344 ≤ c)%N as Hs by (subst c; lia_div).
  split.
  - unfold scalar_value. apply orb_true_iff. destruct Hs as [Hs|Hs].
    + left. by apply N.ltb_lt.
    + right. apply andb_true_iff. split; [apply N.leb_le | apply N.ltb_lt]; lia.
  - unfold utf8_encode.
    destruct (N.ltb_spec c 128); [lia|]. destruct (N.ltb_spec c 2048); [lia|].
    destruct (N.ltb_spec c 65536); [|lia].
    cbn [fmap list_fmap]. f_equal; [|f_equal; [|f_equal]]; subst c; lia_div.
Qed.

Lemma encodes_4 x0 x1 x2 x3 :
  in_range 240 244 (Byte.to_N x0) = true →
  second_ok (Byte.to_N x0) (Byte.to_N x1) = true →
  is_cont (Byte.to_N x2) = true → is_cont (Byte.to_N x3) = true →
  encodes [x0; x1; x2; x3]
    (Byte.to_N x0 mod 8 * 262144 + Byte.to_N x1 mod 64 * 4096
     + Byte.to_N x2 mod 64 * 64 + Byte.to_N x3 mod 64)%N.
Proof.
  intros H0%in_range_spec (H1 & _ & _ & Hlo & Hhi)%second_ok_spec
    H2%in_range_spec H3%in_range_spec.
  set (c := (Byte.to_N x0 mod 8 * 262144 + Byte.to_N x1 mod 64 * 4096
             + Byte.to_N x2 mod 64 * 64 + Byte.to_N x3 mod 64)%N).
  assert (65536 ≤ c < 1114112)%N as Hc by (subst c; lia_div).
  split.
  - unfold scalar_value. apply orb_true_iff. right.
    apply andb_true_iff. split; [apply N.leb_le | apply N.ltb_lt]; lia.
  - unfold utf8_encode.
    destruct (N.ltb_spec c 128); [lia|]. destruct (N.ltb_spec c 2048); [lia|].
    destruct (N.ltb_spec c 65536); [lia|].
    cbn [fmap list_fmap]. f_equal; [|f_equal; [|f_equal; [|f_equal]]];
      subst c; lia_div.
Qed.

Lemma second_ok_cont b0 b1 : second_ok b0 b1 = true → is_cont b1 = true.
Proof. intros (H1 & _)%second_ok_spec. by apply in_range_spec. Qed.

(** At every position of the body, either a well-formed sequence starts
    there, or the byte there leaves nothing in the text. *)
Lemma utf8_ignore_step x rest :
  (∃ bs c rest', x :: rest = bs ++ rest' ∧ encodes bs c)
  ∨ utf8_decode ignore (x :: rest) = utf8_decode ignore rest.
Proof.
  destruct (Byte.to_N x <? 128)%N eqn:E1.
  { left. exists [x], (Byte.to_N x), rest. split; [done|]. by apply encodes_1. }
  destruct (in_range 194 223 (Byte.to_N x)) eqn:E2.
  { destruct rest as [|x1 r1]; [right; by decoder_tests|].
    destruct (is_cont (Byte.to_N x1)) eqn:C1.
    - left. eexists [x; x1], _, r1. split; [done|]. by apply encodes_2.
    - right. decoder_tests. apply utf8_ignore_bad. }
  destruct (in_range 224 239 (Byte.to_N x)) eqn:E3.
  { destruct rest as [|x1 r1]; [right; by decoder_tests|].
    destruct (second_ok (Byte.to_N x) (Byte.to_N x1)) eqn:S1;
      [|right; decoder_tests; apply utf8_ignore_bad].
    pose proof (second_ok_cont _ _ S1) as C1.
    destruct r1 as [|x2 r2].
    { right. decoder_tests. by rewrite (utf8_ignore_cont x1). }
    destruct (is_cont (Byte.to_N x2)) eqn:C2.
    - left. eexists [x; x1; x2], _, r2. split; [done|]. by apply encodes_3.
    - right. decoder_tests. rewrite (utf8_ignore_cont x1) by done.
      apply utf8_ignore_bad. }
  destruct (in_range 240 244 (Byte.to_N x)) eqn:E4.
  { destruct rest as [|x1 r1]; [right; by decoder_tests|].
    destruct (second_ok (Byte.to_N x) (Byte.to_N x1)) eqn:S1;
      [|right; decoder_tests; apply utf8_ignore_bad].
    pose proof (second_ok_cont _ _ S1) as C1.
    destruct r1 as [|x2 r2].
    { right. decoder_tests. by rewrite (utf8_ignore_cont x1). }
    destruct (is_cont (Byte.to_N x2)) eqn:C2;
      [|right; decoder_tests; rewrite (utf8_ignore_cont x1) by done;
        apply utf8_ignore_bad].
    destruct r2 as [|x3 r3].
    { right. decoder_tests.
      by rewrite (utf8_ignore_cont x1), (utf8_ignore_cont x2). }
    destruct (is_cont (Byte.to_N x3)) eqn:C3.
    - left. eexists [x; x1; x2; x3], _, r3. split; [done|].
      by apply encodes_4.
    - right. decoder_tests.
      rewrite (utf8_ignore_cont x1), (utf8_ignore_cont x2) by done.
      apply utf8_ignore_bad. }
  right. decoder_tests. apply utf8_ignore_bad.
Qed.

(** Where a well-formed sequence starts, the first byte is ASCII or is a
    lead byte followed by a byte in the range that lead allows. *)
Lemma encodes_head bs c rest' x rest :
  encodes bs c → x :: rest = bs ++ rest' →
  (Byte.to_N x <? 128)%N = true
  ∨ ∃ x1 r1, rest = x1 :: r1
             ∧ second_ok (Byte.to_N x) (Byte.to_N x1) = true.
Proof.
  intros [Hc Hbs] Hraw. unfold utf8_encode in Hbs. unfold scalar_value in Hc.
  assert (c < 55296 ∨ 57344 ≤ c < 1114112)%N as Hs.
  { apply orb_prop in Hc as [Hc|Hc]; [left; by apply N.ltb_lt|].
    apply andb_prop in Hc as [?%N.leb_le ?%N.ltb_lt]. by right. }
  destruct (N.ltb_spec c 128) as [H1|H1].
  { destruct bs as [|x0 [|? ?]]; try discriminate. injection Hbs as Hx0.
    injection Hraw as -> _. left. apply N.ltb_lt. lia. }
  right.
  destruct (N.ltb_spec c 2048) as [H2|H2];
    [|destruct (N.ltb_spec c 65536) as [H3|H3]];
    destruct bs as [|x0 [|x1 bs]]; try discriminate;
    injection Hbs as Hx0 Hx1 _; injection Hraw as -> ->;
    eexists _, _; (split; [reflexivity|]);
    apply second_ok_spec; rewrite Hx0, Hx1; lia_div.
Qed.

(** C7, amended. The body is decoded as UTF-8 with undecodable bytes
    dropped, not replaced, and as single bytes if that decoding fails;
    there is always a text to extract from.  A body that is valid UTF-8
    is decoded as it stands.  At every position, a well-formed sequence
    starting there gives its character, and a byte at which no
    well-formed sequence starts (a stray continuation byte, an invalid
    lead, a lead whose sequence is cut short or ill-continued) leaves
    nothing in the text. *)
Theorem decode_body_drops raw :
  utf8_decode ignore raw = Ret (decode_body raw)
  ∧ (∀ t, utf8_decode strict raw = Ret t → decode_body raw = t)
  ∧ (∀ pre x rest,
       raw = pre ++ x :: rest →
       forallb is_ascii_byte pre = true → invalid_lead x = true →
       decode_body raw = latin1_decode pre ++ decode_body rest)
  ∧ (utf8_decode ignore raw = Exc → decode_body raw = latin1_decode raw)
  ∧ (raw = [] → decode_body raw = [])
  ∧ (∀ bs c rest,
       raw = bs ++ rest → encodes bs c →
       decode_body raw = c :: decode_body rest)
  ∧ (∀ x rest,
       raw = x :: rest →
       (∀ bs c rest', raw = bs ++ rest' → ¬ encodes bs c) →
       decode_body raw = decode_body rest).
Proof.
  split; [apply decode_body_ignore|]. split; [|split; [|split; [|split; [|split]]]].
  - intros t Ht. apply (utf8_ignore_strict_upto (length raw)) in Ht; [|done].
    rewrite decode_body_ignore in Ht. by injection Ht.
  - intros pre x rest -> Hpre Hx.
    induction pre as [|a pre IH]; simpl.
    + by apply decode_body_invalid_lead.
    + simpl in Hpre. apply andb_prop in Hpre as [Ha Hpre].
      rewrite decode_body_ascii by done. by rewrite IH.
  - unfold decode_body. by intros ->.
  - by intros ->.
  - intros bs c rest -> Henc.
    pose proof (utf8_decode_encoded ignore bs c rest Henc) as Hd.
    rewrite !decode_body_ignore in Hd. by injection Hd.
  - intros x rest -> Hno.
    destruct (utf8_ignore_step x rest) as [(bs & c & rest' & Hraw & Henc)|Hd].
    + by destruct (Hno bs c rest' Hraw).
    + rewrite !decode_body_ignore in Hd. by injection Hd.
Qed.

(** * The properties on concrete runs *)

Lemma elements_order_perm :
  ∀ (A : Type) `{Countable A} (s : gset A), elements_order A s ≡ₚ elements s.
Proof. intros. reflexivity. Qed.

Lemma submission_order_perm :
  ∀ (A : Type) (l : list A), submission_order A l ≡ₚ l.
Proof. intros. reflexivity. Qed.

Lemma parse_ip_port_numeric_witness :
  numeral no_decimal no_class (py "1") 1
  ∧ numeral no_decimal no_class (py "2") 2
  ∧ numeral no_decimal no_class (py "3") 3
  ∧ numeral no_decimal no_class (py "4") 4
  ∧ parse_ip_port no_decimal no_class (py "1.2.3.4")
    = Ret (Some (py "1.2.3.4", None))
  ∧ parse_ip_port no_decimal no_class (py "1.2.3.4:9000")
    = Ret (Some (py "1.2.3.4", Some 9000))
  ∧ parse_ip_port no_decimal no_class (py "1.2.3.4:70000") = Ret None.
Proof.
  assert (∀ g n, isdigit no_decimal no_class g = true →
                 int no_decimal g = Some n → numeral no_decimal no_class g n)
    as Hnum by (intros g n ? ?; by split).
  pose proof (Hnum (py "1") 1 eq_refl eq_refl) as H1.
  pose proof (Hnum (py "2") 2 eq_refl eq_refl) as H2.
  pose proof (Hnum (py "3") 3 eq_refl eq_refl) as H3.
  pose proof (Hnum (py "4") 4 eq_refl eq_refl) as H4.
  destruct (parse_ip_port_numeric no_decimal no_class no_class
              (py "1") (py "2") (py "3") (py "4") 1 2 3 4 H1 H2 H3 H4)
    as (Hbare & Hport & _).
  split_and!; [exact H1 | exact H2 | exact H3 | exact H4 | exact Hbare | | ].
  - exact (Hport (py "9000") 9000 (Hnum (py "9000") 9000 eq_refl eq_refl)).
  - exact (Hport (py "70000") 70000 (Hnum (py "70000") 70000 eq_refl eq_refl)).
Defined.

Lemma extract_ips_from_text_dedup_witness :
  (∀ (A : Type) `{Countable A} (s : gset A), elements_order A s ≡ₚ elements s)
  ∧ token no_decimal (py "1.2.3.4")
  ∧ parse_ip_port no_decimal no_class (py "1.2.3.4")
    = Ret (Some (py "1.2.3.4", None))
  ∧ findall no_decimal no_class no_class IP_PATTERN (py "1.2.3.4 1.2.3.4")
    = [py "1.2.3.4"; py "1.2.3.4"]
  ∧ extract_ips_from_text no_decimal no_class no_class elements_order
      (py "1.2.3.4 1.2.3.4") = Ret [(py "1.2.3.4", None)].
Proof.
  assert (∀ g : N, isdecimal_char no_decimal g = true →
            digit_run no_decimal 1 3 [g]) as Hrun.
  { intros g Hg. split; [simpl; lia|]. by apply Forall_singleton. }
  assert (token no_decimal (py "1.2.3.4")) as Ht.
  { exact (token_bare no_decimal (py "1") (py "2") (py "3") (py "4")
             (Hrun 49%N eq_refl) (Hrun 50%N eq_refl)
             (Hrun 51%N eq_refl) (Hrun 52%N eq_refl)). }
  assert (32%N ≠ chr_colon) as Hsep by discriminate.
  destruct (extract_ips_from_text_dedup no_decimal no_class no_class
              elements_order elements_order_perm (py "1.2.3.4 1.2.3.4"))
    as (cands & He & _ & _ & _ & _ & _ & _ & Hdup).
  destruct (Hdup (py "1.2.3.4") 32%N 1%nat (py "1.2.3.4", None)
              eq_refl Ht eq_refl Hsep eq_refl) as [Hf Hc].
  rewrite Hc in He.
  exact (conj elements_order_perm (conj Ht (conj eq_refl (conj Hf He)))).
Defined.

(** C9, as stated, fails: [1.2.3.4] and [01.2.3.4] are both accepted and
    denote the same four octets, and extraction keeps them as two
    candidates. *)
Lemma leading_zero_forms_stay_distinct :
  parse_ip_port no_decimal no_class (py "1.2.3.4")
  = Ret (Some (py "1.2.3.4", None))
  ∧ parse_ip_port no_decimal no_class (py "01.2.3.4")
    = Ret (Some (py "01.2.3.4", None))
  ∧ int no_decimal <$> split chr_dot (py "01.2.3.4")
    = int no_decimal <$> split chr_dot (py "1.2.3.4")
  ∧ ∃ cands,
      extract_ips_from_text no_decimal no_class no_class elements_order
        (py "1.2.3.4 01.2.3.4") = Ret cands
      ∧ length cands = 2%nat.
Proof.
  split_and!; try (by vm_compute).
  eexists. split; [by vm_compute | by vm_compute].
Qed.

Lemma candidate_identity_is_textual_witness :
  parse_ip_port no_decimal no_class (py "1.2.3.4")
  = Ret (Some (py "1.2.3.4", None))
  ∧ parse_ip_port no_decimal no_class (py "01.2.3.4")
    = Ret (Some (py "01.2.3.4", None))
  ∧ ((py "1.2.3.4", None) : candidate).2 = ((py "01.2.3.4", None) : candidate).2
  ∧ size (list_to_set [(py "1.2.3.4", None); (py "01.2.3.4", None)]
            : gset candidate) = 2%nat.
Proof.
  split_and!; [reflexivity | reflexivity | reflexivity | ].
  exact (proj2 (candidate_identity_is_textual no_decimal no_class
                  (py "1.2.3.4") (py "01.2.3.4")
                  (py "1.2.3.4", None) (py "01.2.3.4", None)
                  eq_refl eq_refl eq_refl)).
Defined.

Lemma oversized_port_dropped_witness :
  (∀ (A : Type) `{Countable A} (s : gset A), elements_order A s ≡ₚ elements s)
  ∧ extract_ips_from_text no_decimal no_class no_class elements_order
      (py "1.2.3.4:999999") = Ret [(py "1.2.3.4", None)].
Proof.
  split; [exact elements_order_perm|].
  exact (proj1 (proj2 (oversized_port_dropped no_decimal no_class no_class
                         elements_order elements_order_perm))).
Defined.

(** C7, as stated, fails: the byte [FF] between [1] and [2] is dropped,
    where a replacing decoder puts U+FFFD. *)
Lemma undecodable_byte_not_replaced :
  decode_body [Byte.x31; Byte.xff; Byte.x32] = [49; 50]%N
  ∧ utf8_decode replace [Byte.x31; Byte.xff; Byte.x32]
    = Ret [49; 65533; 50]%N
  ∧ Ret (decode_body [Byte.x31; Byte.xff; Byte.x32])
    ≠ utf8_decode replace [Byte.x31; Byte.xff; Byte.x32].
Proof. split_and!; [done | done | by vm_compute]. Qed.

Lemma decode_body_drops_witness :
  [Byte.xe2; Byte.x31] = Byte.xe2 :: [Byte.x31]
  ∧ (∀ bs c rest', [Byte.xe2; Byte.x31] = bs ++ rest' → ¬ encodes bs c)
  ∧ decode_body [Byte.xe2; Byte.x31] = decode_body [Byte.x31]
  ∧ decode_body [Byte.x31; Byte.xff; Byte.x32]
    = latin1_decode [Byte.x31] ++ decode_body [Byte.x32].
Proof.
  assert (∀ bs c rest', [Byte.xe2; Byte.x31] = bs ++ rest' → ¬ encodes bs c)
    as Hno.
  { intros bs c rest' Hraw Henc.
    destruct (encodes_head bs c rest' _ _ Henc Hraw)
      as [H|(x1 & r1 & Hr & H)]; [discriminate H|].
    injection Hr as <- <-. discriminate H. }
  split; [reflexivity|]. split; [exact Hno|]. split.
  - exact (proj2 (proj2 (proj2 (proj2 (proj2 (proj2
             (decode_body_drops [Byte.xe2; Byte.x31]))))))
             Byte.xe2 [Byte.x31] eq_refl Hno).
  - exact (proj1 (proj2 (proj2
             (decode_body_drops [Byte.x31; Byte.xff; Byte.x32])))
             [Byte.x31] Byte.xff [Byte.x32] eq_refl eq_refl eq_refl).
Defined.

Lemma output_order_deterministic_witness :
  (∀ (A : Type) `{Countable A} (s : gset A), elements_order A s ≡ₚ elements s)
  ∧ [(py "1.1.1.1", 443); (py "2.2.2.2", 80); (py "1.1.1.1", 80)]
    ≡ₚ [(py "2.2.2.2", 80); (py "1.1.1.1", 443); (py "1.1.1.1", 80)]
  ∧ (get_ip_location_and_write elements_order unknown_country
       (alive_ip_set_update
          [(py "1.1.1.1", 443); (py "2.2.2.2", 80); (py "1.1.1.1", 80)]
          initial_world)).*1
    = [(py "1.1.1.1", 80); (py "1.1.1.1", 443); (py "2.2.2.2", 80)].
Proof.
  split; [exact elements_order_perm|]. split; [apply perm_swap|].
  apply (proj2 (proj2 (output_order_deterministic elements_order
                         elements_order_perm unknown_country))).
  apply perm_swap.
Defined.


Lemma probes_are_the_candidate_ports_witness :
  (∀ (A : Type) `{Countable A} (s : gset A), elements_order A s ≡ₚ elements s)
  ∧ probes (check_ports_for_ip submission_order (open_on [443])
              (py "1.2.3.4") [80; 443] initial_world).2
    = [(py "1.2.3.4", 80); (py "1.2.3.4", 443)].
Proof.
  split; [exact elements_order_perm|].
  exact (proj1 (proj2 (proj2 (proj2
           (probes_are_the_candidate_ports elements_order elements_order_perm
              submission_order source_config (open_on [443])))))
           (py "1.2.3.4") [80; 443] initial_world).
Defined.

Lemma open_ports_become_endpoints_witness :
  (∀ (A : Type) `{Countable A} (s : gset A), elements_order A s ≡ₚ elements s)
  ∧ (∀ (A : Type) (l : list A), submission_order A l ≡ₚ l)
  ∧ NoDup [80; 443]
  ∧ size (list_to_set
            (alive_items_of
               [((py "1.2.3.4", [80; 443]),
                 (check_ports_for_ip submission_order (open_on [443])
                    (py "1.2.3.4") [80; 443] initial_world).1)])
          : gset endpoint) = 1%nat.
Proof.
  assert (NoDup [80; 443]) as Hnd
    by (apply (bool_decide_unpack _); vm_compute; reflexivity).
  split_and!; [exact elements_order_perm | exact submission_order_perm
               | exact Hnd | ].
  pose proof (open_ports_become_endpoints elements_order elements_order_perm
                submission_order submission_order_perm source_config
                (open_on [443]) (py "1.2.3.4") [80; 443] initial_world) as H.
  cbv zeta in H. destruct H as (_ & _ & _ & _ & Hsize & _).
  exact (Hsize Hnd).
Defined.

Lemma end_to_end_witness :
  (∀ (A : Type) `{Countable A} (s : gset A), elements_order A s ≡ₚ elements s)
  ∧ (∀ (A : Type) (l : list A), submission_order A l ≡ₚ l)
  ∧ URLS source_config ≠ []
  ∧ common_ports source_config = [443]
  ∧ (∀ h src, src ∈ URLS source_config →
       answers_after 0
         (list_byte_of_string "1.2.3.4 foo 5.6.7.8:9000 1.2.3.4") h src
       = Some (list_byte_of_string "1.2.3.4 foo 5.6.7.8:9000 1.2.3.4"))
  ∧ open_on [443; 9000] (py "1.2.3.4") 443 = true
  ∧ open_on [443; 9000] (py "5.6.7.8") 9000 = true
  ∧ (main no_decimal no_class no_class elements_order submission_order
       source_config
       (answers_after 0
          (list_byte_of_string "1.2.3.4 foo 5.6.7.8:9000 1.2.3.4"))
       (open_on [443; 9000]) unknown_country initial_world).*1
    = [(py "1.2.3.4", 443); (py "5.6.7.8", 9000)].
Proof.
  assert (URLS source_config ≠ []) as Hurls by discriminate.
  assert (∀ h src, src ∈ URLS source_config →
            answers_after 0
              (list_byte_of_string "1.2.3.4 foo 5.6.7.8:9000 1.2.3.4") h src
            = Some (list_byte_of_string "1.2.3.4 foo 5.6.7.8:9000 1.2.3.4"))
    as Hnet by (intros h src _; reflexivity).
  split_and!; [exact elements_order_perm | exact submission_order_perm
               | exact Hurls | reflexivity | exact Hnet
               | reflexivity | reflexivity | ].
  exact (proj2 (end_to_end no_decimal no_class no_class elements_order
                  elements_order_perm submission_order submission_order_perm
                  source_config _ (open_on [443; 9000]) unknown_country
                  Hurls eq_refl Hnet eq_refl eq_refl)).
Defined.

(** * The further properties on concrete runs *)

Lemma is_valid_ip_iff_witness :
  is_valid_ip no_decimal no_class (py "255.0.10.1") = true.
Proof.
  apply (proj2 (is_valid_ip_iff no_decimal no_class (py "255.0.10.1"))).
  exists (py "255"), (py "0"), (py "10"), (py "1"), 255, 0, 10, 1.
  split; [reflexivity|].
  do 4 (split; [split; reflexivity|]). reflexivity.
Defined.

Lemma parse_ip_port_sound_witness :
  parse_ip_port no_decimal no_class (py "1.2.3.4:9000")
  = Ret (Some (py "1.2.3.4", Some 9000))
  ∧ valid_candidate no_decimal no_class (py "1.2.3.4", Some 9000)
  ∧ ∃ ptxt, py "1.2.3.4:9000" = py "1.2.3.4" ++ chr_colon :: ptxt
            ∧ numeral no_decimal no_class ptxt 9000.
Proof.
  split; [reflexivity|].
  exact (parse_ip_port_sound no_decimal no_class (py "1.2.3.4:9000")
           (py "1.2.3.4") (Some 9000) eq_refl).
Defined.

Lemma parse_ip_port_raises_witness :
  is_valid_ip no_decimal superscript_digits (py "1.2.3.4") = true
  ∧ isdigit no_decimal superscript_digits [178%N] = true
  ∧ int no_decimal [178%N] = None
  ∧ (chr_dot ∉ py "2") ∧ (chr_dot ∉ py "3") ∧ (chr_dot ∉ py "4")
  ∧ parse_ip_port no_decimal superscript_digits
      (py "1.2.3.4" ++ chr_colon :: [178%N]) = Exc
  ∧ is_valid_ip no_decimal superscript_digits
      (dotted [178%N] (py "2") (py "3") (py "4")) = false.
Proof.
  assert (∀ c : N, c ≠ chr_dot → chr_dot ∉ [c]) as Hno.
  { intros c Hc Hin. inversion Hin as [|? ? ? Hnil]; subst.
    - apply Hc. reflexivity.
    - inversion Hnil. }
  assert (chr_dot ∉ py "2") as H2 by (apply (Hno 50%N); discriminate).
  assert (chr_dot ∉ py "3") as H3 by (apply (Hno 51%N); discriminate).
  assert (chr_dot ∉ py "4") as H4 by (apply (Hno 52%N); discriminate).
  split_and!; [reflexivity | reflexivity | reflexivity
               | exact H2 | exact H3 | exact H4 | | ].
  - exact (proj1 (parse_ip_port_raises no_decimal superscript_digits
                    (py "1.2.3.4") [178%N] (py "2") (py "3") (py "4")
                    eq_refl eq_refl eq_refl H2 H3 H4)).
  - exact (proj2 (parse_ip_port_raises no_decimal superscript_digits
                    (py "1.2.3.4") [178%N] (py "2") (py "3") (py "4")
                    eq_refl eq_refl eq_refl H2 H3 H4)).
Defined.

Lemma findall_delimited_witness :
  py "1.2.3.4:80" ∈ findall no_decimal no_class no_class IP_PATTERN
                      (py "x 1.2.3.4:80 y")
  ∧ ∃ pre suf,
      py "x 1.2.3.4:80 y" = pre ++ py "1.2.3.4:80" ++ suf
      ∧ word_at no_decimal no_class no_class (last pre) = false
      ∧ word_at no_decimal no_class no_class (head suf) = false
      ∧ (7 ≤ length (py "1.2.3.4:80") ≤ 21)%nat.
Proof.
  assert (findall no_decimal no_class no_class IP_PATTERN
            (py "x 1.2.3.4:80 y") = [py "1.2.3.4:80"]) as E
    by (vm_compute; reflexivity).
  assert (py "1.2.3.4:80" ∈ findall no_decimal no_class no_class IP_PATTERN
                              (py "x 1.2.3.4:80 y")) as Hin
    by (rewrite E; constructor).
  split; [exact Hin|].
  exact (findall_delimited no_decimal no_class no_class
           (py "x 1.2.3.4:80 y") (py "1.2.3.4:80") Hin).
Defined.

Lemma extract_ips_from_text_valid_witness :
  (∀ (A : Type) `{Countable A} (s : gset A), elements_order A s ≡ₚ elements s)
  ∧ extract_ips_from_text no_decimal no_class no_class elements_order
      (py "x 1.2.3.4:80 y") = Ret [(py "1.2.3.4", Some 80)]
  ∧ (py "1.2.3.4", Some 80) ∈ [((py "1.2.3.4", Some 80) : candidate)]
  ∧ valid_candidate no_decimal no_class (py "1.2.3.4", Some 80)
  ∧ (7 ≤ length (py "1.2.3.4") ≤ 15)%nat.
Proof.
  assert ((py "1.2.3.4", Some 80) ∈ [((py "1.2.3.4", Some 80) : candidate)])
    as Hin by constructor.
  assert (extract_ips_from_text no_decimal no_class no_class elements_order
            (py "x 1.2.3.4:80 y") = Ret [(py "1.2.3.4", Some 80)]) as He
    by (vm_compute; reflexivity).
  destruct (extract_ips_from_text_valid no_decimal no_class no_class
              elements_order elements_order_perm (py "x 1.2.3.4:80 y")
              [(py "1.2.3.4", Some 80)] (py "1.2.3.4", Some 80) He Hin)
    as (Hv & Hlen & _).
  split_and!; [exact elements_order_perm | exact He | exact Hin
               | exact Hv | exact (proj1 Hlen) | exact (proj2 Hlen)].
Defined.

Lemma discovery_frame_witness :
  (∀ (A : Type) (l : list A), submission_order A l ≡ₚ l)
  ∧ probes (fetch_and_extract_ips no_decimal no_class no_class elements_order
              submission_order source_config
              (answers_after 1 (list_byte_of_string "1.2.3.4"))
              example_world)
    = probes example_world.
Proof.
  split; [exact submission_order_perm|].
  exact (proj1 (proj2 (proj2
           (discovery_frame no_decimal no_class no_class elements_order
              submission_order submission_order_perm source_config
              (answers_after 1 (list_byte_of_string "1.2.3.4"))
              example_world)))).
Defined.

Lemma discovery_all_sources_fail_witness :
  (∀ (A : Type) (l : list A), submission_order A l ≡ₚ l)
  ∧ (∀ h src, src ∈ URLS source_config → never_answers h src = None)
  ∧ length (requests
              (fetch_and_extract_ips no_decimal no_class no_class
                 elements_order submission_order source_config never_answers
                 initial_world))
    = 9%nat.
Proof.
  assert (∀ h src, src ∈ URLS source_config → never_answers h src = None)
    as Hfail by (intros h src _; reflexivity).
  split; [exact submission_order_perm|]. split; [exact Hfail|].
  exact (proj2 (proj2
           (discovery_all_sources_fail no_decimal no_class no_class
              elements_order submission_order submission_order_perm
              source_config never_answers initial_world Hfail))).
Defined.

Lemma example_world_candidates :
  ∀ c, c ∈ ip_set example_world → valid_candidate no_decimal no_class c.
Proof.
  intros c Hc. unfold example_world in Hc. cbn [ip_set] in Hc.
  apply elem_of_singleton in Hc. subst c.
  split; [reflexivity|]. simpl. lia.
Qed.

Lemma example_world_endpoints :
  ∀ e, e ∈ alive_ip_set example_world → valid_endpoint no_decimal no_class e.
Proof.
  intros e He. unfold example_world in He. cbn [alive_ip_set] in He.
  apply elem_of_singleton in He. subst e.
  split; [reflexivity|]. simpl. lia.
Qed.

Lemma source_ports_in_range :
  Forall (λ p, 1 ≤ p ≤ 65535) (common_ports source_config).
Proof. apply Forall_singleton. lia. Qed.

Lemma discovery_keeps_candidates_valid_witness :
  (∀ (A : Type) `{Countable A} (s : gset A), elements_order A s ≡ₚ elements s)
  ∧ (∀ (A : Type) (l : list A), submission_order A l ≡ₚ l)
  ∧ (∀ c, c ∈ ip_set example_world → valid_candidate no_decimal no_class c)
  ∧ ∀ c,
      c ∈ ip_set (fetch_and_extract_ips no_decimal no_class no_class
                    elements_order submission_order source_config
                    (answers_after 1 (list_byte_of_string "5.6.7.8 999.1.1.1"))
                    example_world) →
      valid_candidate no_decimal no_class c.
Proof.
  split; [exact elements_order_perm|]. split; [exact submission_order_perm|].
  split; [exact example_world_candidates|].
  exact (proj1 (discovery_keeps_candidates_valid no_decimal no_class no_class
                  elements_order elements_order_perm submission_order
                  submission_order_perm source_config
                  (answers_after 1 (list_byte_of_string "5.6.7.8 999.1.1.1"))
                  example_world example_world_candidates)).
Defined.

Lemma reachability_frame_witness :
  (∀ (A : Type) `{Countable A} (s : gset A), elements_order A s ≡ₚ elements s)
  ∧ (∀ (A : Type) (l : list A), submission_order A l ≡ₚ l)
  ∧ ip_set (filter_alive_ips elements_order submission_order source_config
              (open_on [9000]) example_world)
    = ip_set example_world
  ∧ alive_ip_set example_world
    ⊆ alive_ip_set (filter_alive_ips elements_order submission_order
                      source_config (open_on [9000]) example_world).
Proof.
  split; [exact elements_order_perm|]. split; [exact submission_order_perm|].
  pose proof (reachability_frame elements_order elements_order_perm
                submission_order submission_order_perm source_config
                (open_on [9000]) example_world) as (Hset & _ & Hsub & _).
  exact (conj Hset Hsub).
Defined.

Lemma reachability_idempotent_witness :
  (∀ (A : Type) `{Countable A} (s : gset A), elements_order A s ≡ₚ elements s)
  ∧ (∀ (A : Type) (l : list A), submission_order A l ≡ₚ l)
  ∧ alive_ip_set
      (filter_alive_ips elements_order submission_order source_config
         (open_on [9000])
         (filter_alive_ips elements_order submission_order source_config
            (open_on [9000]) example_world))
    = alive_ip_set
        (filter_alive_ips elements_order submission_order source_config
           (open_on [9000]) example_world).
Proof.
  split; [exact elements_order_perm|]. split; [exact submission_order_perm|].
  exact (reachability_idempotent elements_order elements_order_perm
           submission_order submission_order_perm source_config
           (open_on [9000]) example_world).
Defined.

Lemma reachability_keeps_endpoints_valid_witness :
  (∀ (A : Type) `{Countable A} (s : gset A), elements_order A s ≡ₚ elements s)
  ∧ (∀ (A : Type) (l : list A), submission_order A l ≡ₚ l)
  ∧ (∀ c, c ∈ ip_set example_world → valid_candidate no_decimal no_class c)
  ∧ Forall (λ p, 1 ≤ p ≤ 65535) (common_ports source_config)
  ∧ (∀ e, e ∈ alive_ip_set example_world → valid_endpoint no_decimal no_class e)
  ∧ ∀ e,
      e ∈ alive_ip_set (filter_alive_ips elements_order submission_order
                          source_config (open_on [9000]) example_world) →
      valid_endpoint no_decimal no_class e.
Proof.
  split_and!; [exact elements_order_perm | exact submission_order_perm
               | exact example_world_candidates | exact source_ports_in_range
               | exact example_world_endpoints | ].
  exact (proj2 (reachability_keeps_endpoints_valid no_decimal no_class
                  elements_order elements_order_perm submission_order
                  submission_order_perm source_config (open_on [9000])
                  example_world example_world_candidates
                  source_ports_in_range)
           example_world_endpoints).
Defined.

Lemma written_records_witness :
  (∀ (A : Type) `{Countable A} (s : gset A), elements_order A s ≡ₚ elements s)
  ∧ length (get_ip_location_and_write elements_order unknown_country
              example_world)
    = size (alive_ip_set example_world).
Proof.
  split; [exact elements_order_perm|].
  exact (proj1 (proj2 (written_records elements_order elements_order_perm
                         unknown_country example_world))).
Defined.

Lemma written_line_parses_back_witness :
  (∀ (A : Type) `{Countable A} (s : gset A), elements_order A s ≡ₚ elements s)
  ∧ (∀ e, e ∈ alive_ip_set example_world → valid_endpoint no_decimal no_class e)
  ∧ ∀ line,
      line ∈ written_lines elements_order unknown_country example_world →
      ∃ ip port,
        (ip, port) ∈ alive_ip_set example_world
        ∧ parse_ip_port no_decimal no_class (split_1 chr_hash line).1
          = Ret (Some (ip, Some port)).
Proof.
  split; [exact elements_order_perm|]. split; [exact example_world_endpoints|].
  exact (proj2 (written_line_parses_back no_decimal no_class elements_order
                  elements_order_perm unknown_country example_world
                  example_world_endpoints)).
Defined.

Lemma main_writes_only_verified_endpoints_witness :
  (∀ (A : Type) `{Countable A} (s : gset A), elements_order A s ≡ₚ elements s)
  ∧ (∀ (A : Type) (l : list A), submission_order A l ≡ₚ l)
  ∧ Forall (λ p, 1 ≤ p ≤ 65535) (common_ports source_config)
  ∧ NoDup (main no_decimal no_class no_class elements_order submission_order
             source_config
             (answers_after 1 (list_byte_of_string "1.2.3.4 5.6.7.8:9000"))
             (open_on [443]) unknown_country initial_world).*1.
Proof.
  split_and!; [exact elements_order_perm | exact submission_order_perm
               | exact source_ports_in_range | ].
  exact (proj1 (main_writes_only_verified_endpoints no_decimal no_class
                  no_class elements_order elements_order_perm
                  submission_order submission_order_perm source_config
                  (answers_after 1 (list_byte_of_string "1.2.3.4 5.6.7.8:9000"))
                  (open_on [443]) unknown_country source_ports_in_range)).
Defined.

Lemma main_without_sources_witness :
  (∀ (A : Type) `{Countable A} (s : gset A), elements_order A s ≡ₚ elements s)
  ∧ (∀ (A : Type) (l : list A), submission_order A l ≡ₚ l)
  ∧ (∀ h src, src ∈ URLS source_config → never_answers h src = None)
  ∧ main no_decimal no_class no_class elements_order submission_order
      source_config never_answers (open_on [443]) unknown_country
      initial_world = [].
Proof.
  assert (∀ h src, src ∈ URLS source_config → never_answers h src = None)
    as Hfail by (intros h src _; reflexivity).
  split_and!; [exact elements_order_perm | exact submission_order_perm
               | exact Hfail | ].
  exact (proj1 (main_without_sources no_decimal no_class no_class
                  elements_order elements_order_perm submission_order
                  submission_order_perm source_config never_answers
                  (open_on [443]) unknown_country Hfail)).
Defined.

Lemma decode_body_length_witness :
  forallb is_ascii_byte [Byte.x31; Byte.x2e; Byte.x32] = true
  ∧ decode_body [Byte.x31; Byte.x2e; Byte.x32]
    = latin1_decode [Byte.x31; Byte.x2e; Byte.x32].
Proof.
  split; [reflexivity|].
  exact (proj1 (proj2 (decode_body_length [Byte.x31; Byte.x2e; Byte.x32])
                  eq_refl)).
Defined.
